(** * Image encryption with AES-256-CBC: a shallow embedding and its properties

    The development follows the two Python modules of the program:
    - [crypto_utils.py]: key derivation (PBKDF2-HMAC-SHA256), encryption and
      decryption (AES-256 in CBC mode with PKCS#7 padding) and the container
      that stores salt, IV and ciphertext;
    - [analysis.py]: Shannon entropy, correlation coefficients, NPCR/UACI and
      the strength verdict.

    Conventions of the embedding.
    - Python [bytes] are [list byte]; a Python [str] is the list of its
      code points, and [str.encode()] is the UTF-8 codec, which raises on
      a surrogate.
    - A Python call either returns or raises: [result A].  [os.urandom] reads
      from an explicit entropy source, threaded through the calls that may
      draw from it.
    - The libraries (PyCryptodome, NumPy) are modelled after their documented
      behaviour.  SHA-256, HMAC and PBKDF2 are written out; the AES block
      transformation is a parameter of the cipher section.
    - NumPy floating-point values are rationals extended with NaN and the
      two infinities.  The [float32] computations of [calculate_npcr_uaci]
      are rounded to nearest, ties to even, operation by operation, and
      [np.sum] adds in NumPy's pairwise order.  The [float64] computations
      of the entropy and of the correlation are kept exact: what is proved
      about them (NaN and zero results, equal results on equal histograms)
      does not depend on rounding.  The sign of zero is not modelled. *)

From Stdlib.Strings Require Import String Ascii Byte.
From Stdlib Require Import DecimalString.
From Stdlib Require Import ZArith NArith QArith Qabs Qround Qpower.
From Stdlib Require Import Lia Lqa Bool Arith List.
From Stdlib Require Import Permutation.
Import ListNotations.

Set Implicit Arguments.
Close Scope Q_scope.
Open Scope nat_scope.

(** Python's [len] on sequences. *)
Abbreviation len := (@Datatypes.length _) (only parsing).

(* ================================================================== *)
(** * The Python runtime: exceptions, results, the entropy source *)
(* ================================================================== *)

Module Py.

(** The exception classes the two modules raise or catch;
    [UnicodeEncodeError] is what [str.encode()] raises. *)
Inductive exn : Type :=
| CryptoError (msg : string)
| AnalysisError (msg : string)
| ValueError (msg : string)
| AssertionError (msg : string)
| UnicodeEncodeError (msg : string).

(** [str(e)] *)
Definition str (e : exn) : string :=
  match e with
  | CryptoError m | AnalysisError m | ValueError m | AssertionError m
  | UnicodeEncodeError m => m
  end.

(** The outcome of a call. *)
Inductive result (A : Type) : Type :=
| Raise (e : exn)
| Return (v : A).
Arguments Raise {A} e.
Arguments Return {A} v.

Definition bind {A B} (r : result A) (k : A -> result B) : result B :=
  match r with
  | Raise e => Raise e
  | Return v => k v
  end.

(** [try: body / except Exception as e: handler] *)
Definition try_except {A} (body : result A) (handler : exn -> result A)
  : result A :=
  match body with
  | Raise e => handler e
  | Return v => Return v
  end.

Definition raises {A} (r : result A) : bool :=
  match r with Raise _ => true | Return _ => false end.

Definition bytes := list byte.

(** [sys.maxsize]: no sequence and no array has more items. *)
Definition maxsize : Z := 2 ^ 63 - 1.

(** A Python [str]: its code points, each below [0x110000]. *)
Definition unicode : Type := list N.

(** The [str] of a literal whose characters are ASCII. *)
Definition literal (s : string) : unicode :=
  map N_of_ascii (list_ascii_of_string s).

(** The state of the operating system's entropy source: an unbounded
    supply of bytes and the position of the next byte to hand out. *)
Record os_state : Type := { pool : nat -> byte; cursor : nat }.

(** [os.urandom(n)] *)
Definition urandom (n : nat) (s : os_state) : bytes * os_state :=
  (map (pool s) (seq (cursor s) n),
   {| pool := pool s; cursor := cursor s + n |}).

(** Calls that may draw from the entropy source. *)
Definition io (A : Type) : Type := os_state -> result A * os_state.

Definition ret {A} (v : A) : io A := fun s => (Return v, s).
Definition raise {A} (e : exn) : io A := fun s => (Raise e, s).
Definition lift {A} (r : result A) : io A := fun s => (r, s).

Definition io_bind {A B} (m : io A) (k : A -> io B) : io B :=
  fun s =>
    match m s with
    | (Raise e, s') => (Raise e, s')
    | (Return v, s') => k v s'
    end.

(** [try/except] around a body that may have drawn entropy before it
    raised: the handler runs in the state the body left. *)
Definition io_try {A} (body : io A) (handler : exn -> io A) : io A :=
  fun s =>
    match body s with
    | (Raise e, s') => handler e s'
    | (Return v, s') => (Return v, s')
    end.

End Py.
Import Py.

Declare Scope py_scope.
Delimit Scope py_scope with py.
Notation "x <- m ;; k" := (Py.bind m (fun x => k))
  (at level 61, m at next level, right associativity) : py_scope.
Notation "' p <- m ;; k" := (Py.bind m (fun p => k))
  (at level 61, p pattern, m at next level, right associativity) : py_scope.

Declare Scope io_scope.
Delimit Scope io_scope with io.
Notation "x <- m ;; k" := (Py.io_bind m (fun x => k))
  (at level 61, m at next level, right associativity) : io_scope.
Notation "' p <- m ;; k" := (Py.io_bind m (fun p => k))
  (at level 61, p pattern, m at next level, right associativity) : io_scope.

(* ================================================================== *)
(** * Bytes *)
(* ================================================================== *)

Module Bytes.

Definition to_Z (b : byte) : Z := Z.of_N (Byte.to_N b).

(** The byte of a number, reduced modulo 256. *)
Definition of_Z (z : Z) : byte :=
  match Byte.of_N (Z.to_N (z mod 256)) with
  | Some b => b
  | None => x00
  end.

Definition xor (a b : byte) : byte := of_Z (Z.lxor (to_Z a) (to_Z b)).

(** [Crypto.Util.strxor.strxor], on operands of equal length. *)
Fixpoint strxor (xs ys : bytes) : bytes :=
  match xs, ys with
  | x :: xs', y :: ys' => xor x y :: strxor xs' ys'
  | _, _ => []
  end.

Definition eqb (xs ys : bytes) : bool :=
  if list_eq_dec Byte.byte_eq_dec xs ys then true else false.

(** [s[:-n]] for [0 < n] *)
Definition drop_last (n : nat) (s : bytes) : bytes :=
  firstn (len s - n) s.

(** [s[-n:]] for [0 < n] *)
Definition take_last (n : nat) (s : bytes) : bytes :=
  skipn (len s - n) s.

End Bytes.

(* ================================================================== *)
(** * The UTF-8 codec *)
(* ================================================================== *)

(** [str.encode()], that is [str.encode('utf-8', 'strict')]: code points
    are written on one to four bytes; a surrogate (U+D800 to U+DFFF) cannot
    be encoded and makes the call raise [UnicodeEncodeError], whose message
    names the first run of surrogates. *)
Module UTF8.

Definition is_surrogate (c : N) : bool :=
  ((0xD800 <=? c) && (c <=? 0xDFFF))%N.

Definition byte_of (n : N) : byte := Bytes.of_Z (Z.of_N n).

(** The continuation byte that holds the six bits of [c] from bit
    [shift]. *)
Definition continuation (c shift : N) : byte :=
  byte_of (N.lor 0x80 (N.land (N.shiftr c shift) 0x3F)).

Definition encode_char (c : N) : bytes :=
  if (c <? 0x80)%N then [byte_of c]
  else if (c <? 0x800)%N then
    [byte_of (N.lor 0xC0 (N.shiftr c 6)); continuation c 0]
  else if (c <? 0x10000)%N then
    [byte_of (N.lor 0xE0 (N.shiftr c 12)); continuation c 6;
     continuation c 0]
  else
    [byte_of (N.lor 0xF0 (N.shiftr c 18)); continuation c 12;
     continuation c 6; continuation c 0].

(** The number of surrogates at the head of a string. *)
Fixpoint surrogate_run (s : unicode) : nat :=
  match s with
  | c :: s' => if is_surrogate c then S (surrogate_run s') else 0
  | [] => 0
  end.

(** The first surrogate of the string that starts at position [start]:
    its position, the code point, and the position after the run of
    surrogates it opens. *)
Fixpoint first_surrogate (s : unicode) (start : nat)
  : option (nat * N * nat) :=
  match s with
  | [] => None
  | c :: s' =>
      if is_surrogate c then Some (start, c, start + S (surrogate_run s'))
      else first_surrogate s' (S start)
  end.

Definition hex_digit (n : N) : ascii :=
  ascii_of_N (if (n <? 10)%N then 48 + n else 87 + n).

(** [%04x] *)
Definition hex4 (c : N) : string :=
  String (hex_digit (N.land (N.shiftr c 12) 15))
    (String (hex_digit (N.land (N.shiftr c 8) 15))
       (String (hex_digit (N.land (N.shiftr c 4) 15))
          (String (hex_digit (N.land c 15)) EmptyString))).

Definition decimal (n : nat) : string :=
  NilEmpty.string_of_uint (Nat.to_uint n).

(** [str(e)] for the [UnicodeEncodeError] on the surrogates from [start]
    to [stop] (excluded), the first of which is [c]. *)
Definition message (start : nat) (c : N) (stop : nat) : string :=
  if stop =? S start then
    ("'utf-8' codec can't encode character '\u" ++ hex4 c
       ++ "' in position " ++ decimal start
       ++ ": surrogates not allowed")%string
  else
    ("'utf-8' codec can't encode characters in position " ++ decimal start
       ++ "-" ++ decimal (stop - 1) ++ ": surrogates not allowed")%string.

Definition encode (s : unicode) : result bytes :=
  match first_surrogate s 0 with
  | Some (start, c, stop) => Raise (UnicodeEncodeError (message start c stop))
  | None => Return (concat (map encode_char s))
  end.

End UTF8.

(* ================================================================== *)
(** * PyCryptodome: SHA-256, HMAC, PBKDF2 *)
(* ================================================================== *)

(** [Crypto.Hash.SHA256] (FIPS 180-4).  Words are integers in
    [0, 2^32); every addition is reduced modulo [2^32]. *)
Module SHA256.

Definition digest_size : nat := 32.
Definition block_size : nat := 64.

Definition wrap (x : Z) : Z := x mod 2 ^ 32.
Definition add32 (x y : Z) : Z := wrap (x + y).
Definition rotr (n x : Z) : Z :=
  Z.lor (Z.shiftr x n) (wrap (Z.shiftl x (32 - n))).
Definition Ch (x y z : Z) : Z :=
  Z.lxor (Z.land x y) (Z.land (Z.lnot x) z).
Definition Maj (x y z : Z) : Z :=
  Z.lxor (Z.lxor (Z.land x y) (Z.land x z)) (Z.land y z).
Definition Sigma0 (x : Z) : Z :=
  Z.lxor (Z.lxor (rotr 2 x) (rotr 13 x)) (rotr 22 x).
Definition Sigma1 (x : Z) : Z :=
  Z.lxor (Z.lxor (rotr 6 x) (rotr 11 x)) (rotr 25 x).
Definition sigma0 (x : Z) : Z :=
  Z.lxor (Z.lxor (rotr 7 x) (rotr 18 x)) (Z.shiftr x 3).
Definition sigma1 (x : Z) : Z :=
  Z.lxor (Z.lxor (rotr 17 x) (rotr 19 x)) (Z.shiftr x 10).

(** The constants of the standard are fractional parts of roots of the
    first primes, to 32 bits. *)
Definition is_prime (n : nat) : bool :=
  (1 <? n) && forallb (fun d => negb (n mod d =? 0)) (seq 2 (n - 2)).

Definition primes (count : nat) : list nat :=
  firstn count (filter is_prime (seq 2 320)).

(** The integer cube root, found bit by bit from the top. *)
Fixpoint root3 (bits : nat) (n r : Z) : Z :=
  match bits with
  | O => r
  | S b =>
      let c := (r + 2 ^ Z.of_nat b)%Z in
      if (c * c * c <=? n)%Z then root3 b n c else root3 b n r
  end.

Definition frac_cbrt (p : nat) : Z :=
  wrap (root3 40 (Z.of_nat p * 2 ^ 96) 0).

Definition frac_sqrt (p : nat) : Z :=
  wrap (Z.sqrt (Z.of_nat p * 2 ^ 64)).

(** The sixty-four round constants: cube roots of the first 64 primes. *)
Definition K : list Z := Eval vm_compute in map frac_cbrt (primes 64).

(** The eight working variables, also the chaining value. *)
Record state : Type :=
  { ha : Z; hb : Z; hc : Z; hd : Z; he : Z; hf : Z; hg : Z; hh : Z }.

(** The initial hash value: square roots of the first 8 primes. *)
Definition H0 : state :=
  Eval vm_compute in
    let r := map frac_sqrt (primes 8) in
    let at_ i := nth i r 0%Z in
    {| ha := at_ 0; hb := at_ 1; hc := at_ 2; hd := at_ 3;
       he := at_ 4; hf := at_ 5; hg := at_ 6; hh := at_ 7 |}.

(** The message schedule is kept as a window of sixteen words:
    [W_t .. W_(t+15)]; sliding it appends [W_(t+16)]. *)
Definition slide (w : list Z) : list Z :=
  match w with
  | [] => []
  | w0 :: ws =>
      ws ++ [add32 (add32 (add32 (sigma1 (nth 14 w 0%Z)) (nth 9 w 0%Z))
                          (sigma0 (nth 1 w 0%Z))) w0]
  end.

Definition round (k wt : Z) (s : state) : state :=
  let t1 := add32 (add32 (add32 (add32 (hh s) (Sigma1 (he s)))
                                (Ch (he s) (hf s) (hg s))) k) wt in
  let t2 := add32 (Sigma0 (ha s)) (Maj (ha s) (hb s) (hc s)) in
  {| ha := add32 t1 t2; hb := ha s; hc := hb s; hd := hc s;
     he := add32 (hd s) t1; hf := he s; hg := hf s; hh := hg s |}.

Fixpoint rounds (ks : list Z) (w : list Z) (s : state) : state :=
  match ks with
  | [] => s
  | k :: ks' => rounds ks' (slide w) (round k (List.hd 0%Z w) s)
  end.

(** Big-endian words of a block. *)
Fixpoint words (block : bytes) : list Z :=
  match block with
  | b0 :: b1 :: b2 :: b3 :: rest =>
      (Bytes.to_Z b0 * 2 ^ 24 + Bytes.to_Z b1 * 2 ^ 16
       + Bytes.to_Z b2 * 2 ^ 8 + Bytes.to_Z b3)%Z :: words rest
  | _ => []
  end.

Definition compress (s : state) (block : bytes) : state :=
  let t := rounds K (words block) s in
  {| ha := add32 (ha s) (ha t); hb := add32 (hb s) (hb t);
     hc := add32 (hc s) (hc t); hd := add32 (hd s) (hd t);
     he := add32 (he s) (he t); hf := add32 (hf s) (hf t);
     hg := add32 (hg s) (hg t); hh := add32 (hh s) (hh t) |}.

Definition be32 (x : Z) : bytes :=
  [Bytes.of_Z (Z.shiftr x 24); Bytes.of_Z (Z.shiftr x 16);
   Bytes.of_Z (Z.shiftr x 8); Bytes.of_Z x].

Definition be64 (x : Z) : bytes :=
  be32 (Z.shiftr x 32) ++ be32 x.

(** Padding: a [0x80] byte, zeros up to 56 modulo 64, the bit length. *)
Definition padding (msg : bytes) : bytes :=
  let n := len msg in
  x80 :: repeat x00 ((64 - (n + 9) mod 64) mod 64)
      ++ be64 (8 * Z.of_nat n).

Fixpoint absorb (nblocks : nat) (s : state) (data : bytes) : state :=
  match nblocks with
  | O => s
  | S n => absorb n (compress s (firstn 64 data)) (skipn 64 data)
  end.

Definition output (s : state) : bytes :=
  be32 (ha s) ++ be32 (hb s) ++ be32 (hc s) ++ be32 (hd s)
    ++ be32 (he s) ++ be32 (hf s) ++ be32 (hg s) ++ be32 (hh s).

(** [SHA256.new(msg).digest()] *)
Definition digest (msg : bytes) : bytes :=
  let data := msg ++ padding msg in
  output (absorb (len data / 64) H0 data).

End SHA256.

(** [Crypto.Hash.HMAC] with SHA-256 (RFC 2104). *)
Module HMAC.

Definition digest (key msg : bytes) : bytes :=
  let k0 := if SHA256.block_size <? len key then SHA256.digest key else key in
  let k := k0 ++ repeat x00 (SHA256.block_size - len k0) in
  SHA256.digest (map (Bytes.xor x5c) k
                 ++ SHA256.digest (map (Bytes.xor x36) k ++ msg)).

End HMAC.

(** [Crypto.Protocol.KDF.PBKDF2] with [hmac_hash_module=SHA256]
    (RFC 8018, section 5.2). *)
Module KDF.

(** One step of the inner loop: the next link of the HMAC chain and the
    running exclusive-or. *)
Definition link (password : bytes) (st : bytes * bytes) : bytes * bytes :=
  let u := HMAC.digest password (fst st) in
  (u, Bytes.strxor (snd st) u).

(** The [i]-th output block: [U_1 xor ... xor U_count]. *)
Definition block (password salt : bytes) (count : Z) (i : nat) : bytes :=
  let first_digest :=
    HMAC.digest password (salt ++ SHA256.be32 (Z.of_nat i)) in
  snd (N.iter (Z.to_N count - 1) (link password)
              (first_digest, first_digest)).

(** The library asserts [count > 0] before it runs the inner loop. *)
Definition PBKDF2 (password salt : bytes) (dkLen : nat) (count : Z)
  : result bytes :=
  let nblocks := (dkLen + SHA256.digest_size - 1) / SHA256.digest_size in
  if (0 <? nblocks) && (count <=? 0)%Z then Raise (AssertionError "")
  else
    Return (firstn dkLen
              (concat (map (block password salt count) (seq 1 nblocks)))).

End KDF.

(* ================================================================== *)
(** * PyCryptodome: PKCS#7 padding and AES in CBC mode *)
(* ================================================================== *)

(** [Crypto.Util.Padding], style [pkcs7]. *)
Module Padding.

(** [bchr(n)]: the byte of a number below 256. *)
Definition bchr (n : nat) : result byte :=
  match Byte.of_nat n with
  | Some b => Return b
  | None => Raise (ValueError "bytes must be in range(0, 256)")
  end.

Definition pad (data_to_pad : bytes) (block_size : nat) : result bytes :=
  let padding_len := block_size - len data_to_pad mod block_size in
  (b <- bchr padding_len ;;
   Return (data_to_pad ++ repeat b padding_len))%py.

Definition unpad (padded_data : bytes) (block_size : nat) : result bytes :=
  let pdata_len := len padded_data in
  if pdata_len =? 0 then
    Raise (ValueError "Zero-length input cannot be unpadded")
  else if negb (pdata_len mod block_size =? 0) then
    Raise (ValueError "Input data is not padded")
  else
    let padding_len := Byte.to_nat (last padded_data x00) in
    if (padding_len <? 1) || (Nat.min block_size pdata_len <? padding_len)
    then Raise (ValueError "Padding is incorrect.")
    else
      (b <- bchr padding_len ;;
       if negb (Bytes.eqb (Bytes.take_last padding_len padded_data)
                          (repeat b padding_len))
       then Raise (ValueError "PKCS#7 padding is incorrect.")
       else Return (Bytes.drop_last padding_len padded_data))%py.

(** The number of bytes [pad] appends for a block size of 16. *)
Definition padding_len (data : bytes) : nat := 16 - len data mod 16.

End Padding.

(** [Crypto.Cipher.AES] in [MODE_CBC].  The block transformation of AES and
    its inverse are the two fields of [block_cipher]: they take the key and
    one 16-byte block. *)
Module AES.

Definition block_size : nat := 16.
Definition key_size : list nat := [16; 24; 32].

Record block_cipher : Type :=
  { encrypt_block : bytes -> bytes -> bytes;
    decrypt_block : bytes -> bytes -> bytes }.

(** What the development assumes of AES: on a 32-byte key the block
    transformation maps 16-byte blocks to 16-byte blocks and the inverse
    transformation undoes it. *)
Definition block_cipher_correct (aes : block_cipher) : Prop :=
  forall key block : bytes,
    len key = 32 -> len block = block_size ->
    len (encrypt_block aes key block) = block_size /\
    decrypt_block aes key (encrypt_block aes key block) = block.

(** The cipher object returned by [AES.new(key, AES.MODE_CBC, iv)]. *)
Record cipher : Type := { key : bytes; iv : bytes }.

Definition string_of_nat (n : nat) : string :=
  DecimalString.NilEmpty.string_of_uint (Nat.to_uint n).

Definition new (key iv : bytes) : result cipher :=
  if negb (existsb (Nat.eqb (len key)) key_size) then
    Raise (ValueError ("Incorrect AES key length ("
                         ++ string_of_nat (len key) ++ " bytes)")%string)
  else if negb (len iv =? block_size) then
    Raise (ValueError "Incorrect IV length (it must be 16 bytes long)")
  else Return {| key := key; iv := iv |}.

Section Mode.
Variable aes : block_cipher.

(** [nblocks] blocks of [data], each combined with the previous
    ciphertext block ([prev]; the IV for the first) and encrypted. *)
Fixpoint cbc_encrypt (nblocks : nat) (k prev data : bytes) : bytes :=
  match nblocks with
  | O => []
  | S n =>
      let c :=
        encrypt_block aes k (Bytes.strxor (firstn block_size data) prev) in
      c ++ cbc_encrypt n k c (skipn block_size data)
  end.

Fixpoint cbc_decrypt (nblocks : nat) (k prev data : bytes) : bytes :=
  match nblocks with
  | O => []
  | S n =>
      let c := firstn block_size data in
      Bytes.strxor (decrypt_block aes k c) prev
        ++ cbc_decrypt n k c (skipn block_size data)
  end.

(** [cipher.encrypt(plaintext)] *)
Definition encrypt (c : cipher) (plaintext : bytes) : result bytes :=
  if negb (len plaintext mod block_size =? 0) then
    Raise (ValueError "Data must be padded to 16 byte boundary in CBC mode")
  else
    Return (cbc_encrypt (len plaintext / block_size) (key c) (iv c)
                        plaintext).

(** [cipher.decrypt(ciphertext)] *)
Definition decrypt (c : cipher) (ciphertext : bytes) : result bytes :=
  if negb (len ciphertext mod block_size =? 0) then
    Raise (ValueError "Data must be padded to 16 byte boundary in CBC mode")
  else
    Return (cbc_decrypt (len ciphertext / block_size) (key c) (iv c)
                        ciphertext).
End Mode.

End AES.

(* ================================================================== *)
(** * crypto_utils.py *)
(* ================================================================== *)

Module crypto_utils.

(** [os.urandom(n)] as a call. *)
Definition os_urandom (n : nat) : io bytes :=
  fun s => let (r, s') := urandom n s in (Return r, s').

(** [password.encode()] *)
Definition encode (password : unicode) : result bytes :=
  UTF8.encode password.

(** [not salt]: true for [None] and for the empty byte string. *)
Definition not_salt (salt : option bytes) : bool :=
  match salt with
  | None => true
  | Some [] => true
  | Some (_ :: _) => false
  end.

(** [not password], for a password that is a [str]. *)
Definition not_password (password : unicode) : bool :=
  match password with
  | [] => true
  | _ :: _ => false
  end.

(** The default of the parameter [iterations]. *)
Definition default_iterations : Z := 200000.

Definition derive_key (password : unicode) (salt : option bytes)
           (iterations : Z) : io (bytes * bytes) :=
  (salt <- (if not_salt salt then os_urandom 16
            else ret (match salt with Some s => s | None => [] end)) ;;
   if not_password password then
     raise (CryptoError "Invalid password provided")
   else
     io_try
       (encoded <- lift (encode password) ;;
        key <- lift (KDF.PBKDF2 encoded salt 32 iterations) ;;
        ret (key, salt))
       (fun e =>
          raise (CryptoError ("Key derivation failed: " ++ str e)%string))
  )%io.

Section Cipher.
Variable aes : AES.block_cipher.

Definition encrypt_image (image_data : bytes) (password : unicode)
  : io (bytes * bytes * bytes) :=
  io_try
    ('(key, salt) <- derive_key password None default_iterations ;;
     iv <- os_urandom 16 ;;
     cipher <- lift (AES.new key iv) ;;
     padded_data <- lift (Padding.pad image_data AES.block_size) ;;
     encrypted_data <- lift (AES.encrypt aes cipher padded_data) ;;
     ret (salt, iv, encrypted_data))%io
    (fun e => raise (CryptoError ("Encryption failed: " ++ str e)%string)).

Definition decrypt_image (encrypted_data salt iv : bytes)
           (password : unicode) : io bytes :=
  io_try
    ('(key, _) <- derive_key password (Some salt) default_iterations ;;
     cipher <- lift (AES.new key iv) ;;
     decrypted_padded <- lift (AES.decrypt aes cipher encrypted_data) ;;
     decrypted_data <- lift (Padding.unpad decrypted_padded AES.block_size) ;;
     ret decrypted_data)%io
    (fun e => raise (CryptoError ("Decryption failed: " ++ str e)%string)).
End Cipher.

Definition combine_encrypted_data (salt iv encrypted_data : bytes) : bytes :=
  salt ++ iv ++ encrypted_data.

Definition split_encrypted_data (combined_data : bytes)
  : result (bytes * bytes * bytes) :=
  if len combined_data <? 32 then
    Raise (CryptoError "Invalid encrypted data format")
  else
    let salt := firstn 16 combined_data in
    let iv := firstn (32 - 16) (skipn 16 combined_data) in
    let encrypted_data := skipn 32 combined_data in
    Return (salt, iv, encrypted_data).

End crypto_utils.

(* ================================================================== *)
(** * NumPy: floating-point values and arrays *)
(* ================================================================== *)

Module NumPy.

(** A floating-point value: not-a-number, an infinity, or a finite value,
    held as a rational in lowest terms. *)
Inductive float : Type :=
| NaN
| Inf (negative : bool)
| Fin (q : Q).

Definition fin (q : Q) : float := Fin (Qred q).
Definition of_Z (z : Z) : float := Fin (inject_Z z).
Definition of_nat (n : nat) : float := of_Z (Z.of_nat n).

Definition Qneg (q : Q) : bool := (Qnum q <? 0)%Z.
Definition Qzero (q : Q) : bool := (Qnum q =? 0)%Z.

Definition fneg (x : float) : float :=
  match x with
  | NaN => NaN
  | Inf s => Inf (negb s)
  | Fin q => fin (- q)
  end.

Definition fabs (x : float) : float :=
  match x with
  | NaN => NaN
  | Inf _ => Inf false
  | Fin q => fin (Qabs q)
  end.

Definition fadd (x y : float) : float :=
  match x, y with
  | NaN, _ | _, NaN => NaN
  | Inf s, Inf t => if Bool.eqb s t then Inf s else NaN
  | Inf s, Fin _ | Fin _, Inf s => Inf s
  | Fin p, Fin q => fin (p + q)
  end.

Definition fsub (x y : float) : float := fadd x (fneg y).

Definition fmul (x y : float) : float :=
  match x, y with
  | NaN, _ | _, NaN => NaN
  | Inf s, Inf t => Inf (xorb s t)
  | Inf s, Fin q | Fin q, Inf s =>
      if Qzero q then NaN else Inf (xorb s (Qneg q))
  | Fin p, Fin q => fin (p * q)
  end.

(** Division follows IEEE 754: [0/0] and [Inf/Inf] are NaN, a non-zero
    value over zero is an infinity; nothing is raised. *)
Definition fdiv (x y : float) : float :=
  match x, y with
  | NaN, _ | _, NaN => NaN
  | Inf _, Inf _ => NaN
  | Inf s, Fin q => Inf (xorb s (Qneg q))
  | Fin _, Inf _ => Fin 0
  | Fin p, Fin q =>
      if Qzero q then (if Qzero p then NaN else Inf (Qneg p))
      else fin (p / q)
  end.

(** Comparison; [None] when an operand is NaN. *)
Definition fcompare (x y : float) : option comparison :=
  match x, y with
  | NaN, _ | _, NaN => None
  | Inf s, Inf t =>
      Some (if s then (if t then Eq else Lt) else (if t then Gt else Eq))
  | Inf s, Fin _ => Some (if s then Lt else Gt)
  | Fin _, Inf t => Some (if t then Gt else Lt)
  | Fin p, Fin q => Some (p ?= q)%Q
  end.

(** [x < y], [x > y], [x <= y]: false as soon as an operand is NaN. *)
Definition flt (x y : float) : bool :=
  match fcompare x y with Some Lt => true | _ => false end.
Definition fgt (x y : float) : bool := flt y x.
Definition fle (x y : float) : bool :=
  match fcompare x y with Some Lt | Some Eq => true | _ => false end.

Definition isnan (x : float) : bool :=
  match x with NaN => true | _ => false end.

(** [np.sum] *)
Definition fsum (xs : list float) : float := fold_left fadd xs (Fin 0).

(** [np.mean] of a one-dimensional sequence: the sum over the count. *)
Definition mean (xs : list float) : float :=
  fdiv (fsum xs) (of_nat (len xs)).

(** [np.clip(x, lo, hi)], which leaves NaN in place. *)
Definition clip (x lo hi : float) : float :=
  if isnan x then NaN
  else if flt x lo then lo
  else if fgt x hi then hi
  else x.

(** ** Rounding

    A binary format: the number of bits of the significand, the exponent
    of the last place of the least positive value, and the exponent of
    the least power of two that overflows. *)
Record format : Type := { precision : Z; emin : Z; emax : Z }.

Definition binary32 : format :=
  {| precision := 24; emin := -149; emax := 128 |}.
Definition binary64 : format :=
  {| precision := 53; emin := -1074; emax := 1024 |}.

Definition pow2 (k : Z) : Q := (2 ^ k)%Q.

(** The exponent of the greatest power of two that is not above [x],
    for [0 < x]. *)
Definition ilog2 (x : Q) : Z :=
  let l := (Z.log2 (Qnum x) - Z.log2 (Z.pos (Qden x)))%Z in
  if Qle_bool (pow2 l) x then l else (l - 1)%Z.

(** The nearest integer, the even one of the two when they are equally
    near. *)
Definition rne (y : Q) : Z :=
  let f := Qfloor y in
  match Qcompare (y - inject_Z f) (1 # 2) with
  | Lt => f
  | Gt => (f + 1)%Z
  | Eq => if Z.even f then f else (f + 1)%Z
  end.

Section Format.
Variable fmt : format.

(** The exponent of the last place of a positive value, the integer
    number of units of the last place it is nearest to, and that nearest
    value. *)
Definition last_place (x : Q) : Z :=
  Z.max (ilog2 x - (precision fmt - 1)) (emin fmt).
Definition significand (x : Q) : Z := rne (x / pow2 (last_place x)).
Definition nearest (x : Q) : Q :=
  (inject_Z (significand x) * pow2 (last_place x))%Q.

(** Rounding to nearest, ties to even (IEEE 754); a result of [2^emax] or
    more is an infinity. *)
Definition round (q : Q) : float :=
  if Qzero q then Fin 0 else
  let v := nearest (Qabs q) in
  if Qle_bool (pow2 (emax fmt)) v then Inf (Qneg q)
  else fin (if Qneg q then (- v)%Q else v).

(** The positive values that the format holds: an integer of at most
    [precision] bits times a power of two that is not below the least
    one. *)
Definition representable (c : Q) : Prop :=
  exists (M j : Z),
    (0 < M < 2 ^ precision fmt)%Z /\ (emin fmt <= j)%Z /\
    (c == inject_Z M * pow2 j)%Q.
End Format.

(** [x] is plus infinity or a finite value that is at least [c]. *)
Definition at_least (c : Q) (x : float) : Prop :=
  x = Inf false \/ exists q, x = Fin q /\ (c <= q)%Q.

(** [x.astype(np.float32)], and the conversion to a Python [float]. *)
Definition as_float32 (x : float) : float :=
  match x with Fin q => round binary32 q | _ => x end.
Definition as_float64 (x : float) : float :=
  match x with Fin q => round binary64 q | _ => x end.

(** The operations on [float32] operands, and the product of two Python
    [float]s. *)
Definition add32 (x y : float) : float := as_float32 (fadd x y).
Definition sub32 (x y : float) : float := as_float32 (fsub x y).
Definition mul32 (x y : float) : float := as_float32 (fmul x y).
Definition div32 (x y : float) : float := as_float32 (fdiv x y).
Definition mul64 (x y : float) : float := as_float64 (fmul x y).

(** ** Pairwise summation

    [np.sum] on a contiguous array adds its items in the order of
    [pairwise_sum] (numpy/_core/src/umath/loops_utils.h.src): fewer than
    eight items are added one after the other; up to [PW_BLOCKSIZE] items
    are added into eight accumulators, which are then added two by two,
    before the items left over; a longer array is cut in two parts, the
    first of a multiple of eight items, that are summed separately.  The
    function is the same for every item type, so it takes the addition as
    a parameter. *)
Definition PW_BLOCKSIZE : nat := 128.

Section PairwiseSum.
Variable A : Type.
Variable add : A -> A -> A.
Variable zero : A.

(** [for (i = 0; i < n; i++) res += a[i]] *)
Definition sum_loop (res : A) (a : list A) : A := fold_left add a res.

(** [r[j] += a[i + j]] for the eight accumulators. *)
Definition add_lanes (r lane : list A) : list A :=
  map (fun p => add (fst p) (snd p)) (combine r lane).

(** The unrolled loop: [rows] rows of eight items are added to the
    accumulators. *)
Fixpoint unrolled (rows : nat) (r a : list A) : list A :=
  match rows with
  | 0 => r
  | S rows' => unrolled rows' (add_lanes r (firstn 8 a)) (skipn 8 a)
  end.

(** [((r[0] + r[1]) + (r[2] + r[3])) + ((r[4] + r[5]) + (r[6] + r[7]))] *)
Definition combine8 (r : list A) : A :=
  let r j := nth j r zero in
  add (add (add (r 0) (r 1)) (add (r 2) (r 3)))
      (add (add (r 4) (r 5)) (add (r 6) (r 7))).

(** The sum of a block of 8 to [PW_BLOCKSIZE] items. *)
Definition block_sum (a : list A) : A :=
  let rows := len a / 8 in
  let r := unrolled (rows - 1) (firstn 8 a) (skipn 8 a) in
  sum_loop (combine8 r) (skipn (8 * rows) a).

(** The recursion is on a fuel, of which [len a] is enough. *)
Fixpoint pairwise_sum (fuel : nat) (a : list A) : A :=
  if len a <? 8 then sum_loop zero a
  else if len a <=? PW_BLOCKSIZE then block_sum a
  else
    match fuel with
    | 0 => block_sum a
    | S fuel' =>
        let n2 := len a / 2 in
        let n2 := n2 - n2 mod 8 in
        add (pairwise_sum fuel' (firstn n2 a))
            (pairwise_sum fuel' (skipn n2 a))
    end.
End PairwiseSum.

(** [np.sum] of a [float32] array. *)
Definition sum32 (a : list float) : float :=
  pairwise_sum add32 (Fin 0) (len a) a.

(** The real functions behind [np.log2] and [np.sqrt], on positive and on
    non-negative rationals. *)
Record elementary : Type :=
  { real_log2 : Q -> Q; real_sqrt : Q -> Q }.

Section Elementary.
Variable fn : elementary.

(** [np.log2] *)
Definition log2 (x : float) : float :=
  match x with
  | NaN => NaN
  | Inf s => if s then NaN else Inf false
  | Fin q =>
      if Qzero q then Inf true
      else if Qneg q then NaN
      else fin (real_log2 fn q)
  end.

(** [np.sqrt] *)
Definition sqrt (x : float) : float :=
  match x with
  | NaN => NaN
  | Inf s => if s then NaN else Inf false
  | Fin q => if Qneg q then NaN else fin (real_sqrt fn q)
  end.

Definition dot (xs ys : list float) : float :=
  fsum (map (fun p => fmul (fst p) (snd p)) (combine xs ys)).

(** [np.cov(x, y)] of two one-dimensional samples: the entries
    [(c00, c01, c11)] of the covariance matrix.  The normalisation is
    [N - 1], replaced by [0.0] when it is not positive. *)
Definition cov (x y : list float) : result (float * float * float) :=
  if negb (len x =? len y) then
    Raise (ValueError "all the input array dimensions except for the concatenation axis must match exactly")
  else
    let avg_x := mean x in
    let avg_y := mean y in
    let fact := (Z.of_nat (len x) - 1)%Z in
    let fact := if (fact <=? 0)%Z then Fin 0 else of_Z fact in
    let xc := map (fun v => fsub v avg_x) x in
    let yc := map (fun v => fsub v avg_y) y in
    let scale := fdiv (Fin 1) fact in
    Return (fmul (dot xc xc) scale,
            fmul (dot xc yc) scale,
            fmul (dot yc yc) scale).

(** [np.corrcoef(x, y)[0, 1]] *)
Definition corrcoef (x y : list float) : result float :=
  ('(c00, c01, c11) <- cov x y ;;
   let stddev0 := sqrt c00 in
   let stddev1 := sqrt c11 in
   Return (clip (fdiv (fdiv c01 stddev0) stddev1)
                (Fin (-1)) (Fin 1)))%py.
End Elementary.

(** An array of integers (the program's arrays hold [uint8] values):
    its shape and its items in row-major order. *)
Record ndarray : Type := { shape : list nat; items : list Z }.

(** [a.size] *)
Definition size (a : ndarray) : nat := fold_right Nat.mul 1 (shape a).

(** The shape describes the items. *)
Definition wf (a : ndarray) : Prop := len (items a) = size a.

(** The values of the type [uint8]. *)
Definition uint8 (v : Z) : Prop := (0 <= v <= 255)%Z.

(** [np.frombuffer(data, dtype=np.uint8)] *)
Definition frombuffer (data : bytes) : ndarray :=
  {| shape := [len data]; items := map Bytes.to_Z data |}.

(** [a.reshape(-1, 1)] on a one-dimensional array. *)
Definition reshape_column (a : ndarray) : ndarray :=
  {| shape := [size a; 1]; items := items a |}.

(** [np.bincount(x, minlength=n)] on an array of [uint8] values. *)
Definition bincount (x : ndarray) (minlength : nat) : list nat :=
  map (fun v => len (filter (Z.eqb (Z.of_nat v)) (items x)))
      (seq 0 (Nat.max minlength
                      (Z.to_nat (fold_right Z.max (-1)%Z (items x) + 1)))).

(** The rows of a two-dimensional array. *)
Definition rows (h w : nat) (xs : list float) : list (list float) :=
  map (fun i => firstn w (skipn (i * w) xs)) (seq 0 h).

(** [a.mean(axis=2)] on the items of an array of shape [(h, w, c)]. *)
Definition mean_axis2 (h w c : nat) (xs : list float) : list float :=
  map (fun i => mean (firstn c (skipn (i * c) xs))) (seq 0 (h * w)).

End NumPy.

(* ================================================================== *)
(** * analysis.py *)
(* ================================================================== *)

Module analysis.
Import NumPy.

(** The dictionary returned by [calculate_correlation], in the order its
    keys are inserted. *)
Record correlations : Type :=
  { horizontal : float; vertical : float; diagonal : float }.

(** [correlations.values()] *)
Definition values (c : correlations) : list float :=
  [horizontal c; vertical c; diagonal c].

(** The dictionary returned by [calculate_npcr_uaci]. *)
Record metrics : Type := { npcr : float; uaci : float }.

(** The dictionary returned by [analyze_encryption_strength]. *)
Record results : Type :=
  { r_entropy : float;
    r_correlations : correlations;
    r_npcr : float;
    r_uaci : float;
    r_verdict : string }.

Section Elementary.
Variable fn : elementary.

Definition calculate_entropy (data : bytes) : result float :=
  try_except
    (let freq := bincount (frombuffer data) 256 in
     let prob := map (fun f => fdiv (of_nat f) (of_nat (len data))) freq in
     let prob := filter (fun p => fgt p (Fin 0)) prob in
     let entropy :=
       fneg (fsum (map (fun p => fmul p (log2 fn p)) prob)) in
     Return entropy)
    (fun e =>
       Raise (AnalysisError ("Entropy calculation failed: " ++ str e)%string)).

(** The inner function of [calculate_correlation]; [x] and [y] are
    two-dimensional views, flattened before use. *)
Definition calculate_direction_correlation (x y : list (list float))
  : result float :=
  corrcoef fn (concat x) (concat y).

Definition calculate_correlation (image : ndarray) : result correlations :=
  try_except
    (let image_items := map of_Z (items image) in
     (* if len(image.shape) > 2: image = image.mean(axis=2) *)
     let '(image_shape, image_items) :=
       match shape image with
       | h :: w :: c :: rest =>
           (h :: w :: rest, mean_axis2 h w c image_items)
       | sh => (sh, image_items)
       end in
     (* h, w = image.shape *)
     '(h, w) <-
       match image_shape with
       | [h; w] => Return (h, w)
       | [] | [_] =>
           Raise (ValueError ("not enough values to unpack (expected 2, got "
                                ++ AES.string_of_nat (len image_shape) ++ ")")%string)
       | _ => Raise (ValueError "too many values to unpack (expected 2)")
       end ;;
     let image := rows h w image_items in
     hor <- calculate_direction_correlation
              (map (@removelast _) image) (map (@tl _) image) ;;
     ver <- calculate_direction_correlation
              (removelast image) (tl image) ;;
     dia <- calculate_direction_correlation
              (map (@removelast _) (removelast image))
              (map (@tl _) (tl image)) ;;
     Return {| horizontal := hor; vertical := ver; diagonal := dia |})%py
    (fun e =>
       Raise (AnalysisError ("Correlation calculation failed: " ++ str e)%string)).
End Elementary.

(** [(original != encrypted).astype(np.float32)]: an array of [1.0] and
    [0.0]. *)
Definition diff_array (original encrypted : ndarray) : list float :=
  map (fun p => if (fst p =? snd p)%Z then Fin 0 else Fin 1)
      (combine (items original) (items encrypted)).

(** [np.abs(original.astype(np.float32) - encrypted.astype(np.float32))] *)
Definition abs_diff (original encrypted : ndarray) : list float :=
  map (fun p => fabs (sub32 (as_float32 (of_Z (fst p)))
                            (as_float32 (of_Z (snd p)))))
      (combine (items original) (items encrypted)).

Definition shape_eqb (s t : list nat) : bool :=
  if list_eq_dec Nat.eq_dec s t then true else false.

Definition calculate_npcr_uaci (original encrypted : ndarray)
  : result metrics :=
  try_except
    (if negb (shape_eqb (shape original) (shape encrypted)) then
       Raise (AnalysisError "Images must have the same dimensions")
     else
       let diff_size := of_nat (size original) in
       (* a Python float or int that meets a float32 is cast to float32 *)
       let npcr :=
         div32 (mul32 (as_float32 (Fin 100))
                      (sum32 (diff_array original encrypted)))
               (as_float32 diff_size) in
       let uaci :=
         div32 (mul32 (as_float32 (Fin 100))
                      (sum32 (abs_diff original encrypted)))
               (as_float32 (mul64 (Fin 255) (as_float64 diff_size))) in
       Return {| npcr := npcr; uaci := uaci |})
    (fun e =>
       Raise (AnalysisError ("NPCR/UACI calculation failed: " ++ str e)%string)).

(** The scoring part of [analyze_encryption_strength]: the running
    [strength_score] after the three checks. *)
Definition strength_score (entropy avg_correlation npcr : float) : nat :=
  let strength_score := 0 in
  (* Entropy check *)
  let strength_score :=
    if fgt entropy (Fin 7.9) then strength_score + 2
    else if fgt entropy (Fin 7.5) then strength_score + 1
    else strength_score in
  (* Correlation check *)
  let strength_score :=
    if flt avg_correlation (Fin 0.1) then strength_score + 2
    else if flt avg_correlation (Fin 0.3) then strength_score + 1
    else strength_score in
  (* NPCR check *)
  let strength_score :=
    if fgt npcr (Fin 99) then strength_score + 2
    else if fgt npcr (Fin 90) then strength_score + 1
    else strength_score in
  strength_score.

(** The verdict for a score. *)
Definition verdict (strength_score : nat) : string :=
  if 5 <=? strength_score then "Strong"
  else if 3 <=? strength_score then "Moderate"
  else "Weak".

(** [np.mean([abs(v) for v in results['correlations'].values()])] *)
Definition avg_correlation (c : correlations) : float :=
  mean (map fabs (values c)).

Section Analyze.
Variable fn : elementary.

Definition analyze_encryption_strength (original_data encrypted_data : bytes)
  : result results :=
  try_except
    (entropy <- calculate_entropy fn encrypted_data ;;
     let orig_array := reshape_column (frombuffer original_data) in
     let enc_array := reshape_column (frombuffer encrypted_data) in
     correlations <- calculate_correlation fn enc_array ;;
     metrics <- calculate_npcr_uaci orig_array enc_array ;;
     let strength_score :=
       strength_score entropy (avg_correlation correlations)
                      (npcr metrics) in
     Return {| r_entropy := entropy;
               r_correlations := correlations;
               r_npcr := npcr metrics;
               r_uaci := uaci metrics;
               r_verdict := verdict strength_score |})%py
    (fun e =>
       Raise (AnalysisError
                ("Encryption strength analysis failed: " ++ str e)%string)).
End Analyze.

End analysis.

(* ================================================================== *)
(** * The specification's side: the scoring table, NPCR and UACI *)
(* ================================================================== *)

(** The scoring table of the specification, row by row: each row gives its
    points when its condition holds, and the score is the sum of the rows. *)
Module ScoringTable.
Import NumPy.

Definition row (condition : bool) (points : nat) : nat :=
  if condition then points else 0.

Definition score (entropy mean_abs_correlation npcr : float) : nat :=
  row (fgt entropy (Fin 7.9)) 2
  + row (flt (Fin 7.5) entropy && fle entropy (Fin 7.9)) 1
  + row (flt mean_abs_correlation (Fin 0.1)) 2
  + row (fle (Fin 0.1) mean_abs_correlation
         && flt mean_abs_correlation (Fin 0.3)) 1
  + row (fgt npcr (Fin 99)) 2
  + row (flt (Fin 90) npcr && fle npcr (Fin 99)) 1.

End ScoringTable.

(** NPCR and UACI as the specification words them, over the items of two
    arrays taken position by position. *)
Module ChangeRates.

(** The number of positions where the values differ. *)
Definition count_diff (xs ys : list Z) : nat :=
  len (filter (fun p => negb (fst p =? snd p)%Z) (combine xs ys)).

(** The sum of the absolute differences of the values. *)
Definition sum_abs_diff (xs ys : list Z) : Z :=
  fold_right Z.add 0%Z (map (fun p => Z.abs (fst p - snd p)) (combine xs ys)).

Definition Qnat (n : nat) : Q := inject_Z (Z.of_nat n).

Definition npcr (xs ys : list Z) (total : nat) : Q :=
  (100 * Qnat (count_diff xs ys) / Qnat total)%Q.

Definition uaci (xs ys : list Z) (total : nat) : Q :=
  (100 * inject_Z (sum_abs_diff xs ys) / (255 * Qnat total))%Q.

End ChangeRates.

(* ================================================================== *)
(** * Instances used to run the definitions *)
(* ================================================================== *)

Module Instances.

(** A block cipher that meets [AES.block_cipher_correct]: each block is
    combined with the first sixteen bytes of the key. *)
Definition xor_cipher : AES.block_cipher :=
  {| AES.encrypt_block := fun key block => Bytes.strxor block (firstn 16 key);
     AES.decrypt_block := fun key block => Bytes.strxor block (firstn 16 key)
  |}.

(** An entropy source that hands out the bytes 0, 1, 2, ... in turn. *)
Definition counting_source : os_state :=
  {| pool := fun i => Bytes.of_Z (Z.of_nat i); cursor := 0 |}.

(** Integer parts of the binary logarithm and of the square root, enough
    to run the analysis on small inputs. *)
Definition integer_parts : NumPy.elementary :=
  {| NumPy.real_log2 := fun q => inject_Z (Z.log2 (Qnum q / Z.pos (Qden q)));
     NumPy.real_sqrt := fun q => inject_Z (Z.sqrt (Qnum q / Z.pos (Qden q)))
  |}.

End Instances.

(* ================================================================== *)
(** * crypto_utils.py: the visualization image *)
(* ================================================================== *)

(** [PIL.Image]: an image as [Image.fromarray] builds it from a
    two-dimensional array of [uint8] values. *)
Module PIL.

Record Image : Type :=
  { mode : string; width : nat; height : nat; pixels : list Z }.

(** [Image.fromarray(a, mode)] on an array of shape [(h, w)]: an image of
    size [(w, h)] holding the items row by row. *)
Definition fromarray (h w : nat) (items : list Z) (mode : string) : Image :=
  {| mode := mode; width := w; height := h; pixels := items |}.

End PIL.

Module visualization.
Import NumPy.

(** What the body of [create_visualization_image] can raise before its
    handler turns it into a [CryptoError]: Python's own
    [ZeroDivisionError], or an exception of the libraries. *)
Inductive exception : Type :=
| ZeroDivisionError (msg : string)
| Library (e : exn).

Definition str_exception (e : exception) : string :=
  match e with
  | ZeroDivisionError msg => msg
  | Library e => str e
  end.

(** [a // b] on integers that are not negative. *)
Definition floordiv (a b : nat) : exception + nat :=
  if b =? 0 then inl (ZeroDivisionError "integer division or modulo by zero")
  else inr (a / b).

(** [int(np.sqrt(n))]: the square root is correctly rounded, so on sizes
    below [2^52] its integer part is the integer square root. *)
Definition int_sqrt (n : nat) : nat := Nat.sqrt n.

(** [a.reshape((h, w))] *)
Definition reshape (a : ndarray) (h w : nat) : exception + ndarray :=
  if len (items a) =? h * w then
    inr {| shape := [h; w]; items := items a |}
  else
    inl (Library (ValueError
           ("cannot reshape array of size "
              ++ AES.string_of_nat (len (items a)) ++ " into shape ("
              ++ AES.string_of_nat h ++ "," ++ AES.string_of_nat w ++ ")")%string)).

(** The body of the [try] block. *)
Definition visualization_body (encrypted_data : bytes)
           (original_size : option (nat * nat)) : exception + PIL.Image :=
  let data_array := frombuffer encrypted_data in
  let target_size : exception + nat * nat :=
    match original_size with
    | Some original_size =>
        let total_pixels := len (items data_array) in
        if total_pixels <? fst original_size * snd original_size then
          let width := int_sqrt total_pixels in
          match floordiv total_pixels width with
          | inl e => inl e
          | inr height => inr (width, height)
          end
        else inr original_size
    | None =>
        let width := int_sqrt (len (items data_array)) in
        match floordiv (len (items data_array)) width with
        | inl e => inl e
        | inr height => inr (width, height)
        end
    end in
  match target_size with
  | inl e => inl e
  | inr target_size =>
      let sliced :=
        {| shape := [Nat.min (len (items data_array))
                             (fst target_size * snd target_size)];
           items := firstn (fst target_size * snd target_size)
                           (items data_array) |} in
      match reshape sliced (snd target_size) (fst target_size) with
      | inl e => inl e
      | inr reshaped_array =>
          inr (PIL.fromarray (snd target_size) (fst target_size)
                             (items reshaped_array) "L")
      end
  end.

Definition create_visualization_image (encrypted_data : bytes)
           (original_size : option (nat * nat)) : result PIL.Image :=
  match visualization_body encrypted_data original_size with
  | inr image => Return image
  | inl e =>
      Raise (CryptoError
               ("Failed to create visualization image: " ++ str_exception e)%string)
  end.

End visualization.

(* ================================================================== *)
(** * analysis.py: the histogram figure *)
(* ================================================================== *)

(** Counting the items of a list. *)
Module Counting.

(** The sum of a list of integers. *)
Definition total (zs : list Z) : Z := fold_right Z.add 0%Z zs.

(** A [float32] accumulator [x] that stands for the integer [z]: it is
    exact as long as the integer has at most 24 bits, and it is at least
    1 when the integer is. *)
Definition counts (x : NumPy.float) (z : Z) : Prop :=
  (0 <= z)%Z /\
  ((z <= 2 ^ 24)%Z -> x = NumPy.of_Z z) /\
  ((1 <= z)%Z -> NumPy.at_least 1 x).

(** The number of items of a list equal to [z]. *)
Definition occurrences (z : Z) (l : list Z) : nat := len (filter (Z.eqb z) l).

End Counting.

(** [matplotlib]: a figure as the data of its bar charts. *)
Module Matplotlib.

Record Axes : Type :=
  { bar_x : list nat;
    bar_height : list nat;
    bar_color : string;
    bar_alpha : Q;
    title : string;
    xlabel : string;
    ylabel : string }.

Record Figure : Type := { figsize : nat * nat; axes : list Axes }.

(** [ax.bar(x, height, color=, alpha=)]: the positions and the heights
    must have one length. *)
Definition bar (x height : list nat) (color : string) (alpha : Q)
  : result (list nat * list nat * string * Q) :=
  if len x =? len height then Return (x, height, color, alpha)
  else Raise (ValueError
                "shape mismatch: objects cannot be broadcast to a single shape").

End Matplotlib.

Module histogram.
Import NumPy Matplotlib.

(** One subplot of [generate_histogram_figure]: the bars over
    [range(256)], then the title and the labels. *)
Definition subplot (hist : list nat) (color title : string) : result Axes :=
  ('(x, height, color, alpha) <- bar (seq 0 256) hist color 0.7%Q ;;
   Return {| bar_x := x; bar_height := height; bar_color := color;
             bar_alpha := alpha; title := title;
             xlabel := "Pixel Value"; ylabel := "Frequency" |})%py.

Definition generate_histogram_figure (image_data encrypted_data : bytes)
  : result Figure :=
  try_except
    (let orig_hist := bincount (frombuffer image_data) 256 in
     ax1 <- subplot orig_hist "blue" "Original Image Histogram" ;;
     let enc_hist := bincount (frombuffer encrypted_data) 256 in
     ax2 <- subplot enc_hist "red" "Encrypted Image Histogram" ;;
     Return {| figsize := (10, 4); axes := [ax1; ax2] |})%py
    (fun e =>
       Raise (AnalysisError ("Histogram generation failed: " ++ str e)%string)).

End histogram.

(* ================================================================== *)
(** * main.py: what the three buttons compute *)
(* ================================================================== *)

(** The computations of [SecureImageEncryptor] between reading the input
    files and writing or showing the results; dialogs and files are left
    out. *)
Module main.
Import crypto_utils visualization analysis histogram.

Section Application.
Variable aes : AES.block_cipher.
Variable fn : NumPy.elementary.

(** [_process_image('encrypt')]: the bytes written to the [.enc] file and
    the visualization image. *)
Definition process_image_encrypt (image_data : bytes)
           (original_size : nat * nat) (password : unicode)
  : io (bytes * PIL.Image) :=
  ('(salt, iv, encrypted_data) <- encrypt_image aes image_data password ;;
   let combined_data := combine_encrypted_data salt iv encrypted_data in
   visual_img <- lift (create_visualization_image encrypted_data
                                                  (Some original_size)) ;;
   ret (combined_data, visual_img))%io.

(** [_process_image('decrypt')], up to the decrypted bytes that are then
    opened as an image. *)
Definition process_image_decrypt (encrypted_data : bytes) (password : unicode)
  : io bytes :=
  ('(salt, iv, ciphertext) <- lift (split_encrypted_data encrypted_data) ;;
   decrypt_image aes ciphertext salt iv password)%io.

(** [_analyze_encryption]: the results and the histogram handed to the
    display. *)
Definition analyze_encryption (original_data encrypted_data : bytes)
  : result (results * Matplotlib.Figure) :=
  ('(_, _, encrypted_data) <- split_encrypted_data encrypted_data ;;
   results <- analyze_encryption_strength fn original_data encrypted_data ;;
   histogram <- generate_histogram_figure original_data encrypted_data ;;
   Return (results, histogram))%py.
End Application.

End main.

(* ================================================================== *)
(** * Facts about bytes, the key derivation, the padding and the cipher *)
(* ================================================================== *)

Module BytesFacts.
Import Bytes.

Lemma to_Z_range (b : byte) : (0 <= to_Z b < 256)%Z.
Proof.
  unfold to_Z. pose proof (Byte.to_N_bounded b). lia.
Qed.

Lemma of_to_Z (b : byte) : of_Z (to_Z b) = b.
Proof.
  unfold of_Z. rewrite Z.mod_small by apply to_Z_range.
  unfold to_Z. rewrite N2Z.id, Byte.of_to_N. reflexivity.
Qed.

Lemma to_of_Z (z : Z) : (0 <= z < 256)%Z -> to_Z (of_Z z) = z.
Proof.
  intros Hz. unfold of_Z, to_Z. rewrite Z.mod_small by exact Hz.
  destruct (Byte.of_N (Z.to_N z)) as [b|] eqn:E.
  - apply Byte.to_of_N in E. rewrite E. lia.
  - apply Byte.of_N_None_iff in E. lia.
Qed.

Lemma lxor_range (a b : Z) :
  (0 <= a < 256)%Z -> (0 <= b < 256)%Z -> (0 <= Z.lxor a b < 256)%Z.
Proof.
  intros Ha Hb.
  assert (Hn : (0 <= Z.lxor a b)%Z) by (apply Z.lxor_nonneg; lia).
  split; [exact Hn|].
  destruct (Z.eq_dec (Z.lxor a b) 0) as [E|E]; [lia|].
  change 256%Z with (2 ^ 8)%Z. apply Z.log2_lt_pow2; [lia|].
  eapply Z.le_lt_trans; [apply Z.log2_lxor; lia|].
  apply Z.max_lub_lt.
  - destruct (Z.eq_dec a 0) as [->|]; [simpl; lia|].
    apply Z.log2_lt_pow2; lia.
  - destruct (Z.eq_dec b 0) as [->|]; [simpl; lia|].
    apply Z.log2_lt_pow2; lia.
Qed.

Lemma xor_cancel (a b : byte) : xor (xor a b) b = a.
Proof.
  unfold xor.
  rewrite to_of_Z by (apply lxor_range; apply to_Z_range).
  rewrite Z.lxor_assoc, Z.lxor_nilpotent, Z.lxor_0_r.
  apply of_to_Z.
Qed.

Lemma strxor_length (xs ys : bytes) :
  len xs = len ys -> len (strxor xs ys) = len xs.
Proof.
  revert ys. induction xs as [|x xs IH]; intros [|y ys] H; simpl in *;
    try discriminate; auto.
Qed.

Lemma strxor_cancel (xs ys : bytes) :
  len xs = len ys -> strxor (strxor xs ys) ys = xs.
Proof.
  revert ys. induction xs as [|x xs IH]; intros [|y ys] H; simpl in *;
    try discriminate; auto.
  rewrite xor_cancel, IH by lia. reflexivity.
Qed.

Lemma eqb_refl (xs : bytes) : eqb xs xs = true.
Proof.
  unfold eqb. destruct (list_eq_dec byte_eq_dec xs xs); congruence.
Qed.

End BytesFacts.

Module KDFFacts.

Lemma sha256_length (msg : bytes) : len (SHA256.digest msg) = 32.
Proof. reflexivity. Qed.

Lemma hmac_length (key msg : bytes) : len (HMAC.digest key msg) = 32.
Proof. apply sha256_length. Qed.

Lemma block_length (password salt : bytes) (count : Z) (i : nat) :
  len (KDF.block password salt count i) = 32.
Proof.
  unfold KDF.block.
  set (d := HMAC.digest password _).
  assert (H : len (fst (d, d)) = 32 /\ len (snd (d, d)) = 32)
    by (split; apply hmac_length).
  revert H. generalize (d, d). generalize (Z.to_N count - 1)%N.
  intros n. induction n as [|n IH] using N.peano_ind; intros st H.
  - simpl. tauto.
  - rewrite N.iter_succ.
    assert (H' := IH st H).
    unfold KDF.link at 1. simpl.
    rewrite BytesFacts.strxor_length; [exact H'|].
    rewrite hmac_length. exact H'.
Qed.

(** With a positive iteration count the derivation of 32 bytes returns,
    and the key has 32 bytes. *)
Lemma PBKDF2_32 (password salt : bytes) (count : Z) :
  (0 < count)%Z ->
  exists key, KDF.PBKDF2 password salt 32 count = Return key /\ len key = 32.
Proof.
  intros Hc. unfold KDF.PBKDF2.
  change ((32 + SHA256.digest_size - 1) / SHA256.digest_size) with 1.
  replace (count <=? 0)%Z with false by (symmetry; apply Z.leb_gt; exact Hc).
  cbn [Nat.ltb Nat.leb andb seq map concat].
  eexists; split; [reflexivity|].
  rewrite app_nil_r, firstn_all2 by (rewrite block_length; lia).
  apply block_length.
Qed.

End KDFFacts.

Module PaddingFacts.
Import Padding.

Lemma bchr_small (n : nat) :
  n <= 255 -> exists b, bchr n = Return b /\ Byte.to_nat b = n.
Proof.
  intros Hn. unfold bchr.
  destruct (Byte.of_nat n) as [b|] eqn:E.
  - exists b. split; [reflexivity|].
    rewrite Byte.of_nat_via_N in E. apply Byte.to_of_N in E.
    rewrite Byte.to_nat_via_N, E. lia.
  - rewrite Byte.of_nat_via_N in E. apply Byte.of_N_None_iff in E. lia.
Qed.

Lemma padding_len_range (data : bytes) : 1 <= padding_len data <= 16.
Proof.
  unfold padding_len. pose proof (Nat.mod_upper_bound (len data) 16). lia.
Qed.

Lemma padded_length (data : bytes) :
  len data + padding_len data = 16 * (len data / 16 + 1).
Proof.
  unfold padding_len.
  pose proof (Nat.div_mod_eq (len data) 16).
  pose proof (Nat.mod_upper_bound (len data) 16). lia.
Qed.

Lemma pad_16 (data : bytes) :
  exists b, Byte.to_nat b = padding_len data /\
            pad data 16 = Return (data ++ repeat b (padding_len data)).
Proof.
  unfold pad. fold (padding_len data).
  destruct (@bchr_small (padding_len data)) as (b & Hb & Hn).
  { pose proof (padding_len_range data). lia. }
  exists b. rewrite Hb. simpl. auto.
Qed.

Lemma pad_16_length (data padded : bytes) :
  pad data 16 = Return padded -> len padded = 16 * (len data / 16 + 1).
Proof.
  destruct (pad_16 data) as (b & _ & ->). intros [= <-].
  rewrite length_app, repeat_length. apply padded_length.
Qed.

Lemma unpad_pad (data padded : bytes) :
  pad data 16 = Return padded -> unpad padded 16 = Return data.
Proof.
  destruct (pad_16 data) as (b & Hb & ->). intros [= <-].
  pose proof (padding_len_range data) as Hr.
  pose proof (padded_length data) as Hl.
  set (n := padding_len data) in *.
  assert (Hlen : len (data ++ repeat b n) = len data + n)
    by (rewrite length_app, repeat_length; reflexivity).
  unfold unpad. rewrite Hlen.
  replace (len data + n =? 0) with false by (symmetry; apply Nat.eqb_neq; lia).
  replace ((len data + n) mod 16 =? 0) with true.
  2:{ symmetry. apply Nat.eqb_eq. rewrite Hl.
      rewrite Nat.mul_comm. apply Nat.Div0.mod_mul. }
  cbn [negb].
  assert (Hlast : last (data ++ repeat b n) x00 = b).
  { destruct n as [|m]; [lia|].
    replace (S m) with (m + 1) by lia.
    rewrite repeat_app, app_assoc. simpl. apply last_last. }
  rewrite Hlast, Hb.
  replace (n <? 1) with false by (symmetry; apply Nat.ltb_ge; lia).
  replace (Nat.min 16 (len data + n) <? n) with false
    by (symmetry; apply Nat.ltb_ge; lia).
  cbn [orb].
  destruct (@bchr_small n) as (b' & Hb' & Hn'); [lia|].
  rewrite Hb'. cbn [bind].
  assert (b' = b) as ->.
  { pose proof (Byte.of_to_nat b) as E1. pose proof (Byte.of_to_nat b') as E2.
    rewrite Hb in E1. rewrite Hn' in E2. congruence. }
  unfold Bytes.take_last, Bytes.drop_last. rewrite Hlen.
  replace (len data + n - n) with (len data) by lia.
  rewrite skipn_app, skipn_all, Nat.sub_diag. simpl.
  rewrite BytesFacts.eqb_refl. cbn [negb].
  rewrite firstn_app, firstn_all, Nat.sub_diag. simpl.
  rewrite app_nil_r. reflexivity.
Qed.

End PaddingFacts.

Module CipherFacts.
Import crypto_utils.

Lemma urandom_length (n : nat) (s : os_state) : len (fst (urandom n s)) = n.
Proof. unfold urandom. simpl. rewrite length_map, length_seq. reflexivity. Qed.

Lemma default_iterations_pos : (0 < default_iterations)%Z.
Proof. reflexivity. Qed.

Lemma not_password_false (password : unicode) :
  password <> [] -> not_password password = false.
Proof. destruct password; [congruence|reflexivity]. Qed.

Lemma not_salt_false (salt : bytes) : salt <> [] -> not_salt (Some salt) = false.
Proof. destruct salt; [congruence|reflexivity]. Qed.

(** [derive_key] with a salt that is not empty: no entropy is drawn and
    the outcome is that of PBKDF2 on the given salt. *)
Lemma derive_key_given (password : unicode) (salt : bytes) (iterations : Z)
      (s : os_state) :
  password <> [] -> salt <> [] ->
  derive_key password (Some salt) iterations s =
    (match (encoded <- encode password ;;
            KDF.PBKDF2 encoded salt 32 iterations)%py with
     | Return key => Return (key, salt)
     | Raise e => Raise (CryptoError ("Key derivation failed: " ++ str e)%string)
     end, s).
Proof.
  intros Hp Hs. unfold derive_key, io_bind, io_try, ret, lift, raise.
  rewrite (not_salt_false Hs), (not_password_false Hp).
  destruct (encode password) as [e|encoded]; cbn [bind]; [reflexivity|].
  destruct (KDF.PBKDF2 _ _ _ _); reflexivity.
Qed.

(** [derive_key] without a usable salt: sixteen bytes are drawn and used. *)
Lemma derive_key_fresh (password : unicode) (salt : option bytes)
      (iterations : Z) (s : os_state) :
  password <> [] -> not_salt salt = true ->
  derive_key password salt iterations s =
    (match (encoded <- encode password ;;
            KDF.PBKDF2 encoded (fst (urandom 16 s)) 32 iterations)%py with
     | Return key => Return (key, fst (urandom 16 s))
     | Raise e => Raise (CryptoError ("Key derivation failed: " ++ str e)%string)
     end, snd (urandom 16 s)).
Proof.
  intros Hp Hs. unfold derive_key, io_bind, io_try, ret, lift, raise, os_urandom.
  rewrite Hs, (not_password_false Hp).
  destruct (urandom 16 s) as [r s']. cbn [fst snd].
  destruct (encode password) as [e|encoded]; cbn [bind]; [reflexivity|].
  destruct (KDF.PBKDF2 _ _ _ _); reflexivity.
Qed.

Lemma AES_new_ok (k v : bytes) :
  len k = 32 -> len v = 16 -> AES.new k v = Return {| AES.key := k; AES.iv := v |}.
Proof.
  intros Hk Hv. unfold AES.new. rewrite Hk, Hv. reflexivity.
Qed.

Section BlockCipher.
Variable aes : AES.block_cipher.
Hypothesis aes_ok : AES.block_cipher_correct aes.

Lemma cbc_encrypt_length (n : nat) (k prev data : bytes) :
  len k = 32 -> len prev = 16 -> len data = 16 * n ->
  len (AES.cbc_encrypt aes n k prev data) = 16 * n.
Proof.
  intros Hk. revert prev data.
  induction n as [|n IH]; intros prev data Hp Hd; [reflexivity|].
  cbn [AES.cbc_encrypt]. unfold AES.block_size.
  assert (Hb : len (Bytes.strxor (firstn 16 data) prev) = 16).
  { rewrite BytesFacts.strxor_length; rewrite length_firstn; lia. }
  destruct (aes_ok _ _ Hk Hb) as [Hl _]. unfold AES.block_size in Hl.
  rewrite length_app, Hl, IH; [lia|exact Hl|].
  rewrite length_skipn. lia.
Qed.

Lemma cbc_decrypt_encrypt (n : nat) (k prev data : bytes) :
  len k = 32 -> len prev = 16 -> len data = 16 * n ->
  AES.cbc_decrypt aes n k prev (AES.cbc_encrypt aes n k prev data) = data.
Proof.
  intros Hk. revert prev data.
  induction n as [|n IH]; intros prev data Hp Hd.
  - destruct data; [reflexivity|discriminate].
  - cbn [AES.cbc_encrypt AES.cbc_decrypt]. unfold AES.block_size.
    assert (Hf : len (firstn 16 data) = 16) by (rewrite length_firstn; lia).
    assert (Hb : len (Bytes.strxor (firstn 16 data) prev) = 16).
    { rewrite BytesFacts.strxor_length; lia. }
    destruct (aes_ok _ _ Hk Hb) as [Hl Hinv]. unfold AES.block_size in Hl.
    set (c := AES.encrypt_block aes k _) in *.
    rewrite firstn_app, firstn_all2, Hl, Nat.sub_diag by lia.
    rewrite firstn_O, app_nil_r.
    rewrite skipn_app, skipn_all2, Hl, Nat.sub_diag by lia.
    rewrite skipn_O, app_nil_l.
    rewrite Hinv, BytesFacts.strxor_cancel by lia.
    rewrite IH; [apply firstn_skipn|exact Hl|].
    rewrite length_skipn. lia.
Qed.

(** What [encrypt_image] returns on a non-empty password that can be
    encoded: the salt and the IV are the next 32 bytes of the entropy
    source, the ciphertext is the CBC encryption of the padded image under
    the derived key. *)
Lemma encrypt_image_returns (image_data : bytes) (password : unicode)
      (encoded : bytes) (s : os_state) :
  password <> [] -> encode password = Return encoded ->
  let salt := fst (urandom 16 s) in
  let s1 := snd (urandom 16 s) in
  let iv := fst (urandom 16 s1) in
  exists key padded,
    KDF.PBKDF2 encoded salt 32 default_iterations = Return key /\
    len key = 32 /\
    Padding.pad image_data 16 = Return padded /\
    len padded = 16 * (len image_data / 16 + 1) /\
    encrypt_image aes image_data password s =
      (Return (salt, iv,
               AES.cbc_encrypt aes (len image_data / 16 + 1) key iv padded),
       snd (urandom 16 s1)).
Proof.
  intros Hp Henc salt s1 iv.
  destruct (KDFFacts.PBKDF2_32 encoded salt default_iterations_pos)
    as (key & Hkey & Hklen).
  destruct (PaddingFacts.pad_16 image_data) as (b & Hb & Hpad).
  pose proof (PaddingFacts.pad_16_length _ Hpad) as Hplen.
  exists key, (image_data ++ repeat b (Padding.padding_len image_data)).
  repeat split; try assumption.
  unfold encrypt_image, io_try, io_bind.
  rewrite derive_key_fresh by (assumption || reflexivity).
  fold salt s1. rewrite Henc. cbn [bind]. rewrite Hkey.
  unfold os_urandom. destruct (urandom 16 s1) as [iv' s2] eqn:E.
  assert (Hiv : len iv' = 16).
  { pose proof (urandom_length 16 s1) as H. rewrite E in H. exact H. }
  subst iv. cbn [fst snd lift ret].
  rewrite AES_new_ok by assumption. unfold AES.block_size at 1. rewrite Hpad.
  unfold AES.encrypt. cbn [AES.key AES.iv]. unfold AES.block_size.
  rewrite Hplen.
  replace ((16 * (len image_data / 16 + 1)) mod 16) with 0
    by (symmetry; rewrite Nat.mul_comm; apply Nat.Div0.mod_mul).
  replace (16 * (len image_data / 16 + 1) / 16) with (len image_data / 16 + 1)
    by (symmetry; rewrite Nat.mul_comm; apply Nat.div_mul; lia).
  reflexivity.
Qed.

(** [decrypt_image] undoes the CBC encryption of a padded image when it
    is given the salt the key was derived from. *)
Lemma decrypt_image_returns (image_data padded key salt iv encoded : bytes)
      (password : unicode) (n : nat) (s : os_state) :
  password <> [] -> salt <> [] -> encode password = Return encoded ->
  KDF.PBKDF2 encoded salt 32 default_iterations = Return key ->
  len key = 32 -> len iv = 16 ->
  Padding.pad image_data 16 = Return padded -> len padded = 16 * n ->
  decrypt_image aes (AES.cbc_encrypt aes n key iv padded) salt iv password s
    = (Return image_data, s).
Proof.
  intros Hp Hs Henc Hkey Hklen Hiv Hpad Hplen.
  unfold decrypt_image, io_try, io_bind.
  rewrite derive_key_given by assumption. rewrite Henc. cbn [bind].
  rewrite Hkey.
  cbn [lift ret]. rewrite AES_new_ok by assumption.
  unfold AES.decrypt. cbn [AES.key AES.iv]. unfold AES.block_size.
  rewrite cbc_encrypt_length by assumption.
  replace ((16 * n) mod 16) with 0
    by (symmetry; rewrite Nat.mul_comm; apply Nat.Div0.mod_mul).
  replace (16 * n / 16) with n
    by (symmetry; rewrite Nat.mul_comm; apply Nat.div_mul; lia).
  cbn [Nat.eqb negb].
  rewrite cbc_decrypt_encrypt by assumption.
  rewrite (PaddingFacts.unpad_pad _ Hpad). reflexivity.
Qed.
End BlockCipher.

(** A password that cannot be encoded: the error of the codec is wrapped
    by [derive_key], and wrapped again by the caller; [encrypt_image] has
    drawn the salt by then, [decrypt_image] nothing. *)
Lemma encrypt_image_unencodable (aes : AES.block_cipher) (image_data : bytes)
      (password : unicode) (e : exn) (s : os_state) :
  password <> [] -> encode password = Raise e ->
  encrypt_image aes image_data password s
  = (Raise (CryptoError
              ("Encryption failed: Key derivation failed: " ++ str e)%string),
     snd (urandom 16 s)).
Proof.
  intros Hp He. unfold encrypt_image, io_try, io_bind.
  rewrite derive_key_fresh by (assumption || reflexivity).
  rewrite He. reflexivity.
Qed.

Lemma decrypt_image_unencodable (aes : AES.block_cipher)
      (encrypted_data salt iv : bytes) (password : unicode) (e : exn)
      (s : os_state) :
  password <> [] -> salt <> [] -> encode password = Raise e ->
  decrypt_image aes encrypted_data salt iv password s
  = (Raise (CryptoError
              ("Decryption failed: Key derivation failed: " ++ str e)%string),
     s).
Proof.
  intros Hp Hs He. unfold decrypt_image, io_try, io_bind.
  rewrite derive_key_given by assumption.
  rewrite He. reflexivity.
Qed.

(** The codec raises exactly on the strings that hold a surrogate. *)
Lemma first_surrogate_none (s : unicode) (start : nat) :
  UTF8.first_surrogate s start = None
  <-> Forall (fun c => UTF8.is_surrogate c = false) s.
Proof.
  revert start. induction s as [|c s IH]; intros start; cbn [UTF8.first_surrogate].
  - split; [constructor|reflexivity].
  - destruct (UTF8.is_surrogate c) eqn:E.
    + split; [discriminate|]. intros H. inversion H; congruence.
    + rewrite IH. split; [constructor; assumption|].
      intros H. inversion H; assumption.
Qed.

Lemma encode_returns (password : unicode) :
  Forall (fun c => UTF8.is_surrogate c = false) password ->
  encode password = Return (concat (map UTF8.encode_char password)).
Proof.
  intros H. unfold encode, UTF8.encode.
  apply (first_surrogate_none password 0) in H. rewrite H. reflexivity.
Qed.

Lemma encode_raises (password : unicode) :
  raises (encode password) = true
  <-> Exists (fun c => UTF8.is_surrogate c = true) password.
Proof.
  unfold encode, UTF8.encode.
  destruct (UTF8.first_surrogate password 0) as [[[start c] stop]|] eqn:E;
    cbn [raises].
  - split; [intros _|reflexivity].
    apply Exists_exists.
    assert (H : ~ Forall (fun c => UTF8.is_surrogate c = false) password).
    { intros H. apply (first_surrogate_none password 0) in H. congruence. }
    apply neg_Forall_Exists_neg in H.
    + apply Exists_exists in H. destruct H as (x & Hin & Hx).
      exists x. split; [exact Hin|]. destruct (UTF8.is_surrogate x); congruence.
    + intros x. destruct (UTF8.is_surrogate x); [right|left]; congruence.
  - split; [discriminate|]. intros H.
    apply (first_surrogate_none password 0) in E.
    apply Exists_exists in H. destruct H as (x & Hin & Hx).
    rewrite Forall_forall in E. specialize (E x Hin). congruence.
Qed.

End CipherFacts.

(* ================================================================== *)
(** * Facts about the floating-point values *)
(* ================================================================== *)

Module FloatFacts.
Import NumPy.



(** A comparison with NaN is false. *)
Lemma flt_nan_l (y : float) : flt NaN y = false.
Proof. reflexivity. Qed.


Lemma fle_nan_l (y : float) : fle NaN y = false.
Proof. reflexivity. Qed.


(** Arithmetic with NaN gives NaN. *)
Lemma fadd_nan_l (y : float) : fadd NaN y = NaN.
Proof. reflexivity. Qed.

Lemma fadd_nan_r (x : float) : fadd x NaN = NaN.
Proof. destruct x; reflexivity. Qed.

Lemma fdiv_nan_l (y : float) : fdiv NaN y = NaN.
Proof. reflexivity. Qed.

End FloatFacts.

Module AnalysisFacts.
Import NumPy analysis FloatFacts.

(** The correlation of two empty samples is NaN: the mean of nothing is
    [0/0], and the covariances are [0 * (1/0)]. *)
Lemma corrcoef_empty (fn : elementary) : corrcoef fn [] [] = Return NaN.
Proof. reflexivity. Qed.

Lemma rows_column_short (h : nat) (xs : list float) :
  Forall (fun row => len row <= 1) (rows h 1 xs).
Proof.
  unfold rows. apply Forall_forall. intros row Hin.
  apply in_map_iff in Hin. destruct Hin as (i & <- & _).
  apply firstn_le_length.
Qed.

Lemma Forall_removelast {A} (P : A -> Prop) (l : list A) :
  Forall P l -> Forall P (removelast l).
Proof.
  intros H. apply Forall_forall. intros x Hx.
  rewrite Forall_forall in H. apply H.
  destruct l as [|a l]; [contradiction|].
  rewrite (app_removelast_last a (l := a :: l)) by discriminate.
  apply in_or_app. left. exact Hx.
Qed.

Lemma Forall_tl {A} (P : A -> Prop) (l : list A) :
  Forall P l -> Forall P (tl l).
Proof. intros H. destruct H; [constructor|assumption]. Qed.

(** Dropping the last column, or the first, of rows of at most one item
    leaves nothing. *)
Lemma concat_removelast_short {A} (rs : list (list A)) :
  Forall (fun row => len row <= 1) rs -> concat (map (@removelast A) rs) = [].
Proof.
  induction 1 as [|row rs Hrow _ IH]; [reflexivity|].
  simpl. rewrite IH.
  destruct row as [|a [|b row]]; simpl in *; [reflexivity|reflexivity|lia].
Qed.

Lemma concat_tl_short {A} (rs : list (list A)) :
  Forall (fun row => len row <= 1) rs -> concat (map (@tl A) rs) = [].
Proof.
  induction 1 as [|row rs Hrow _ IH]; [reflexivity|].
  simpl. rewrite IH.
  destruct row as [|a [|b row]]; simpl in *; [reflexivity|reflexivity|lia].
Qed.

(** On an array of a single column the horizontal and the diagonal
    coefficients are NaN. *)
Lemma column_correlation (fn : elementary) (image : ndarray) (h : nat)
      (c : correlations) :
  shape image = [h; 1] ->
  calculate_correlation fn image = Return c ->
  horizontal c = NaN /\ diagonal c = NaN.
Proof.
  intros Hshape. unfold calculate_correlation. rewrite Hshape.
  cbn [try_except bind].
  set (image_rows := rows h 1 (map of_Z (items image))).
  assert (Hshort : Forall (fun row => len row <= 1) image_rows)
    by apply rows_column_short.
  unfold calculate_direction_correlation.
  rewrite (concat_removelast_short Hshort), (concat_tl_short Hshort).
  rewrite (concat_removelast_short (Forall_removelast Hshort)).
  rewrite (concat_tl_short (Forall_tl Hshort)).
  rewrite corrcoef_empty. cbn [bind].
  destruct (corrcoef fn _ _) as [e|ver]; cbn [bind try_except].
  - discriminate.
  - intros [= <-]. split; reflexivity.
Qed.

(** A run of [analyze_encryption_strength] that returns, step by step. *)
Lemma analyze_inversion (fn : elementary) (original_data encrypted_data : bytes)
      (r : results) :
  analyze_encryption_strength fn original_data encrypted_data = Return r ->
  exists entropy c m,
    calculate_entropy fn encrypted_data = Return entropy /\
    calculate_correlation fn (reshape_column (frombuffer encrypted_data))
    = Return c /\
    calculate_npcr_uaci (reshape_column (frombuffer original_data))
                        (reshape_column (frombuffer encrypted_data))
    = Return m /\
    r = {| r_entropy := entropy;
           r_correlations := c;
           r_npcr := npcr m;
           r_uaci := uaci m;
           r_verdict :=
             verdict (strength_score entropy (avg_correlation c) (npcr m)) |}.
Proof.
  unfold analyze_encryption_strength.
  destruct (calculate_entropy fn encrypted_data) as [e|entropy];
    [discriminate|].
  cbn [bind].
  destruct (calculate_correlation fn _) as [e|c]; [discriminate|].
  cbn [bind].
  destruct (calculate_npcr_uaci _ _) as [e|m]; [discriminate|].
  cbn [bind try_except]. intros [= <-].
  exists entropy, c, m. auto.
Qed.

(** The mean of absolute values is NaN as soon as the first is. *)
Lemma avg_correlation_nan (c : correlations) :
  horizontal c = NaN -> avg_correlation c = NaN.
Proof.
  intros H. unfold avg_correlation, values, mean, fsum. rewrite H.
  cbn [map fold_left fabs].
  rewrite fadd_nan_r, !fadd_nan_l. reflexivity.
Qed.

(** Without the correlation points the score is at most 4. *)
Lemma strength_score_nan (entropy npcr : float) :
  strength_score entropy NaN npcr <= 4.
Proof.
  unfold strength_score. rewrite !flt_nan_l.
  destruct (fgt entropy (Fin 7.9)), (fgt entropy (Fin 7.5)),
    (fgt npcr (Fin 99)), (fgt npcr (Fin 90)); simpl; lia.
Qed.

Lemma verdict_low (score : nat) :
  score <= 4 ->
  (verdict score = "Moderate"%string \/ verdict score = "Weak"%string) /\
  verdict score <> "Strong"%string.
Proof.
  intros H. unfold verdict.
  replace (5 <=? score) with false by (symmetry; apply Nat.leb_gt; lia).
  destruct (3 <=? score); split; auto; discriminate.
Qed.

End AnalysisFacts.

Module ChangeRateFacts.
Import NumPy analysis FloatFacts.

(** An integer is a rational in lowest terms. *)
Lemma Qred_inject_Z (z : Z) : Qred (inject_Z z) = inject_Z z.
Proof.
  unfold Qred, inject_Z.
  pose proof (Z.ggcd_gcd z 1) as Hg.
  pose proof (Z.ggcd_correct_divisors z 1) as Hd.
  destruct (Z.ggcd z 1) as (g, (a, b)). simpl in *.
  rewrite Z.gcd_1_r in Hg. subst g. destruct Hd as [Ha Hb].
  replace a with z by lia. replace b with 1%Z by lia. reflexivity.
Qed.

Lemma fin_eq (p q : Q) : (p == q)%Q -> fin p = fin q.
Proof. intros H. unfold fin. f_equal. apply Qred_complete. exact H. Qed.

Lemma fin_inject_Z (z : Z) : fin (inject_Z z) = of_Z z.
Proof. unfold fin, of_Z. f_equal. apply Qred_inject_Z. Qed.

Lemma fadd_of_Z (a b : Z) : fadd (of_Z a) (of_Z b) = of_Z (a + b).
Proof.
  unfold of_Z at 1 2. cbn [fadd]. rewrite <- fin_inject_Z.
  apply fin_eq. rewrite inject_Z_plus. reflexivity.
Qed.

Lemma fsub_of_Z (a b : Z) : fsub (of_Z a) (of_Z b) = of_Z (a - b).
Proof.
  unfold fsub, of_Z at 2. cbn [fneg].
  rewrite <- inject_Z_opp, fin_inject_Z, fadd_of_Z. reflexivity.
Qed.

Lemma fabs_of_Z (a : Z) : fabs (of_Z a) = of_Z (Z.abs a).
Proof.
  unfold of_Z at 1. cbn [fabs]. rewrite <- fin_inject_Z.
  apply fin_eq. unfold inject_Z. symmetry. apply Zabs_Qabs.
Qed.

Lemma Qzero_iff (q : Q) : Qzero q = true <-> (q == 0)%Q.
Proof.
  unfold Qzero, Qeq. simpl. rewrite Z.eqb_eq. lia.
Qed.

Lemma Qzero_false (q : Q) : ~ (q == 0)%Q -> Qzero q = false.
Proof.
  intros H. destruct (Qzero q) eqn:E; [|reflexivity].
  apply Qzero_iff in E. contradiction.
Qed.

Lemma Qnat_nonzero (n : nat) : n <> 0 -> ~ (ChangeRates.Qnat n == 0)%Q.
Proof.
  intros Hn. unfold ChangeRates.Qnat, Qeq. simpl. lia.
Qed.

(** A quotient of finite values with a divisor that is not zero. *)
Lemma fdiv_fin (p q : Q) :
  ~ (q == 0)%Q -> fdiv (fin p) (fin q) = fin (p / q).
Proof.
  intros Hq. unfold fin at 1 2. cbn [fdiv].
  rewrite Qzero_false by (rewrite Qred_correct; exact Hq).
  apply fin_eq. rewrite !Qred_correct. reflexivity.
Qed.

Lemma fmul_fin (p q : Q) : fmul (fin p) (fin q) = fin (p * q).
Proof.
  unfold fin at 1 2. cbn [fmul]. apply fin_eq. rewrite !Qred_correct.
  reflexivity.
Qed.

Lemma Fin_as_fin (z : Z) : Fin (inject_Z z) = fin (inject_Z z).
Proof. symmetry. apply fin_inject_Z. Qed.

Lemma shape_eqb_true (s t : list nat) : s = t -> shape_eqb s t = true.
Proof.
  intros ->. unfold shape_eqb. destruct (list_eq_dec Nat.eq_dec t t); congruence.
Qed.

Lemma shape_eqb_false (s t : list nat) : s <> t -> shape_eqb s t = false.
Proof.
  intros H. unfold shape_eqb. destruct (list_eq_dec Nat.eq_dec s t); congruence.
Qed.

Lemma count_diff_same (xs : list Z) : ChangeRates.count_diff xs xs = 0.
Proof.
  unfold ChangeRates.count_diff. induction xs as [|x xs IH]; [reflexivity|].
  cbn [combine filter fst snd]. rewrite Z.eqb_refl. exact IH.
Qed.

Lemma sum_abs_diff_same (xs : list Z) : ChangeRates.sum_abs_diff xs xs = 0%Z.
Proof.
  unfold ChangeRates.sum_abs_diff. induction xs as [|x xs IH]; [reflexivity|].
  cbn [combine map fold_right fst snd]. rewrite IH, Z.sub_diag. reflexivity.
Qed.

End ChangeRateFacts.

(* ================================================================== *)
(** * Facts about rounding *)
(* ================================================================== *)

Module RoundingFacts.
Import NumPy.
Open Scope Q_scope.

Lemma pow2_pos (k : Z) : 0 < pow2 k.
Proof. apply Qpower_0_lt. reflexivity. Qed.

Lemma pow2_add (a b : Z) : pow2 (a + b) == pow2 a * pow2 b.
Proof. apply Qpower_plus. discriminate. Qed.

Lemma pow2_sub (a b : Z) : pow2 (a - b) == pow2 a / pow2 b.
Proof. apply Qpower_minus. discriminate. Qed.

Lemma pow2_succ (a : Z) : pow2 (a + 1) == 2 * pow2 a.
Proof. rewrite pow2_add. unfold pow2 at 2. rewrite Qpower_1_r. ring. Qed.

Lemma pow2_le (a b : Z) : (a <= b)%Z -> pow2 a <= pow2 b.
Proof. intros H. apply Qpower_le_compat_l; [exact H|discriminate]. Qed.

Lemma pow2_lt (a b : Z) : (a < b)%Z -> pow2 a < pow2 b.
Proof. intros H. apply Qpower_lt_compat_l; [exact H|reflexivity]. Qed.

Lemma pow2_lt_inv (a b : Z) : pow2 a < pow2 b -> (a < b)%Z.
Proof. intros H. apply (Qpower_lt_compat_l_inv 2); [exact H|reflexivity]. Qed.

Lemma pow2_Z (k : Z) : (0 <= k)%Z -> inject_Z (2 ^ k) == pow2 k.
Proof. intros H. apply Zpower_Qpower. exact H. Qed.

Lemma inject_Z_pos (z : Z) : (0 < z)%Z -> 0 < inject_Z z.
Proof. intros H. change 0 with (inject_Z 0). rewrite <- Zlt_Qlt. exact H. Qed.

Lemma Q_as_fraction (x : Q) :
  x == inject_Z (Qnum x) / inject_Z (Z.pos (Qden x)).
Proof.
  destruct x as [n d]. cbn [Qnum Qden].
  unfold Qeq, Qdiv, Qmult, Qinv, inject_Z. simpl. lia.
Qed.

(** [ilog2 x] is the exponent of the binade of [x]. *)
Lemma ilog2_spec (x : Q) :
  0 < x -> pow2 (ilog2 x) <= x /\ x < pow2 (ilog2 x + 1).
Proof.
  intros Hx. unfold ilog2.
  assert (Hn : (0 < Qnum x)%Z).
  { destruct x as [n d]. unfold Qlt in Hx. simpl in *. lia. }
  set (n := Qnum x) in *. set (d := Z.pos (Qden x)).
  assert (Hd : (0 < d)%Z) by reflexivity.
  destruct (Z.log2_spec n Hn) as [Ha1 Ha2].
  destruct (Z.log2_spec d Hd) as [Hb1 Hb2].
  set (a := Z.log2 n) in *. set (b := Z.log2 d) in *.
  assert (Ha0 : (0 <= a)%Z) by apply Z.log2_nonneg.
  assert (Hb0 : (0 <= b)%Z) by apply Z.log2_nonneg.
  assert (HN1 : pow2 a <= inject_Z n).
  { rewrite <- pow2_Z by exact Ha0. rewrite <- Zle_Qle. exact Ha1. }
  assert (HN2 : inject_Z n < 2 * pow2 a).
  { rewrite <- pow2_succ, <- pow2_Z by lia. rewrite <- Zlt_Qlt.
    replace (a + 1)%Z with (Z.succ a) by lia. exact Ha2. }
  assert (HD1 : pow2 b <= inject_Z d).
  { rewrite <- pow2_Z by exact Hb0. rewrite <- Zle_Qle. exact Hb1. }
  assert (HD2 : inject_Z d < 2 * pow2 b).
  { rewrite <- pow2_succ, <- pow2_Z by lia. rewrite <- Zlt_Qlt.
    replace (b + 1)%Z with (Z.succ b) by lia. exact Hb2. }
  pose proof (pow2_pos a) as Pa. pose proof (pow2_pos b) as Pb.
  assert (Hx' : x * inject_Z d == inject_Z n).
  { rewrite (Q_as_fraction x) at 1. fold n d. field. lra. }
  assert (Hab : pow2 (a - b) * pow2 b == pow2 a).
  { rewrite pow2_sub. field. lra. }
  destruct (Qle_bool (pow2 (a - b)) x) eqn:E.
  - apply Qle_bool_iff in E. split; [exact E|].
    rewrite pow2_succ.
    set (P := pow2 (a - b)) in *. set (A := pow2 a) in *.
    set (B := pow2 b) in *.
    set (N := inject_Z n) in *. set (D := inject_Z d) in *.
    nra.
  - assert (E' : x < pow2 (a - b)).
    { apply Qnot_le_lt. intros H. apply Qle_bool_iff in H. congruence. }
    replace (a - b - 1 + 1)%Z with (a - b)%Z by lia.
    split; [|exact E'].
    assert (Hs : pow2 (a - b) == 2 * pow2 (a - b - 1)).
    { rewrite <- pow2_succ.
      replace (a - b - 1 + 1)%Z with (a - b)%Z by lia. reflexivity. }
    set (P := pow2 (a - b)) in *. set (P' := pow2 (a - b - 1)) in *.
    set (A := pow2 a) in *. set (B := pow2 b) in *.
    set (N := inject_Z n) in *. set (D := inject_Z d) in *.
    nra.
Qed.

Lemma ilog2_unique (x : Q) (l : Z) :
  pow2 l <= x -> x < pow2 (l + 1) -> ilog2 x = l.
Proof.
  intros H1 H2.
  assert (Hx : 0 < x) by (pose proof (pow2_pos l); lra).
  destruct (ilog2_spec Hx) as [H3 H4].
  assert (Ha : pow2 l < pow2 (ilog2 x + 1)) by lra.
  assert (Hb : pow2 (ilog2 x) < pow2 (l + 1)) by lra.
  apply pow2_lt_inv in Ha, Hb. lia.
Qed.

Lemma ilog2_comp (x y : Q) : 0 < x -> x == y -> ilog2 x = ilog2 y.
Proof.
  intros Hx E. symmetry. destruct (ilog2_spec Hx) as [H1 H2].
  apply ilog2_unique; rewrite <- E; assumption.
Qed.

(** Rounding to the nearest integer. *)
Lemma rne_comp (x y : Q) : x == y -> rne x = rne y.
Proof.
  intros E. unfold rne. rewrite (Qfloor_comp _ _ E).
  assert (H : Qcompare (x - inject_Z (Qfloor y)) (1 # 2)
              = Qcompare (y - inject_Z (Qfloor y)) (1 # 2)).
  { apply Qcompare_comp; [rewrite E|]; reflexivity. }
  rewrite H. reflexivity.
Qed.

Lemma rne_cases (y : Q) :
  (rne y = Qfloor y /\ y - inject_Z (Qfloor y) <= 1 # 2) \/
  (rne y = (Qfloor y + 1)%Z /\ 1 # 2 <= y - inject_Z (Qfloor y)).
Proof.
  unfold rne.
  destruct (Qcompare_spec (y - inject_Z (Qfloor y)) (1 # 2)) as [E|E|E].
  - destruct (Z.even (Qfloor y)); [left|right]; split; (reflexivity || lra).
  - left. split; [reflexivity|lra].
  - right. split; [reflexivity|lra].
Qed.

Lemma floor_bounds (y : Q) :
  inject_Z (Qfloor y) <= y /\ y < inject_Z (Qfloor y) + 1.
Proof.
  split; [apply Qfloor_le|].
  pose proof (Qlt_floor y) as H. rewrite inject_Z_plus in H. exact H.
Qed.

Lemma rne_error (y : Q) :
  - (1 # 2) <= inject_Z (rne y) - y /\ inject_Z (rne y) - y <= 1 # 2.
Proof.
  destruct (floor_bounds y) as [H1 H2].
  destruct (rne_cases y) as [[-> H]|[-> H]].
  - lra.
  - rewrite inject_Z_plus. change (inject_Z 1) with 1. lra.
Qed.

Lemma rne_ge (y : Q) (k : Z) : inject_Z k <= y -> (k <= rne y)%Z.
Proof.
  intros H. destruct (floor_bounds y) as [H1 H2].
  assert (Hk : (k <= Qfloor y)%Z).
  { apply Z.lt_succ_r. rewrite Zlt_Qlt. unfold Z.succ.
    rewrite inject_Z_plus. change (inject_Z 1) with 1. lra. }
  destruct (rne_cases y) as [[-> _]|[-> _]]; lia.
Qed.

Lemma rne_le (y : Q) (k : Z) : y <= inject_Z k -> (rne y <= k)%Z.
Proof.
  intros H. destruct (floor_bounds y) as [H1 H2].
  destruct (rne_cases y) as [[-> _]|[-> Hh]].
  - rewrite Zle_Qle. lra.
  - assert (Hlt : inject_Z (Qfloor y) < inject_Z k) by lra.
    rewrite <- Zlt_Qlt in Hlt. lia.
Qed.

Lemma rne_Z (k : Z) (y : Q) : y == inject_Z k -> rne y = k.
Proof.
  intros E. apply Z.le_antisymm.
  - apply rne_le. rewrite E. apply Qle_refl.
  - apply rne_ge. rewrite E. apply Qle_refl.
Qed.

(** Signs and zero tests respect the equality of rationals. *)
Lemma Qzero_comp (p q : Q) : p == q -> Qzero p = Qzero q.
Proof.
  intros E. unfold Qzero. unfold Qeq in E.
  destruct (Z.eqb_spec (Qnum p) 0) as [H|H],
           (Z.eqb_spec (Qnum q) 0) as [H'|H'];
    try reflexivity; exfalso; nia.
Qed.

Lemma Qneg_iff (q : Q) : Qneg q = true <-> q < 0.
Proof. unfold Qneg, Qlt. rewrite Z.ltb_lt. simpl. lia. Qed.

Lemma Qneg_false (q : Q) : 0 <= q -> Qneg q = false.
Proof.
  intros H. destruct (Qneg q) eqn:E; [|reflexivity].
  apply Qneg_iff in E. lra.
Qed.

Lemma Qneg_comp (p q : Q) : p == q -> Qneg p = Qneg q.
Proof.
  intros E. destruct (Qneg p) eqn:Hp, (Qneg q) eqn:Hq; try reflexivity.
  - apply Qneg_iff in Hp. assert (H : q < 0) by lra.
    apply Qneg_iff in H. congruence.
  - apply Qneg_iff in Hq. assert (H : p < 0) by lra.
    apply Qneg_iff in H. congruence.
Qed.

Lemma Qzero_true (q : Q) : Qzero q = true <-> q == 0.
Proof. unfold Qzero, Qeq. simpl. rewrite Z.eqb_eq. lia. Qed.

Lemma Qzero_nonzero (q : Q) : ~ q == 0 -> Qzero q = false.
Proof.
  intros H. destruct (Qzero q) eqn:E; [|reflexivity].
  apply Qzero_true in E. contradiction.
Qed.

Lemma Qle_bool_false (a b : Q) : b < a -> Qle_bool a b = false.
Proof.
  intros H. destruct (Qle_bool a b) eqn:E; [|reflexivity].
  apply Qle_bool_iff in E. lra.
Qed.

Lemma Qabs_nonzero (q : Q) : ~ q == 0 -> 0 < Qabs q.
Proof.
  intros H. destruct q as [n d]. unfold Qeq in H. unfold Qlt, Qabs.
  simpl in *. lia.
Qed.

Section Format.
Variable fmt : format.
Hypothesis precision_pos : (1 <= precision fmt)%Z.

Lemma nearest_comp (x y : Q) : 0 < x -> x == y -> nearest fmt x = nearest fmt y.
Proof.
  intros Hx E. unfold nearest, significand, last_place.
  rewrite (ilog2_comp Hx E). set (e := Z.max _ _).
  rewrite (@rne_comp (x / pow2 e) (y / pow2 e)) by (rewrite E; reflexivity).
  reflexivity.
Qed.

Lemma round_comp (p q : Q) : p == q -> round fmt p = round fmt q.
Proof.
  intros E. unfold round. rewrite (Qzero_comp E).
  destruct (Qzero q) eqn:Hz; [reflexivity|].
  assert (Hq : ~ q == 0) by (intros H; apply Qzero_true in H; congruence).
  assert (Ha : Qabs p == Qabs q) by (rewrite E; reflexivity).
  assert (Hpos : 0 < Qabs p) by (rewrite Ha; apply Qabs_nonzero; exact Hq).
  rewrite (nearest_comp Hpos Ha), (Qneg_comp E). reflexivity.
Qed.

Lemma round_pos (q : Q) :
  0 < q ->
  round fmt q
  = if Qle_bool (pow2 (emax fmt)) (nearest fmt q) then Inf false
    else fin (nearest fmt q).
Proof.
  intros Hq. unfold round.
  rewrite Qzero_nonzero by lra. rewrite Qneg_false by lra.
  assert (Ha : Qabs q == q) by (apply Qabs_pos; lra).
  assert (Hpos : 0 < Qabs q) by lra.
  rewrite (nearest_comp Hpos Ha). reflexivity.
Qed.

Lemma round_zero (q : Q) : q == 0 -> round fmt q = Fin 0.
Proof.
  intros H. unfold round. apply Qzero_true in H. rewrite H. reflexivity.
Qed.

(** Rounding is symmetric. *)
Lemma round_opp (q : Q) : round fmt (- q) = fneg (round fmt q).
Proof.
  unfold round.
  assert (Hz : Qzero (- q) = Qzero q).
  { unfold Qzero. simpl. destruct (Qnum q); reflexivity. }
  rewrite Hz. destruct (Qzero q) eqn:Ez; [reflexivity|].
  assert (Hq : ~ q == 0) by (intros H; apply Qzero_true in H; congruence).
  assert (Ha : Qabs (- q) == Qabs q) by apply Qabs_opp.
  assert (Hpos : 0 < Qabs (- q))
    by (rewrite Ha; apply Qabs_nonzero; exact Hq).
  rewrite (nearest_comp Hpos Ha).
  set (v := nearest fmt (Qabs q)).
  assert (Hs : Qneg (- q) = negb (Qneg q)).
  { unfold Qneg, Qzero in *. destruct q as [[|n|n] d]; cbn in *;
      [discriminate Ez|reflexivity|reflexivity]. }
  rewrite Hs.
  destruct (Qle_bool (pow2 (emax fmt)) v); [reflexivity|].
  destruct (Qneg q); cbn [negb fneg]; unfold fin; cbn [fneg]; unfold fin;
    f_equal; apply Qred_complete; rewrite Qred_correct; ring.
Qed.

Lemma round_fin (q : Q) : round fmt (Qred q) = round fmt q.
Proof. apply round_comp. apply Qred_correct. Qed.

(** The significand is not negative, and the value is within half a unit
    of its last place. *)
Lemma significand_nonneg (q : Q) : 0 < q -> (0 <= significand fmt q)%Z.
Proof.
  intros Hq. apply rne_ge. change (inject_Z 0) with 0.
  pose proof (pow2_pos (last_place fmt q)).
  apply Qle_shift_div_l; [assumption|lra].
Qed.

Lemma nearest_nonneg (q : Q) : 0 < q -> 0 <= nearest fmt q.
Proof.
  intros Hq. unfold nearest. pose proof (pow2_pos (last_place fmt q)).
  pose proof (significand_nonneg Hq) as H0. rewrite Zle_Qle in H0.
  change (inject_Z 0) with 0 in H0. nra.
Qed.

Lemma nearest_error (q : Q) :
  - ((1 # 2) * pow2 (last_place fmt q)) <= nearest fmt q - q /\
  nearest fmt q - q <= (1 # 2) * pow2 (last_place fmt q).
Proof.
  unfold nearest, significand.
  set (e := last_place fmt q). pose proof (pow2_pos e) as He.
  destruct (rne_error (q / pow2 e)) as [H1 H2].
  set (m := inject_Z (rne (q / pow2 e))) in *.
  assert (Hq : q == (q / pow2 e) * pow2 e) by (field; lra).
  set (y := q / pow2 e) in *.
  split; nra.
Qed.

Lemma last_place_le (q c : Q) (M j : Z) :
  0 < q -> q <= c ->
  (0 < M < 2 ^ precision fmt)%Z -> (emin fmt <= j)%Z ->
  c == inject_Z M * pow2 j ->
  (last_place fmt q <= j)%Z.
Proof.
  intros Hq Hqc HM Hj Hc.
  destruct (ilog2_spec Hq) as [H1 _].
  assert (HMq : inject_Z M < pow2 (precision fmt)).
  { rewrite <- pow2_Z by lia. rewrite <- Zlt_Qlt. lia. }
  assert (Hlt : pow2 (ilog2 q) < pow2 (precision fmt + j)).
  { rewrite pow2_add. pose proof (pow2_pos j).
    set (P := pow2 (precision fmt)) in *. set (J := pow2 j) in *.
    set (L := pow2 (ilog2 q)) in *. set (m := inject_Z M) in *. nra. }
  apply pow2_lt_inv in Hlt. unfold last_place. lia.
Qed.

(** Rounding does not go above a representable value that is not below. *)
Lemma nearest_le (q c : Q) :
  0 < q -> q <= c -> representable fmt c -> nearest fmt q <= c.
Proof.
  intros Hq Hqc (M & j & HM & Hj & Hc).
  pose proof (last_place_le Hq Hqc HM Hj Hc) as He.
  unfold nearest, significand. set (e := last_place fmt q) in *.
  pose proof (pow2_pos e) as Pe.
  assert (Hk : c / pow2 e == inject_Z (M * 2 ^ (j - e))).
  { rewrite inject_Z_mult, pow2_Z by lia. rewrite pow2_sub, Hc. field. lra. }
  assert (Hm : (rne (q / pow2 e) <= M * 2 ^ (j - e))%Z).
  { apply rne_le. rewrite <- Hk.
    apply Qmult_le_compat_r; [exact Hqc|].
    apply Qlt_le_weak, Qinv_lt_0_compat. exact Pe. }
  rewrite Zle_Qle in Hm.
  assert (Hc' : c == inject_Z (M * 2 ^ (j - e)) * pow2 e).
  { rewrite <- Hk. field. lra. }
  rewrite Hc'. set (m := inject_Z (rne _)) in *.
  set (k := inject_Z (M * 2 ^ (j - e))) in *. nra.
Qed.

(** Rounding does not go below a power of two that is not above. *)
Lemma nearest_ge_pow2 (q : Q) (k : Z) :
  pow2 k <= q -> (emin fmt <= k)%Z -> pow2 k <= nearest fmt q.
Proof.
  intros Hkq Hk.
  assert (Hq : 0 < q) by (pose proof (pow2_pos k); lra).
  destruct (ilog2_spec Hq) as [H1 H2].
  assert (Hkl : (k <= ilog2 q)%Z).
  { assert (H : pow2 k < pow2 (ilog2 q + 1)) by lra.
    apply pow2_lt_inv in H. lia. }
  unfold nearest, significand. set (e := last_place fmt q).
  assert (He : (e <= ilog2 q)%Z) by (unfold e, last_place; lia).
  pose proof (pow2_pos e) as Pe.
  assert (Hl : pow2 (ilog2 q) / pow2 e == inject_Z (2 ^ (ilog2 q - e))).
  { rewrite pow2_Z by lia. rewrite pow2_sub. reflexivity. }
  assert (Hm : (2 ^ (ilog2 q - e) <= rne (q / pow2 e))%Z).
  { apply rne_ge. rewrite <- Hl.
    apply Qmult_le_compat_r; [exact H1|].
    apply Qlt_le_weak, Qinv_lt_0_compat. exact Pe. }
  rewrite Zle_Qle in Hm. rewrite <- Hl in Hm.
  pose proof (pow2_le Hkl) as Hkl'.
  set (m := inject_Z (rne _)) in *.
  assert (Hx : pow2 (ilog2 q) == (pow2 (ilog2 q) / pow2 e) * pow2 e)
    by (field; lra).
  set (L := pow2 (ilog2 q)) in *. set (y := L / pow2 e) in *. nra.
Qed.

Lemma representable_pos (c : Q) : representable fmt c -> 0 < c.
Proof.
  intros (M & j & HM & _ & E). rewrite E.
  pose proof (pow2_pos j). pose proof (@inject_Z_pos M ltac:(lia)). nra.
Qed.

(** A representable value is rounded to itself. *)
Lemma nearest_representable (c : Q) :
  representable fmt c -> nearest fmt c == c.
Proof.
  intros Hr. pose proof (representable_pos Hr) as Hpos.
  destruct Hr as (M & j & HM & Hj & Hc).
  pose proof (@last_place_le c c M j Hpos (Qle_refl c) HM Hj Hc) as He.
  unfold nearest, significand. set (e := last_place fmt c) in *.
  pose proof (pow2_pos e) as Pe.
  assert (Hk : c / pow2 e == inject_Z (M * 2 ^ (j - e))).
  { rewrite inject_Z_mult, pow2_Z by lia. rewrite pow2_sub, Hc. field. lra. }
  rewrite (rne_Z Hk). rewrite <- Hk. field. lra.
Qed.

(** In the normal range the relative error is at most [2^-precision]. *)
Lemma nearest_relative_error (q : Q) :
  pow2 (emin fmt + precision fmt - 1) <= q ->
  - (q * pow2 (- precision fmt)) <= nearest fmt q - q /\
  nearest fmt q - q <= q * pow2 (- precision fmt).
Proof.
  intros Hn.
  assert (Hq : 0 < q)
    by (pose proof (pow2_pos (emin fmt + precision fmt - 1)); lra).
  destruct (ilog2_spec Hq) as [H1 H2].
  assert (Hl : (emin fmt + precision fmt - 1 <= ilog2 q)%Z).
  { assert (H : pow2 (emin fmt + precision fmt - 1) < pow2 (ilog2 q + 1))
      by lra.
    apply pow2_lt_inv in H. lia. }
  assert (He : last_place fmt q = (ilog2 q - (precision fmt - 1))%Z)
    by (unfold last_place; lia).
  destruct (nearest_error q) as [E1 E2]. rewrite He in E1, E2.
  assert (Hh : (1 # 2) * pow2 (ilog2 q - (precision fmt - 1))
               == pow2 (ilog2 q) * pow2 (- precision fmt)).
  { replace (ilog2 q - (precision fmt - 1))%Z
      with (ilog2 q + - precision fmt + 1)%Z by lia.
    rewrite pow2_succ, pow2_add. field. }
  rewrite Hh in E1, E2.
  pose proof (pow2_pos (- precision fmt)).
  set (L := pow2 (ilog2 q)) in *. set (u := pow2 (- precision fmt)) in *.
  split; nra.
Qed.

(** A positive value whose nearest value is below the overflow threshold
    is rounded to it. *)
Lemma round_finite (q : Q) :
  0 < q -> nearest fmt q < pow2 (emax fmt) ->
  round fmt q = fin (nearest fmt q).
Proof.
  intros Hq Hv. rewrite round_pos by exact Hq.
  rewrite Qle_bool_false by exact Hv. reflexivity.
Qed.

Lemma round_representable (c : Q) :
  representable fmt c -> c < pow2 (emax fmt) -> round fmt c = fin c.
Proof.
  intros Hr Hc. pose proof (nearest_representable Hr) as Hn.
  pose proof (representable_pos Hr) as Hpos.
  rewrite round_finite by (assumption || (rewrite Hn; exact Hc)).
  unfold fin. f_equal. apply Qred_complete. exact Hn.
Qed.

(** Integers of at most [precision] bits are held exactly. *)
Lemma integer_representable (z : Z) :
  (emin fmt <= 0)%Z -> (0 < z <= 2 ^ precision fmt)%Z ->
  representable fmt (inject_Z z).
Proof.
  intros He Hz. destruct (Z.eq_dec z (2 ^ precision fmt)) as [->|Hne].
  - exists (2 ^ (precision fmt - 1))%Z, 1%Z.
    assert (H2 : (2 ^ precision fmt = 2 * 2 ^ (precision fmt - 1))%Z).
    { replace (precision fmt) with (Z.succ (precision fmt - 1)) at 1 by lia.
      apply Z.pow_succ_r. lia. }
    assert (Hp : (0 < 2 ^ (precision fmt - 1))%Z)
      by (apply Z.pow_pos_nonneg; lia).
    split; [lia|]. split; [lia|].
    rewrite H2, inject_Z_mult. change (pow2 1) with 2. ring.
  - exists z, 0%Z. split; [lia|]. split; [exact He|].
    change (pow2 0) with 1. ring.
Qed.

Lemma round_integer (z : Z) :
  (emin fmt <= 0)%Z -> (precision fmt < emax fmt)%Z ->
  (Z.abs z <= 2 ^ precision fmt)%Z ->
  round fmt (inject_Z z) = of_Z z.
Proof.
  intros He Hx Hz.
  assert (Hbound : forall y, (0 < y <= 2 ^ precision fmt)%Z ->
                             inject_Z y < pow2 (emax fmt)).
  { intros y Hy. apply Qle_lt_trans with (pow2 (precision fmt)).
    - rewrite <- pow2_Z by lia. rewrite <- Zle_Qle. lia.
    - apply pow2_lt. exact Hx. }
  assert (Hfin : forall y, fin (inject_Z y) = of_Z y).
  { intros y. unfold fin, of_Z. f_equal. unfold Qred, inject_Z.
    pose proof (Z.ggcd_gcd y 1) as Hg.
    pose proof (Z.ggcd_correct_divisors y 1) as Hd.
    destruct (Z.ggcd y 1) as (g, (a, b)). simpl in *.
    rewrite Z.gcd_1_r in Hg. subst g. destruct Hd as [Ha Hb].
    replace a with y by lia. replace b with 1%Z by lia. reflexivity. }
  destruct (Z.lt_trichotomy z 0) as [Hn|[->|Hp]].
  - assert (E : inject_Z z == - inject_Z (- z))
      by (rewrite inject_Z_opp; ring).
    rewrite (round_comp E), round_opp.
    rewrite round_representable
      by (apply integer_representable || apply Hbound; lia).
    rewrite Hfin. unfold of_Z at 1. cbn [fneg].
    rewrite <- (Hfin z). unfold fin. f_equal. apply Qred_complete.
    rewrite inject_Z_opp. ring.
  - reflexivity.
  - rewrite round_representable
      by (apply integer_representable || apply Hbound; lia).
    apply Hfin.
Qed.

(** Rounding does not go below a power of two. *)
Lemma round_at_least (k : Z) (q : Q) :
  (emin fmt <= k)%Z -> pow2 k <= q -> at_least (pow2 k) (round fmt q).
Proof.
  intros Hk Hq.
  assert (Hpos : 0 < q) by (pose proof (pow2_pos k); lra).
  rewrite round_pos by exact Hpos.
  destruct (Qle_bool _ _); [left; reflexivity|right].
  exists (Qred (nearest fmt q)). split; [reflexivity|].
  rewrite Qred_correct. apply nearest_ge_pow2; assumption.
Qed.

End Format.

Lemma at_least_weaken (c d : Q) (x : float) :
  d <= c -> at_least c x -> at_least d x.
Proof.
  intros H [->|(q & -> & Hq)]; [left; reflexivity|right].
  exists q. split; [reflexivity|lra].
Qed.

Close Scope Q_scope.
End RoundingFacts.


(* ================================================================== *)
(** * Facts about the pairwise summation *)
(* ================================================================== *)

Module PairwiseFacts.
Import NumPy Counting.

(** Two runs of the summation on related items, with related additions,
    have related results. *)
Section Related.
Variables (A B : Type) (R : A -> B -> Prop).
Variables (addA : A -> A -> A) (zeroA : A) (addB : B -> B -> B) (zeroB : B).
Hypothesis R_zero : R zeroA zeroB.
Hypothesis R_add :
  forall x x' y y', R x x' -> R y y' -> R (addA x y) (addB x' y').

Lemma Forall2_firstn (n : nat) (a : list A) (b : list B) :
  Forall2 R a b -> Forall2 R (firstn n a) (firstn n b).
Proof.
  intros H. revert n. induction H as [|x y a b Hxy _ IH]; intros [|n];
    cbn [firstn]; constructor; auto.
Qed.

Lemma Forall2_skipn (n : nat) (a : list A) (b : list B) :
  Forall2 R a b -> Forall2 R (skipn n a) (skipn n b).
Proof.
  intros H. revert n. induction H as [|x y a b Hxy H IH]; intros [|n];
    cbn [skipn]; try constructor; auto.
Qed.

Lemma Forall2_nth (j : nat) (a : list A) (b : list B) :
  Forall2 R a b -> R (nth j a zeroA) (nth j b zeroB).
Proof.
  intros H. revert j. induction H as [|x y a b Hxy _ IH]; intros [|j];
    cbn [nth]; auto.
Qed.

Lemma sum_loop_related (r : A) (r' : B) (a : list A) (b : list B) :
  R r r' -> Forall2 R a b -> R (sum_loop addA r a) (sum_loop addB r' b).
Proof.
  intros Hr H. revert r r' Hr. unfold sum_loop.
  induction H as [|x y a b Hxy _ IH]; intros r r' Hr; cbn [fold_left]; auto.
Qed.

Lemma add_lanes_related (r l : list A) (r' l' : list B) :
  Forall2 R r r' -> Forall2 R l l' ->
  Forall2 R (add_lanes addA r l) (add_lanes addB r' l').
Proof.
  intros Hr. revert l l'. unfold add_lanes.
  induction Hr as [|x y r r' Hxy _ IH]; intros l l' Hl; [constructor|].
  destruct Hl as [|u v l l' Huv Hl]; cbn [combine map fst snd];
    constructor; auto.
Qed.

Lemma unrolled_related (rows : nat) (r a : list A) (r' a' : list B) :
  Forall2 R r r' -> Forall2 R a a' ->
  Forall2 R (unrolled addA rows r a) (unrolled addB rows r' a').
Proof.
  revert r a r' a'. induction rows as [|rows IH]; intros r a r' a' Hr Ha;
    cbn [unrolled]; [exact Hr|].
  apply IH; [apply add_lanes_related; [exact Hr|apply Forall2_firstn; exact Ha]|
             apply Forall2_skipn; exact Ha].
Qed.

Lemma combine8_related (r : list A) (r' : list B) :
  Forall2 R r r' -> R (combine8 addA zeroA r) (combine8 addB zeroB r').
Proof.
  intros H. unfold combine8. repeat apply R_add; apply Forall2_nth; exact H.
Qed.

Lemma block_sum_related (a : list A) (b : list B) :
  Forall2 R a b -> R (block_sum addA zeroA a) (block_sum addB zeroB b).
Proof.
  intros H. unfold block_sum. rewrite <- (Forall2_length H).
  apply sum_loop_related; [|apply Forall2_skipn; exact H].
  apply combine8_related, unrolled_related;
    [apply Forall2_firstn|apply Forall2_skipn]; exact H.
Qed.

Lemma pairwise_sum_related (fuel : nat) (a : list A) (b : list B) :
  Forall2 R a b ->
  R (pairwise_sum addA zeroA fuel a) (pairwise_sum addB zeroB fuel b).
Proof.
  revert a b. induction fuel as [|fuel IH]; intros a b H;
    cbn [pairwise_sum]; rewrite <- (Forall2_length H).
  - destruct (len a <? 8); [apply sum_loop_related; assumption|].
    destruct (len a <=? PW_BLOCKSIZE); apply block_sum_related; exact H.
  - destruct (len a <? 8); [apply sum_loop_related; assumption|].
    destruct (len a <=? PW_BLOCKSIZE); [apply block_sum_related; exact H|].
    apply R_add; apply IH; [apply Forall2_firstn|apply Forall2_skipn]; exact H.
Qed.
End Related.

(** Over the integers the order of the additions does not matter: the
    pairwise sum is the sum. *)
Lemma total_app (xs ys : list Z) :
  total (xs ++ ys) = (total xs + total ys)%Z.
Proof.
  unfold total. induction xs as [|x xs IH]; cbn [app fold_right] in *; lia.
Qed.

Lemma total_split (n : nat) (zs : list Z) :
  total zs = (total (firstn n zs) + total (skipn n zs))%Z.
Proof. rewrite <- total_app, firstn_skipn. reflexivity. Qed.

Lemma sum_loop_total (r : Z) (zs : list Z) :
  sum_loop Z.add r zs = (r + total zs)%Z.
Proof.
  unfold sum_loop, total. revert r. induction zs as [|z zs IH]; intros r;
    cbn [fold_left fold_right]; [lia|]. rewrite IH. lia.
Qed.

Lemma add_lanes_total (r l : list Z) :
  len r = len l ->
  total (add_lanes Z.add r l) = (total r + total l)%Z /\
  len (add_lanes Z.add r l) = len r.
Proof.
  revert l. unfold add_lanes.
  induction r as [|x r IH]; intros [|y l] Hl; try discriminate Hl.
  - split; reflexivity.
  - injection Hl as Hl. destruct (IH l Hl) as [Ht Hn].
    unfold total in *. cbn [combine map fst snd fold_right length] in *.
    split; lia.
Qed.

Lemma unrolled_total (rows : nat) (r a : list Z) :
  len r = 8 -> 8 * rows <= len a ->
  total (unrolled Z.add rows r a)
  = (total r + total (firstn (8 * rows) a))%Z /\
  len (unrolled Z.add rows r a) = 8.
Proof.
  revert r a. induction rows as [|rows IH]; intros r a Hr Ha.
  - cbn [unrolled]. rewrite Nat.mul_0_r, firstn_O. cbn. split; [lia|exact Hr].
  - cbn [unrolled].
    assert (Hf : len (firstn 8 a) = 8) by (rewrite length_firstn; lia).
    destruct (@add_lanes_total r (firstn 8 a)) as [Ht Hn]; [lia|].
    destruct (IH (add_lanes Z.add r (firstn 8 a)) (skipn 8 a)) as [Ht' Hn'].
    + lia.
    + rewrite length_skipn. lia.
    + split; [|exact Hn']. rewrite Ht', Ht.
      replace (8 * S rows) with (8 + 8 * rows) by lia.
      rewrite (total_split 8 (firstn (8 + 8 * rows) a)).
      rewrite firstn_firstn, Nat.min_l by lia.
      rewrite skipn_firstn_comm.
      replace (8 + 8 * rows - 8) with (8 * rows) by lia. lia.
Qed.

Lemma combine8_total (r : list Z) :
  len r = 8 -> combine8 Z.add 0%Z r = total r.
Proof.
  intros H. do 8 (destruct r as [|? r]; [discriminate H|]).
  destruct r; [|discriminate H]. unfold combine8, total. cbn. lia.
Qed.

Lemma block_sum_total (a : list Z) :
  8 <= len a -> block_sum Z.add 0%Z a = total a.
Proof.
  intros Ha. unfold block_sum.
  assert (Hrows : 1 <= len a / 8) by (apply Nat.div_le_lower_bound; lia).
  pose proof (Nat.Div0.mul_div_le (len a) 8) as Hle.
  set (rows := len a / 8) in *.
  destruct (@unrolled_total (rows - 1) (firstn 8 a) (skipn 8 a)) as [Ht Hn].
  - rewrite length_firstn. lia.
  - rewrite length_skipn. lia.
  - rewrite sum_loop_total, combine8_total by exact Hn. rewrite Ht.
    rewrite (total_split 8 a).
    rewrite (total_split (8 * (rows - 1)) (skipn 8 a)).
    rewrite skipn_skipn.
    replace (8 * (rows - 1) + 8) with (8 * rows) by lia. lia.
Qed.

Lemma pairwise_sum_total (fuel : nat) (a : list Z) :
  pairwise_sum Z.add 0%Z fuel a = total a.
Proof.
  revert a. induction fuel as [|fuel IH]; intros a; cbn [pairwise_sum].
  - destruct (Nat.ltb_spec (len a) 8); [rewrite sum_loop_total; lia|].
    destruct (len a <=? PW_BLOCKSIZE); apply block_sum_total; assumption.
  - destruct (Nat.ltb_spec (len a) 8); [rewrite sum_loop_total; lia|].
    destruct (len a <=? PW_BLOCKSIZE); [apply block_sum_total; assumption|].
    rewrite !IH. symmetry. apply total_split.
Qed.

(** The fuel [len a] is enough: more of it changes nothing. *)
Lemma pairwise_sum_fuel {A} (add : A -> A -> A) (zero : A) (fuel fuel' : nat)
      (a : list A) :
  len a <= fuel -> len a <= fuel' ->
  pairwise_sum add zero fuel a = pairwise_sum add zero fuel' a.
Proof.
  revert fuel' a. induction fuel as [|fuel IH]; intros fuel' a H H'.
  - destruct a; [|cbn in H; lia]. destruct fuel'; reflexivity.
  - destruct fuel' as [|fuel'].
    + destruct a; [reflexivity|cbn in H'; lia].
    + cbn [pairwise_sum].
      destruct (Nat.ltb_spec (len a) 8); [reflexivity|].
      destruct (Nat.leb_spec (len a) PW_BLOCKSIZE); [reflexivity|].
      unfold PW_BLOCKSIZE in *.
      set (n2 := len a / 2 - (len a / 2) mod 8).
      assert (Hn2 : 0 < n2 < len a).
      { unfold n2. pose proof (Nat.Div0.mod_le (len a / 2) 8).
        pose proof (Nat.mod_upper_bound (len a / 2) 8).
        assert (64 <= len a / 2) by (apply Nat.div_le_lower_bound; lia).
        assert (len a / 2 < len a) by (apply Nat.div_lt; lia). lia. }
      f_equal; apply IH; rewrite ?length_firstn, ?length_skipn; lia.
Qed.

End PairwiseFacts.

(* ================================================================== *)
(** * Facts about the float32 operations *)
(* ================================================================== *)

Module Float32Facts.
Import NumPy Counting ChangeRateFacts RoundingFacts PairwiseFacts.

Lemma binary32_precision : (1 <= precision binary32)%Z.
Proof. discriminate. Qed.

Lemma binary64_precision : (1 <= precision binary64)%Z.
Proof. discriminate. Qed.

Lemma as_float32_fin (q : Q) : as_float32 (fin q) = round binary32 q.
Proof. unfold fin. cbn [as_float32]. apply round_fin. Qed.

Lemma as_float64_fin (q : Q) : as_float64 (fin q) = round binary64 q.
Proof. unfold fin. cbn [as_float64]. apply round_fin. Qed.

(** Integers of at most 24 bits are [float32] values, integers of at most
    53 bits are Python floats. *)
Lemma as_float32_of_Z (z : Z) :
  (Z.abs z <= 2 ^ 24)%Z -> as_float32 (of_Z z) = of_Z z.
Proof.
  intros H. unfold of_Z at 1. cbn [as_float32].
  apply round_integer; [discriminate|discriminate|reflexivity|exact H].
Qed.

Lemma as_float64_of_Z (z : Z) :
  (Z.abs z <= 2 ^ 53)%Z -> as_float64 (of_Z z) = of_Z z.
Proof.
  intros H. unfold of_Z at 1. cbn [as_float64].
  apply round_integer; [discriminate|discriminate|reflexivity|exact H].
Qed.

Lemma add32_of_Z (a b : Z) :
  (Z.abs (a + b) <= 2 ^ 24)%Z -> add32 (of_Z a) (of_Z b) = of_Z (a + b).
Proof. intros H. unfold add32. rewrite fadd_of_Z. apply as_float32_of_Z, H. Qed.

Lemma sub32_of_Z (a b : Z) :
  (Z.abs (a - b) <= 2 ^ 24)%Z -> sub32 (of_Z a) (of_Z b) = of_Z (a - b).
Proof. intros H. unfold sub32. rewrite fsub_of_Z. apply as_float32_of_Z, H. Qed.

Lemma round32_at_least_1 (q : Q) :
  (1 <= q)%Q -> at_least 1 (round binary32 q).
Proof.
  intros H. change 1%Q with (pow2 0).
  apply round_at_least; [discriminate|discriminate|exact H].
Qed.

Lemma round64_at_least_1 (q : Q) :
  (1 <= q)%Q -> at_least 1 (round binary64 q).
Proof.
  intros H. change 1%Q with (pow2 0).
  apply round_at_least; [discriminate|discriminate|exact H].
Qed.

Lemma as_float32_at_least_1 (x : float) :
  at_least 1 x -> at_least 1 (as_float32 x).
Proof.
  intros [->|(q & -> & Hq)]; [left; reflexivity|].
  apply round32_at_least_1, Hq.
Qed.

Lemma as_float64_at_least_1 (x : float) :
  at_least 1 x -> at_least 1 (as_float64 x).
Proof.
  intros [->|(q & -> & Hq)]; [left; reflexivity|].
  apply round64_at_least_1, Hq.
Qed.

(** The accumulators of a sum of integers. *)
Lemma counts_zero : counts (Fin 0) 0.
Proof. split; [lia|]. split; [reflexivity|lia]. Qed.

Lemma counts_of_Z (z : Z) : (0 <= z)%Z -> counts (of_Z z) z.
Proof.
  intros H. split; [exact H|]. split; [reflexivity|].
  intros H1. right. exists (inject_Z z). split; [reflexivity|].
  change 1%Q with (inject_Z 1). rewrite <- Zle_Qle. exact H1.
Qed.

Lemma add32_at_least_l (x y : float) :
  at_least 1 x -> y = Fin 0 \/ at_least 1 y -> at_least 1 (add32 x y).
Proof.
  intros [->|(p & -> & Hp)] [->|[->|(q & -> & Hq)]]; unfold add32; cbn [fadd].
  - left. reflexivity.
  - left. reflexivity.
  - left. reflexivity.
  - rewrite as_float32_fin. apply round32_at_least_1. lra.
  - left. reflexivity.
  - rewrite as_float32_fin. apply round32_at_least_1. lra.
Qed.

Lemma add32_at_least_r (x y : float) :
  x = Fin 0 -> at_least 1 y -> at_least 1 (add32 x y).
Proof.
  intros -> [->|(q & -> & Hq)]; unfold add32; cbn [fadd].
  - left. reflexivity.
  - rewrite as_float32_fin. apply round32_at_least_1. lra.
Qed.

Lemma counts_add (x y : float) (a b : Z) :
  counts x a -> counts y b -> counts (add32 x y) (a + b).
Proof.
  intros (Ha & Hxa & Hx1) (Hb & Hyb & Hy1).
  split; [lia|]. split.
  - intros H. rewrite Hxa, Hyb by lia. apply add32_of_Z. lia.
  - intros H. destruct (Z.eq_dec a 0) as [->|Hna].
    + apply add32_at_least_r; [apply Hxa; lia|apply Hy1; lia].
    + apply add32_at_least_l; [apply Hx1; lia|].
      destruct (Z.eq_dec b 0) as [->|Hnb]; [left; apply Hyb; lia|].
      right. apply Hy1. lia.
Qed.

(** The [float32] sum of values that stand for integers stands for their
    sum, whatever the order of the additions. *)
Lemma sum32_counts (a : list float) (zs : list Z) :
  Forall2 counts a zs -> counts (sum32 a) (total zs).
Proof.
  intros H. unfold sum32.
  rewrite <- (pairwise_sum_total (len a) zs).
  apply pairwise_sum_related;
    [exact counts_zero|intros x x' y y'; apply counts_add|exact H].
Qed.

End Float32Facts.

(* ================================================================== *)
(** * Facts about the change rates *)
(* ================================================================== *)

Module RateSums.
Import NumPy analysis Counting ChangeRateFacts RoundingFacts PairwiseFacts
       Float32Facts.

(** The sum of the array of differences stands for the number of
    differences. *)
Lemma diff_array_counts (ps : list (Z * Z)) :
  Forall2 counts
    (map (fun p => if (fst p =? snd p)%Z then Fin 0 else Fin 1) ps)
    (map (fun p => if (fst p =? snd p)%Z then 0%Z else 1%Z) ps).
Proof.
  induction ps as [|p ps IH]; cbn [map]; constructor; [|exact IH].
  destruct (fst p =? snd p)%Z; [exact counts_zero|].
  exact (@counts_of_Z 1 ltac:(lia)).
Qed.

Lemma total_indicator (ps : list (Z * Z)) :
  total (map (fun p => if (fst p =? snd p)%Z then 0%Z else 1%Z) ps)
  = Z.of_nat (len (filter (fun p => negb (fst p =? snd p)%Z) ps)).
Proof.
  unfold total. induction ps as [|p ps IH]; [reflexivity|].
  cbn [map fold_right filter]. rewrite IH.
  destruct (fst p =? snd p)%Z; cbn [negb length]; lia.
Qed.

Lemma sum32_diff_array (original encrypted : ndarray) :
  counts (sum32 (diff_array original encrypted))
         (Z.of_nat (ChangeRates.count_diff (items original)
                                           (items encrypted))).
Proof.
  unfold ChangeRates.count_diff. rewrite <- total_indicator.
  apply sum32_counts, diff_array_counts.
Qed.

(** The absolute difference of two [uint8] values is exact. *)
Lemma abs_diff_item (a b : Z) :
  uint8 a -> uint8 b ->
  fabs (sub32 (as_float32 (of_Z a)) (as_float32 (of_Z b)))
  = of_Z (Z.abs (a - b)).
Proof.
  unfold uint8. intros Ha Hb.
  rewrite !as_float32_of_Z, sub32_of_Z by lia. apply fabs_of_Z.
Qed.

Lemma Forall_combine {A} (P : A -> Prop) (xs ys : list A) :
  Forall P xs -> Forall P ys ->
  Forall (fun p => P (fst p) /\ P (snd p)) (combine xs ys).
Proof.
  intros Hx. revert ys. induction Hx as [|x xs Hx0 _ IH]; intros ys Hy;
    [constructor|].
  destruct Hy as [|y ys Hy0 Hy]; cbn [combine]; constructor; auto.
Qed.

Lemma abs_diff_counts (ps : list (Z * Z)) :
  Forall (fun p => uint8 (fst p) /\ uint8 (snd p)) ps ->
  Forall2 counts
    (map (fun p => fabs (sub32 (as_float32 (of_Z (fst p)))
                               (as_float32 (of_Z (snd p))))) ps)
    (map (fun p => Z.abs (fst p - snd p)) ps).
Proof.
  induction 1 as [|p ps [Ha Hb] _ IH]; cbn [map]; constructor; [|exact IH].
  rewrite abs_diff_item by assumption. apply counts_of_Z. lia.
Qed.

Lemma sum32_abs_diff (original encrypted : ndarray) :
  Forall uint8 (items original) -> Forall uint8 (items encrypted) ->
  counts (sum32 (abs_diff original encrypted))
         (ChangeRates.sum_abs_diff (items original) (items encrypted)).
Proof.
  intros Ho He. unfold ChangeRates.sum_abs_diff.
  apply sum32_counts, abs_diff_counts, Forall_combine; assumption.
Qed.

Lemma count_diff_le (xs ys : list Z) :
  ChangeRates.count_diff xs ys <= len xs.
Proof.
  unfold ChangeRates.count_diff.
  eapply Nat.le_trans; [apply filter_length_le|].
  rewrite length_combine. lia.
Qed.

(** The sum of the differences of values between 0 and 255. *)
Lemma sum_abs_diff_range (xs ys : list Z) :
  Forall uint8 xs -> Forall uint8 ys ->
  (0 <= ChangeRates.sum_abs_diff xs ys <= 255 * Z.of_nat (len xs))%Z.
Proof.
  unfold ChangeRates.sum_abs_diff, uint8. intros Hx. revert ys.
  induction Hx as [|x xs Hx0 _ IH]; intros ys Hy.
  - simpl. lia.
  - destruct Hy as [|y ys Hy0 Hy].
    + simpl. lia.
    + cbn [combine map fold_right fst snd length]. specialize (IH ys Hy). lia.
Qed.

(** What [calculate_npcr_uaci] computes on arrays of one shape. *)
Lemma npcr_uaci_returns (original encrypted : ndarray) :
  shape original = shape encrypted ->
  calculate_npcr_uaci original encrypted
  = Return
      {| npcr := div32 (mul32 (Fin 100)
                              (sum32 (diff_array original encrypted)))
                       (as_float32 (of_nat (size original)));
         uaci := div32 (mul32 (Fin 100)
                              (sum32 (abs_diff original encrypted)))
                       (as_float32
                          (mul64 (Fin 255)
                                 (as_float64 (of_nat (size original))))) |}.
Proof.
  intros Hshape. unfold calculate_npcr_uaci.
  rewrite (shape_eqb_true Hshape). reflexivity.
Qed.

(** The two divisors: exact on small arrays, never below 1 on arrays that
    are not empty. *)
Lemma npcr_divisor (n : nat) :
  (Z.of_nat n <= 2 ^ 24)%Z -> as_float32 (of_nat n) = of_nat n.
Proof. intros H. apply as_float32_of_Z. lia. Qed.

Lemma uaci_divisor (n : nat) :
  (255 * Z.of_nat n <= 2 ^ 24)%Z ->
  as_float32 (mul64 (Fin 255) (as_float64 (of_nat n)))
  = of_Z (255 * Z.of_nat n).
Proof.
  intros H. unfold of_nat. rewrite as_float64_of_Z by lia.
  unfold mul64, of_Z at 1. cbn [fmul]. rewrite as_float64_fin.
  assert (E : (255 * inject_Z (Z.of_nat n) == inject_Z (255 * Z.of_nat n))%Q)
    by (rewrite inject_Z_mult; reflexivity).
  rewrite (round_comp binary64 E).
  change (round binary64 (inject_Z (255 * Z.of_nat n)))
    with (as_float64 (of_Z (255 * Z.of_nat n))).
  rewrite as_float64_of_Z by lia. apply as_float32_of_Z. lia.
Qed.

Lemma of_nat_at_least_1 (n : nat) : n <> 0 -> at_least 1 (of_nat n).
Proof.
  intros H. right. exists (inject_Z (Z.of_nat n)). split; [reflexivity|].
  change 1%Q with (inject_Z 1). rewrite <- Zle_Qle. lia.
Qed.

Lemma npcr_divisor_at_least (n : nat) :
  n <> 0 -> at_least 1 (as_float32 (of_nat n)).
Proof. intros H. apply as_float32_at_least_1, of_nat_at_least_1, H. Qed.

Lemma uaci_divisor_at_least (n : nat) :
  n <> 0 ->
  at_least 1 (as_float32 (mul64 (Fin 255) (as_float64 (of_nat n)))).
Proof.
  intros H. apply as_float32_at_least_1.
  destruct (as_float64_at_least_1 (of_nat_at_least_1 H)) as [->|(q & -> & Hq)].
  - left. reflexivity.
  - unfold mul64. cbn [fmul]. rewrite as_float64_fin.
    apply round64_at_least_1. lra.
Qed.

(** Zero over a divisor that is not zero. *)
Lemma div32_zero (d : float) : at_least 1 d -> div32 (Fin 0) d = Fin 0.
Proof.
  intros [->|(q & -> & Hq)]; [reflexivity|].
  unfold div32. cbn [fdiv]. rewrite Qzero_nonzero by lra.
  rewrite as_float32_fin. apply round_zero. field. lra.
Qed.

Lemma mul32_100_zero : mul32 (Fin 100) (Fin 0) = Fin 0.
Proof. reflexivity. Qed.


(** An array of [uint8] values that is not empty, compared with itself:
    both sums are zero, and so are both rates. *)
Lemma npcr_uaci_same (original : ndarray) :
  size original <> 0 -> Forall uint8 (items original) ->
  calculate_npcr_uaci original original
  = Return {| npcr := Fin 0; uaci := Fin 0 |}.
Proof.
  intros Hsize Hitems. rewrite npcr_uaci_returns by reflexivity.
  destruct (sum32_diff_array original original) as (_ & Hd & _).
  destruct (@sum32_abs_diff original original Hitems Hitems) as (_ & Ha & _).
  rewrite count_diff_same in Hd. rewrite sum_abs_diff_same in Ha.
  rewrite Hd, Ha by discriminate.
  change (of_Z (Z.of_nat 0)) with (Fin 0). change (of_Z 0) with (Fin 0).
  rewrite mul32_100_zero.
  rewrite (div32_zero (npcr_divisor_at_least Hsize)).
  rewrite (div32_zero (uaci_divisor_at_least Hsize)). reflexivity.
Qed.

End RateSums.

Module RatePercent.
Import NumPy analysis Counting ChangeRateFacts RoundingFacts PairwiseFacts
       Float32Facts RateSums.
Open Scope Q_scope.

Lemma pow2_31_representable : representable binary32 (pow2 31).
Proof.
  exists 1%Z, 31%Z. split; [split; reflexivity|]. split; [discriminate|].
  change (inject_Z 1) with 1. ring.
Qed.

(** A positive value of the normal range of [float32], below [2^31]: it is
    rounded to a finite value, with a relative error of at most [2^-24]. *)
Lemma round32_normal (q : Q) :
  pow2 (-18) <= q -> q <= pow2 31 ->
  exists v,
    round binary32 q = Fin v /\ v == nearest binary32 q /\
    v <= pow2 31 /\
    - (q * pow2 (-24)) <= v - q /\ v - q <= q * pow2 (-24).
Proof.
  intros Hlo Hhi.
  assert (Hq : 0 < q) by (pose proof (pow2_pos (-18)); lra).
  pose proof (nearest_le binary32_precision Hq Hhi pow2_31_representable)
    as Hle.
  assert (Hn : pow2 (emin binary32 + precision binary32 - 1) <= q).
  { apply Qle_trans with (pow2 (-18)); [apply pow2_le; discriminate|exact Hlo]. }
  destruct (nearest_relative_error binary32 Hn) as [E1 E2].
  exists (Qred (nearest binary32 q)).
  pose proof (Qred_correct (nearest binary32 q)) as Hr.
  change (pow2 (- precision binary32)) with (pow2 (-24)) in E1, E2.
  split; [|split; [exact Hr|split; [|split]]].
  - apply round_finite; [exact Hq|].
    apply Qle_lt_trans with (pow2 31); [exact Hle|].
    apply pow2_lt. reflexivity.
  - rewrite Hr. exact Hle.
  - rewrite Hr. exact E1.
  - rewrite Hr. exact E2.
Qed.

Lemma percent_representable : representable binary32 100.
Proof.
  exists 100%Z, 0%Z. split; [split; reflexivity|]. split; [discriminate|].
  reflexivity.
Qed.

Lemma percent_above_representable :
  representable binary32 (100 + pow2 (-17)).
Proof.
  exists 13107201%Z, (-17)%Z. split; [split; reflexivity|].
  split; [discriminate|]. reflexivity.
Qed.

(** [100.0 * c / d] in single precision, for a count [c] and a divisor
    [d] of at most 24 bits: the value returned is within [2^-22] of the
    quotient, relatively; it is at most [100 + 2^-17] when the count does
    not exceed the divisor, and at most 100 when moreover [100 * c] has at
    most 24 bits. *)
Lemma percentage (c d : Z) :
  (0 <= c <= 2 ^ 24)%Z -> (1 <= d <= 2 ^ 24)%Z ->
  exists p,
    div32 (mul32 (Fin 100) (of_Z c)) (of_Z d) = Fin p /\
    0 <= p /\
    Qabs (p - 100 * inject_Z c / inject_Z d)
    <= 100 * inject_Z c / inject_Z d * pow2 (-22) /\
    ((c <= d)%Z -> p <= 100 + pow2 (-17)) /\
    ((c <= d)%Z -> (100 * c <= 2 ^ 24)%Z -> p <= 100).
Proof.
  intros Hc Hd.
  assert (HD : 1 <= inject_Z d).
  { change 1 with (inject_Z 1). rewrite <- Zle_Qle. lia. }
  assert (HD' : inject_Z d <= pow2 24).
  { rewrite <- pow2_Z by discriminate. rewrite <- Zle_Qle. lia. }
  destruct (Z.eq_dec c 0) as [->|Hc0].
  - exists 0. split.
    + change (of_Z 0) with (Fin 0). rewrite mul32_100_zero.
      apply div32_zero. right.
      exists (inject_Z d). split; [reflexivity|exact HD].
    + split; [lra|]. split.
      * assert (E0 : 100 * inject_Z 0 / inject_Z d == 0) by (field; lra).
        rewrite E0. apply Qabs_Qle_condition. split; lra.
      * pose proof (pow2_pos (-17)). split; intros; lra.
  - assert (HC : 1 <= inject_Z c).
    { change 1 with (inject_Z 1). rewrite <- Zle_Qle. lia. }
    assert (HC' : inject_Z c <= pow2 24).
    { rewrite <- pow2_Z by discriminate. rewrite <- Zle_Qle. lia. }
    set (C := inject_Z c) in *. set (D := inject_Z d) in *.
    change (pow2 24) with 16777216 in *.
    (* the product *)
    destruct (@round32_normal (100 * C)) as (a & Ha & Han & Hamax & Ea1 & Ea2).
    { change (pow2 (-18)) with (1 # 262144). lra. }
    { change (pow2 31) with 2147483648. lra. }
    assert (Ha64 : 64 <= a).
    { rewrite Han. change 64 with (pow2 6).
      apply (nearest_ge_pow2 binary32 binary32_precision); [|discriminate].
      change (pow2 6) with 64. lra. }
    (* the quotient *)
    assert (HyD : a / D * D == a) by (field; lra).
    assert (Hy1 : pow2 (-18) <= a / D).
    { apply Qle_shift_div_l; [lra|].
      change (pow2 (-18)) with (1 # 262144). lra. }
    assert (Hy2 : a / D <= pow2 31).
    { apply Qle_shift_div_r; [lra|].
      pose proof (pow2_pos 31). nra. }
    destruct (round32_normal Hy1 Hy2) as (p & Hp & Hpn & _ & Ep1 & Ep2).
    assert (Hval : div32 (mul32 (Fin 100) (of_Z c)) (of_Z d) = Fin p).
    { unfold mul32, of_Z. cbn [fmul]. rewrite as_float32_fin. fold C.
      rewrite Ha. unfold div32. cbn [fdiv]. fold D.
      rewrite Qzero_nonzero by lra. rewrite as_float32_fin. exact Hp. }
    exists p. split; [exact Hval|].
    assert (Ht : 100 * C / D * D == 100 * C) by (field; lra).
    set (y := a / D) in *. set (t := 100 * C / D) in *.
    change (pow2 (-24)) with (1 # 16777216) in *.
    change (pow2 (-18)) with (1 # 262144) in *.
    assert (Hy0 : 0 < y) by lra.
    assert (Ht0 : 0 < t) by nra.
    assert (Eyt1 : - (t * (1 # 16777216)) <= y - t) by nra.
    assert (Eyt2 : y - t <= t * (1 # 16777216)) by nra.
    split; [lra|]. split.
    + change (pow2 (-22)) with (1 # 4194304).
      apply Qabs_Qle_condition. split; nra.
    + split.
      * intros Hcd.
        assert (HCD : C <= D) by (unfold C, D; rewrite <- Zle_Qle; exact Hcd).
        assert (Hy100 : y <= 100 + pow2 (-17)).
        { change (pow2 (-17)) with (1 # 131072). nra. }
        rewrite Hpn.
        apply (nearest_le binary32_precision Hy0 Hy100
                          percent_above_representable).
      * intros Hcd Hsmall.
        assert (HCD : C <= D) by (unfold C, D; rewrite <- Zle_Qle; exact Hcd).
        assert (Hexact : a == 100 * C).
        { assert (E : 100 * C == inject_Z (100 * c))
            by (unfold C; rewrite inject_Z_mult; reflexivity).
          assert (Hpos : 0 < 100 * C) by lra.
          rewrite Han, (nearest_comp binary32 Hpos E).
          rewrite E. apply (nearest_representable binary32_precision).
          apply (integer_representable binary32 binary32_precision);
            [discriminate|].
          change (precision binary32) with 24%Z. lia. }
        assert (Hy100 : y <= 100) by nra.
        rewrite Hpn.
        apply (nearest_le binary32_precision Hy0 Hy100
                          percent_representable).
Qed.

Close Scope Q_scope.
End RatePercent.

(* ================================================================== *)
(** * Properties of crypto_utils.py *)
(* ================================================================== *)

Module ContainerTheorems.
Import crypto_utils Instances CipherFacts.

Lemma firstn_app_exact {A} (n : nat) (l1 l2 : list A) :
  len l1 = n -> firstn n (l1 ++ l2) = l1.
Proof.
  intros <-. rewrite firstn_app, firstn_all, Nat.sub_diag, firstn_O.
  apply app_nil_r.
Qed.

Lemma skipn_app_exact {A} (n : nat) (l1 l2 : list A) :
  len l1 = n -> skipn n (l1 ++ l2) = l2.
Proof.
  intros <-. rewrite skipn_app, skipn_all, Nat.sub_diag, skipn_O.
  reflexivity.
Qed.

(** What [split_encrypted_data] returns on 32 bytes or more. *)
Lemma split_long (combined_data : bytes) :
  32 <= len combined_data ->
  split_encrypted_data combined_data =
    Return (firstn 16 combined_data, firstn 16 (skipn 16 combined_data),
            skipn 32 combined_data).
Proof.
  intros H. unfold split_encrypted_data.
  replace (len combined_data <? 32) with false
    by (symmetry; apply Nat.ltb_ge; exact H).
  reflexivity.
Qed.

(** The three slices of a combined container. *)
Lemma combine_slices (salt iv encrypted_data : bytes) :
  len salt = 16 -> len iv = 16 ->
  let combined_data := combine_encrypted_data salt iv encrypted_data in
  32 <= len combined_data /\
  firstn 16 combined_data = salt /\
  firstn 16 (skipn 16 combined_data) = iv /\
  skipn 32 combined_data = encrypted_data.
Proof.
  intros Hs Hi. unfold combine_encrypted_data. cbv zeta.
  split; [rewrite !length_app; lia|].
  split; [apply firstn_app_exact; exact Hs|].
  rewrite skipn_app_exact with (l1 := salt) by assumption.
  split; [apply firstn_app_exact; exact Hi|].
  rewrite app_assoc. apply skipn_app_exact.
  rewrite length_app. lia.
Qed.

(** C6: for every 16-byte salt, every 16-byte IV and every ciphertext, the
    empty one included, splitting the combined container returns exactly
    the salt, the IV and the ciphertext. *)
Theorem split_combine (salt iv encrypted_data : bytes) :
  len salt = 16 -> len iv = 16 ->
  split_encrypted_data (combine_encrypted_data salt iv encrypted_data)
  = Return (salt, iv, encrypted_data).
Proof.
  intros Hs Hi.
  destruct (@combine_slices salt iv encrypted_data Hs Hi)
    as (Hlen & Hsalt & Hiv & Hdata).
  rewrite split_long by exact Hlen.
  rewrite Hsalt, Hiv, Hdata. reflexivity.
Qed.

Lemma split_combine_witness :
  len (repeat x01 16) = 16 /\ len (repeat x02 16) = 16 /\
  split_encrypted_data
    (combine_encrypted_data (repeat x01 16) (repeat x02 16) [])
  = Return (repeat x01 16, repeat x02 16, []).
Proof.
  split; [reflexivity|]. split; [reflexivity|].
  apply (@split_combine (repeat x01 16) (repeat x02 16) []); reflexivity.
Defined.

(** C7: [split_encrypted_data] raises its error exactly when the buffer
    has fewer than 32 bytes; on 32 bytes or more it returns bytes [0:16)
    as the salt, bytes [16:32) as the IV and bytes [32:) as the
    ciphertext: three pieces of lengths 16, 16 and the rest whose
    concatenation is the buffer. *)
Theorem split_encrypted_data_spec (combined_data : bytes) :
  (len combined_data < 32 <->
   split_encrypted_data combined_data
   = Raise (CryptoError "Invalid encrypted data format")) /\
  (len combined_data < 32 <-> raises (split_encrypted_data combined_data) = true) /\
  (32 <= len combined_data <->
   exists salt iv encrypted_data,
     split_encrypted_data combined_data = Return (salt, iv, encrypted_data) /\
     salt = firstn 16 combined_data /\
     iv = firstn 16 (skipn 16 combined_data) /\
     encrypted_data = skipn 32 combined_data /\
     len salt = 16 /\ len iv = 16 /\
     len encrypted_data = len combined_data - 32 /\
     combined_data = salt ++ iv ++ encrypted_data).
Proof.
  destruct (Nat.lt_ge_cases (len combined_data) 32) as [Hlt|Hge].
  - assert (E : split_encrypted_data combined_data
                = Raise (CryptoError "Invalid encrypted data format")).
    { unfold split_encrypted_data.
      replace (len combined_data <? 32) with true
        by (symmetry; apply Nat.ltb_lt; exact Hlt).
      reflexivity. }
    rewrite E. repeat split; intros; try reflexivity; try assumption; try lia.
    destruct H as (? & ? & ? & H & _). discriminate H.
  - rewrite (split_long _ Hge). repeat split; intros; try discriminate; try lia.
    + exists (firstn 16 combined_data), (firstn 16 (skipn 16 combined_data)),
        (skipn 32 combined_data).
      repeat split.
      * rewrite length_firstn. lia.
      * rewrite length_firstn, length_skipn. lia.
      * rewrite length_skipn. reflexivity.
      * rewrite <- (firstn_skipn 16 combined_data) at 1. f_equal.
        rewrite <- (firstn_skipn 16 (skipn 16 combined_data)) at 1. f_equal.
        rewrite skipn_skipn. reflexivity.
Qed.
End ContainerTheorems.

Module CipherTheorems.
Import crypto_utils Instances CipherFacts.

Lemma xor_cipher_correct : AES.block_cipher_correct xor_cipher.
Proof.
  intros key block Hk Hb. unfold AES.block_size in *.
  cbn [AES.encrypt_block AES.decrypt_block xor_cipher].
  assert (Hf : len (firstn 16 key) = 16)
    by (rewrite length_firstn, Hk; reflexivity).
  split.
  - rewrite BytesFacts.strxor_length; lia.
  - apply BytesFacts.strxor_cancel. lia.
Qed.



(** C8: for every plaintext and non-empty password the ciphertext returned
    by [encrypt_image] has length [16 * (len(P) / 16 + 1)]: a non-zero
    multiple of 16, the length of the PKCS#7-padded plaintext; when the
    plaintext length is a multiple of 16, sixteen bytes are added.  A
    ciphertext is returned as soon as the password can be encoded;
    otherwise [encrypt_image] raises. *)
Theorem ciphertext_length (aes : AES.block_cipher) (image_data : bytes)
        (password : unicode) (s : os_state) :
  AES.block_cipher_correct aes -> password <> [] ->
  match encode password with
  | Return _ =>
      exists salt iv ciphertext padded s',
        encrypt_image aes image_data password s
        = (Return (salt, iv, ciphertext), s') /\
        Padding.pad image_data AES.block_size = Return padded /\
        len ciphertext = len padded /\
        len ciphertext = 16 * (len image_data / 16 + 1) /\
        0 < len ciphertext /\
        len ciphertext mod 16 = 0 /\
        (len image_data mod 16 = 0 -> len ciphertext = len image_data + 16)
  | Raise _ =>
      raises (fst (encrypt_image aes image_data password s)) = true
  end.
Proof.
  intros Haes Hp.
  destruct (encode password) as [e|encoded] eqn:Hencode;
    [rewrite (@encrypt_image_unencodable aes image_data password e s Hp
                Hencode); reflexivity|].
  destruct (@encrypt_image_returns aes image_data password encoded s Hp
              Hencode)
    as (key & padded & Hkey & Hklen & Hpad & Hplen & Henc).
  assert (Hi : len (fst (urandom 16 (snd (urandom 16 s)))) = 16)
    by apply urandom_length.
  assert (Hc := @cbc_encrypt_length aes Haes (len image_data / 16 + 1) key
                  _ padded Hklen Hi Hplen).
  eexists _, _, _, padded, _. split; [exact Henc|].
  split; [exact Hpad|]. rewrite Hc.
  repeat split; try lia.
  - rewrite Nat.mul_comm. apply Nat.Div0.mod_mul.
  - intros Hm. pose proof (Nat.div_mod_eq (len image_data) 16). lia.
Qed.

Lemma ciphertext_length_witness :
  AES.block_cipher_correct xor_cipher /\
  literal "secret" <> [] /\
  exists salt iv ciphertext padded s',
    encrypt_image xor_cipher (repeat x00 16) (literal "secret")
                  counting_source
    = (Return (salt, iv, ciphertext), s') /\
    Padding.pad (repeat x00 16) AES.block_size = Return padded /\
    len ciphertext = len padded /\
    len ciphertext = 16 * (len (repeat x00 16) / 16 + 1) /\
    0 < len ciphertext /\
    len ciphertext mod 16 = 0 /\
    (len (repeat x00 16) mod 16 = 0 -> len ciphertext = len (repeat x00 16) + 16).
Proof.
  split; [exact xor_cipher_correct|].
  split; [discriminate|].
  exact (@ciphertext_length xor_cipher (repeat x00 16) (literal "secret")
           counting_source xor_cipher_correct ltac:(discriminate)).
Defined.
End CipherTheorems.

Module KeyTheorems.
Import crypto_utils Instances CipherFacts.

(** With a salt that is not empty [derive_key] does not touch the entropy
    source, and its outcome does not depend on it. *)
Lemma derive_key_pure (password : unicode) (salt : bytes) (iterations : Z) :
  salt <> [] ->
  exists r, forall s, derive_key password (Some salt) iterations s = (r, s).
Proof.
  intros Hs. unfold derive_key, io_bind, io_try, ret, lift, raise.
  rewrite (not_salt_false Hs).
  destruct (not_password password).
  - eexists. intros s. reflexivity.
  - destruct (encode password) as [e|encoded];
      [eexists; intros s; reflexivity|].
    destruct (KDF.PBKDF2 _ _ _ _); eexists; intros s; reflexivity.
Qed.

(** Two calls in a row with password ["a"], the empty salt and one
    iteration, on the counting entropy source: both return, with
    different keys. *)
Lemma empty_salt_calls_differ :
  exists key1 salt1 s1 key2 salt2 s2,
    derive_key (literal "a") (Some []) 1 counting_source
    = (Return (key1, salt1), s1) /\
    derive_key (literal "a") (Some []) 1 s1 = (Return (key2, salt2), s2) /\
    key1 <> key2.
Proof.
  do 6 eexists. split; [vm_compute; reflexivity|].
  split; [vm_compute; reflexivity|].
  discriminate.
Qed.

(** C5, as amended: [derive_key] is deterministic on every salt that is
    not empty: for every password and iteration count, two calls with the
    same arguments have the same outcome (the same key and salt, or the
    same error) whatever the state of the entropy source, which they
    leave untouched. *)
Theorem derive_key_deterministic (password : unicode) (salt : bytes)
        (iterations : Z) (s1 s2 : os_state) :
  salt <> [] ->
  fst (derive_key password (Some salt) iterations s1)
  = fst (derive_key password (Some salt) iterations s2) /\
  snd (derive_key password (Some salt) iterations s1) = s1 /\
  snd (derive_key password (Some salt) iterations s2) = s2.
Proof.
  intros Hs.
  destruct (@derive_key_pure password salt iterations Hs) as (r & Hr).
  rewrite !Hr. auto.
Qed.

Lemma derive_key_deterministic_witness :
  [x01] <> ([] : bytes) /\
  fst (derive_key (literal "secret") (Some [x01]) 200000 counting_source)
  = fst (derive_key (literal "secret") (Some [x01]) 200000
                    (snd (urandom 16 counting_source))) /\
  snd (derive_key (literal "secret") (Some [x01]) 200000 counting_source)
  = counting_source /\
  snd (derive_key (literal "secret") (Some [x01]) 200000
                  (snd (urandom 16 counting_source)))
  = snd (urandom 16 counting_source).
Proof.
  split; [discriminate|].
  apply derive_key_deterministic. discriminate.
Defined.

(** C5 as stated fails on the empty salt: two calls with identical
    arguments (password ["a"], salt [b""], one iteration) return
    different keys. *)
Lemma empty_salt_breaks_determinism :
  exists key1 salt1 s1 key2 salt2 s2,
    derive_key (literal "a") (Some []) 1 counting_source
    = (Return (key1, salt1), s1) /\
    derive_key (literal "a") (Some []) 1 s1 = (Return (key2, salt2), s2) /\
    key1 <> key2.
Proof. exact empty_salt_calls_differ. Qed.

(** C10: [derive_key] treats the empty byte string as an absent salt: it
    draws sixteen fresh bytes and derives the key from them, so the salt
    it returns is not the empty one it was given, and two calls with the
    same arguments can return different keys.  The key is returned when
    the password can be encoded and the iteration count is positive; a
    password that cannot be encoded makes the call raise, after the
    sixteen bytes are drawn. *)
Theorem derive_key_empty_salt (password : unicode) (iterations : Z)
        (s : os_state) :
  password <> [] ->
  let fresh := fst (urandom 16 s) in
  derive_key password (Some []) iterations s
  = derive_key password None iterations s /\
  len fresh = 16 /\ fresh <> [] /\
  derive_key password (Some []) iterations s
  = (match (encoded <- encode password ;;
            KDF.PBKDF2 encoded fresh 32 iterations)%py with
     | Return key => Return (key, fresh)
     | Raise e =>
         Raise (CryptoError ("Key derivation failed: " ++ str e)%string)
     end, snd (urandom 16 s)) /\
  ((0 < iterations)%Z ->
   match encode password with
   | Return _ =>
       exists key,
         derive_key password (Some []) iterations s
         = (Return (key, fresh), snd (urandom 16 s))
   | Raise e =>
       derive_key password (Some []) iterations s
       = (Raise (CryptoError ("Key derivation failed: " ++ str e)%string),
          snd (urandom 16 s))
   end) /\
  exists key1 salt1 s1 key2 salt2 s2,
    derive_key (literal "a") (Some []) 1 counting_source
    = (Return (key1, salt1), s1) /\
    derive_key (literal "a") (Some []) 1 s1 = (Return (key2, salt2), s2) /\
    key1 <> key2.
Proof.
  intros Hp fresh.
  assert (Hl : len fresh = 16) by apply urandom_length.
  split; [reflexivity|]. split; [exact Hl|].
  split; [destruct fresh; [discriminate|congruence]|].
  split; [apply derive_key_fresh; [exact Hp|reflexivity]|].
  split; [|exact empty_salt_calls_differ].
  intros Hi. rewrite derive_key_fresh by (assumption || reflexivity).
  fold fresh. destruct (encode password) as [e|encoded]; [reflexivity|].
  destruct (@KDFFacts.PBKDF2_32 encoded fresh iterations Hi)
    as (key & Hk & _).
  exists key. cbn [bind]. rewrite Hk. reflexivity.
Qed.

Lemma derive_key_empty_salt_witness :
  literal "secret" <> [] /\
  let fresh := fst (urandom 16 counting_source) in
  derive_key (literal "secret") (Some []) 1 counting_source
  = derive_key (literal "secret") None 1 counting_source /\
  len fresh = 16 /\ fresh <> [] /\
  derive_key (literal "secret") (Some []) 1 counting_source
  = (match (encoded <- encode (literal "secret") ;;
            KDF.PBKDF2 encoded fresh 32 1)%py with
     | Return key => Return (key, fresh)
     | Raise e =>
         Raise (CryptoError ("Key derivation failed: " ++ str e)%string)
     end, snd (urandom 16 counting_source)) /\
  ((0 < 1)%Z ->
   exists key,
     derive_key (literal "secret") (Some []) 1 counting_source
     = (Return (key, fresh), snd (urandom 16 counting_source))) /\
  exists key1 salt1 s1 key2 salt2 s2,
    derive_key (literal "a") (Some []) 1 counting_source
    = (Return (key1, salt1), s1) /\
    derive_key (literal "a") (Some []) 1 s1 = (Return (key2, salt2), s2) /\
    key1 <> key2.
Proof.
  split; [discriminate|].
  exact (@derive_key_empty_salt (literal "secret") 1 counting_source
           ltac:(discriminate)).
Defined.
End KeyTheorems.

(* ================================================================== *)
(** * Properties of analysis.py *)
(* ================================================================== *)

Module ScoringTheorems.
Import NumPy analysis FloatFacts.







End ScoringTheorems.

Module AnalysisTheorems.
Import NumPy analysis FloatFacts AnalysisFacts Instances.

(** C9: [analyze_encryption_strength] reshapes the encrypted bytes into an
    array of a single column; the horizontal and diagonal views handed to
    the correlation routine are then empty and these two coefficients are
    NaN; so is the mean absolute correlation, the correlation check adds
    no point, the score is at most 4, and whenever the analysis returns
    its verdict is Moderate or Weak, never Strong. *)
Theorem single_column_never_strong (fn : elementary)
        (original_data encrypted_data : bytes) (r : results) :
  analyze_encryption_strength fn original_data encrypted_data = Return r ->
  shape (reshape_column (frombuffer encrypted_data)) = [len encrypted_data; 1] /\
  horizontal (r_correlations r) = NaN /\
  diagonal (r_correlations r) = NaN /\
  avg_correlation (r_correlations r) = NaN /\
  r_verdict r
  = verdict (strength_score (r_entropy r) (avg_correlation (r_correlations r))
                            (r_npcr r)) /\
  strength_score (r_entropy r) (avg_correlation (r_correlations r)) (r_npcr r)
  <= 4 /\
  (r_verdict r = "Moderate"%string \/ r_verdict r = "Weak"%string) /\
  r_verdict r <> "Strong"%string.
Proof.
  intros Hr.
  assert (Hshape : shape (reshape_column (frombuffer encrypted_data))
                   = [len encrypted_data; 1]).
  { unfold reshape_column, frombuffer, size. cbn [shape fold_right].
    rewrite Nat.mul_1_r. reflexivity. }
  destruct (analyze_inversion _ _ _ Hr) as (entropy & c & m & _ & Hc & _ & ->).
  destruct (column_correlation _ _ Hshape Hc) as [Hh Hd].
  pose proof (avg_correlation_nan _ Hh) as Havg.
  cbn [r_correlations r_entropy r_npcr r_verdict].
  rewrite Havg.
  pose proof (strength_score_nan entropy (npcr m)) as Hle.
  destruct (verdict_low Hle) as [Hv Hs].
  repeat split; assumption || reflexivity.
Qed.

Lemma single_column_never_strong_witness :
  exists r,
    analyze_encryption_strength integer_parts
      [x01; x02; x04; x03] [x11; x02; x04; x03] = Return r /\
    shape (reshape_column (frombuffer [x11; x02; x04; x03])) = [4; 1] /\
    horizontal (r_correlations r) = NaN /\
    diagonal (r_correlations r) = NaN /\
    avg_correlation (r_correlations r) = NaN /\
    r_verdict r
    = verdict (strength_score (r_entropy r)
                              (avg_correlation (r_correlations r)) (r_npcr r)) /\
    strength_score (r_entropy r) (avg_correlation (r_correlations r)) (r_npcr r)
    <= 4 /\
    (r_verdict r = "Moderate"%string \/ r_verdict r = "Weak"%string) /\
    r_verdict r <> "Strong"%string.
Proof.
  eexists. split; [vm_compute; reflexivity|].
  apply (@single_column_never_strong integer_parts
           [x01; x02; x04; x03] [x11; x02; x04; x03]).
  vm_compute. reflexivity.
Defined.

(** C4, as amended: on the empty buffer [calculate_entropy] returns 0: the
    division of the 256 zero counts by the length 0 gives 256 NaN
    probabilities, none of which passes the test [prob > 0], and the
    entropy is the negated empty sum.  Nothing is raised. *)
Theorem entropy_of_empty (fn : elementary) :
  bincount (frombuffer []) 256 = repeat 0 256 /\
  map (fun f => fdiv (of_nat f) (of_nat 0)) (bincount (frombuffer []) 256)
  = repeat NaN 256 /\
  filter (fun p => fgt p (Fin 0)) (repeat NaN 256) = [] /\
  calculate_entropy fn [] = Return (Fin 0) /\
  raises (calculate_entropy fn []) = false.
Proof.
  repeat split; vm_compute; reflexivity.
Qed.

(** C4 as stated fails: there is no choice of the elementary functions for
    which [calculate_entropy] raises on the empty buffer. *)
Lemma empty_buffer_entropy_returns :
  ~ exists fn : elementary, raises (calculate_entropy fn []) = true.
Proof.
  intros [fn H]. vm_compute in H. discriminate H.
Qed.

End AnalysisTheorems.

Module ChangeRateTheorems.
Import NumPy analysis FloatFacts ChangeRateFacts RoundingFacts Float32Facts
       RateSums RatePercent.




(** Nor is the formula met exactly on arrays that are not empty: on four
    items with a sum of differences of 256, the exact quotient is 1280/51
    and the value returned is the [float32] next to it. *)
Lemma uaci_is_rounded :
  calculate_npcr_uaci (reshape_column (frombuffer [x00; x00; x0a; xff]))
                      (reshape_column (frombuffer [xff; x00; x0b; xff]))
  = Return {| npcr := Fin 50; uaci := Fin (13158601 # 524288) |} /\
  (ChangeRates.uaci [0; 0; 10; 255]%Z [255; 0; 11; 255]%Z 4
   == 1280 # 51)%Q /\
  ~ (13158601 # 524288 == 1280 # 51)%Q.
Proof.
  split; [vm_compute; reflexivity|]. split; [reflexivity|discriminate].
Qed.

End ChangeRateTheorems.

(* ================================================================== *)
(** * Further properties of crypto_utils.py *)
(* ================================================================== *)

Module KeyProperties.
Import crypto_utils Instances CipherFacts.

(** X1: on a password that is not empty and a positive iteration count
    [derive_key] has two outcomes.  When the password can be encoded it
    returns a key of 32 bytes, the PBKDF2 output for the encoded password
    and the salt it returns; that salt is the one it was given when that
    one is not empty (and then nothing is drawn), and otherwise the next
    16 bytes of the entropy source.  When the password cannot be encoded
    (it holds a surrogate) it raises [CryptoError] with the message of the
    codec after ["Key derivation failed: "], the salt being drawn first if
    none was given. *)
Theorem derive_key_returns (password : unicode) (salt : option bytes)
        (iterations : Z) (s : os_state) :
  password <> [] -> (0 < iterations)%Z ->
  match encode password with
  | Return encoded =>
      exists key used s',
        derive_key password salt iterations s = (Return (key, used), s') /\
        len key = 32 /\
        KDF.PBKDF2 encoded used 32 iterations = Return key /\
        (not_salt salt = false -> salt = Some used /\ s' = s) /\
        (not_salt salt = true ->
         used = fst (urandom 16 s) /\ len used = 16 /\
         s' = snd (urandom 16 s))
  | Raise e =>
      derive_key password salt iterations s
      = (Raise (CryptoError ("Key derivation failed: " ++ str e)%string),
         if not_salt salt then snd (urandom 16 s) else s)
  end.
Proof.
  intros Hp Hi. destruct (not_salt salt) eqn:Hs.
  - rewrite derive_key_fresh by assumption.
    destruct (encode password) as [e|encoded]; [reflexivity|].
    destruct (@KDFFacts.PBKDF2_32 encoded (fst (urandom 16 s))
                iterations Hi) as (key & Hk & Hl).
    exists key, (fst (urandom 16 s)), (snd (urandom 16 s)).
    cbn [bind]. rewrite Hk.
    repeat split; try assumption; try discriminate.
  - destruct salt as [[|b salt]|]; try discriminate.
    rewrite derive_key_given by (assumption || discriminate).
    destruct (encode password) as [e|encoded]; [reflexivity|].
    destruct (@KDFFacts.PBKDF2_32 encoded (b :: salt)
                iterations Hi) as (key & Hk & Hl).
    exists key, (b :: salt), s.
    cbn [bind]. rewrite Hk.
    repeat split; try assumption; discriminate.
Qed.

Lemma derive_key_returns_witness :
  literal "secret" <> [] /\ (0 < 1)%Z /\
  (exists key used s',
     derive_key (literal "secret") None 1 counting_source
     = (Return (key, used), s') /\
     len key = 32 /\
     KDF.PBKDF2 (list_byte_of_string "secret") used 32 1 = Return key /\
     (not_salt None = false -> None = Some used /\ s' = counting_source) /\
     (not_salt None = true ->
      used = fst (urandom 16 counting_source) /\ len used = 16 /\
      s' = snd (urandom 16 counting_source))) /\
  derive_key [0x61; 0xD800]%N (Some [x01]) 1 counting_source
  = (Raise (CryptoError
              "Key derivation failed: 'utf-8' codec can't encode character '\ud800' in position 1: surrogates not allowed"),
     counting_source).
Proof.
  split; [discriminate|]. split; [reflexivity|]. split.
  - exact (@derive_key_returns (literal "secret") None 1 counting_source
             ltac:(discriminate) ltac:(reflexivity)).
  - exact (@derive_key_returns [0x61; 0xD800]%N (Some [x01]) 1 counting_source
             ltac:(discriminate) ltac:(reflexivity)).
Defined.

(** X2: the empty password is refused everywhere.  [derive_key] raises
    ["Invalid password provided"] after it has drawn the salt it lacks;
    [encrypt_image] then raises having drawn 16 bytes, the salt, and no
    IV; [decrypt_image] raises without drawing anything when its salt is
    not empty. *)
Theorem empty_password_refused (aes : AES.block_cipher) (salt : option bytes)
        (iterations : Z) (data given_salt iv : bytes) (s : os_state) :
  derive_key [] salt iterations s
  = (Raise (CryptoError "Invalid password provided"),
     if not_salt salt then snd (urandom 16 s) else s) /\
  encrypt_image aes data [] s
  = (Raise (CryptoError "Encryption failed: Invalid password provided"),
     snd (urandom 16 s)) /\
  decrypt_image aes data given_salt iv [] s
  = (Raise (CryptoError "Decryption failed: Invalid password provided"),
     if not_salt (Some given_salt) then snd (urandom 16 s) else s).
Proof.
  assert (Hd : forall salt',
             derive_key [] salt' iterations s
             = (Raise (CryptoError "Invalid password provided"),
                if not_salt salt' then snd (urandom 16 s) else s)).
  { intros salt'. unfold derive_key, io_bind, os_urandom, ret, raise.
    destruct (not_salt salt'); [destruct (urandom 16 s)|]; reflexivity. }
  split; [apply Hd|]. split.
  - unfold encrypt_image, io_try, io_bind.
    unfold derive_key, io_bind, os_urandom, ret, raise. cbn [not_salt not_password].
    destruct (urandom 16 s). reflexivity.
  - unfold decrypt_image, io_try, io_bind.
    unfold derive_key, io_bind, os_urandom, ret, raise. cbn [not_password].
    destruct (not_salt (Some given_salt)); [destruct (urandom 16 s)|];
      reflexivity.
Qed.

End KeyProperties.

Module CipherProperties.
Import crypto_utils Instances CipherFacts.

(** An IV that has not 16 bytes is refused when the cipher is created. *)
Lemma bad_iv_rejected (aes : AES.block_cipher)
      (encrypted_data salt iv : bytes) (password : unicode) (s : os_state) :
  password <> [] -> salt <> [] -> len iv <> 16 ->
  exists msg,
    decrypt_image aes encrypted_data salt iv password s
    = (Raise (CryptoError ("Decryption failed: " ++ msg)%string), s).
Proof.
  intros Hp Hs Hiv.
  destruct (encode password) as [e|encoded] eqn:Hencode;
    [eexists; apply decrypt_image_unencodable; eassumption|].
  destruct (@KDFFacts.PBKDF2_32 encoded salt default_iterations
              default_iterations_pos) as (key & Hk & Hl).
  unfold decrypt_image, io_try, io_bind.
  rewrite derive_key_given by assumption. rewrite Hencode. cbn [bind].
  rewrite Hk. cbn [lift ret raise].
  unfold AES.new. rewrite Hl. cbn [AES.key_size existsb Nat.eqb orb negb].
  unfold AES.block_size.
  replace (len iv =? 16) with false by (symmetry; apply Nat.eqb_neq; exact Hiv).
  cbn [negb]. eexists. reflexivity.
Qed.

(** A ciphertext that is empty, or whose length is not a multiple of 16,
    is refused by the cipher or by the unpadding. *)
Lemma bad_ciphertext_rejected (aes : AES.block_cipher)
      (encrypted_data salt iv : bytes) (password : unicode) (s : os_state) :
  password <> [] -> salt <> [] -> len iv = 16 ->
  len encrypted_data mod 16 <> 0 \/ encrypted_data = [] ->
  exists msg,
    decrypt_image aes encrypted_data salt iv password s
    = (Raise (CryptoError ("Decryption failed: " ++ msg)%string), s).
Proof.
  intros Hp Hs Hiv Hbad.
  destruct (encode password) as [e|encoded] eqn:Hencode;
    [eexists; apply decrypt_image_unencodable; eassumption|].
  destruct (@KDFFacts.PBKDF2_32 encoded salt default_iterations
              default_iterations_pos) as (key & Hk & Hl).
  unfold decrypt_image, io_try, io_bind.
  rewrite derive_key_given by assumption. rewrite Hencode. cbn [bind].
  rewrite Hk. cbn [lift ret raise].
  rewrite AES_new_ok by assumption.
  unfold AES.decrypt. cbn [AES.key AES.iv]. unfold AES.block_size.
  destruct (len encrypted_data mod 16 =? 0) eqn:Hm; cbn [negb].
  - apply Nat.eqb_eq in Hm. destruct Hbad as [H|H]; [contradiction|].
    subst encrypted_data. cbn. eexists. reflexivity.
  - eexists. reflexivity.
Qed.

(** X3: [decrypt_image] refuses what cannot be a ciphertext: with a
    password and a salt that are not empty, an IV that has not 16 bytes or
    a ciphertext whose length is not a positive multiple of 16 makes it
    raise a [CryptoError] whose message starts with ["Decryption failed: "],
    and nothing is drawn from the entropy source.  (A password that cannot
    be encoded makes it raise in the same way, whatever the rest.) *)
Theorem decrypt_image_rejects (aes : AES.block_cipher)
        (encrypted_data salt iv : bytes) (password : unicode) (s : os_state) :
  password <> [] -> salt <> [] ->
  len iv <> 16 \/ len encrypted_data mod 16 <> 0 \/ encrypted_data = [] ->
  exists msg,
    decrypt_image aes encrypted_data salt iv password s
    = (Raise (CryptoError ("Decryption failed: " ++ msg)%string), s).
Proof.
  intros Hp Hs Hbad.
  destruct (Nat.eq_dec (len iv) 16) as [Hiv|Hiv].
  - apply bad_ciphertext_rejected; try assumption.
    destruct Hbad as [H|H]; [contradiction|exact H].
  - apply bad_iv_rejected; assumption.
Qed.

Lemma decrypt_image_rejects_witness :
  literal "secret" <> [] /\ [x01] <> ([] : bytes) /\
  (len (repeat x00 16) <> 16 \/ len [x01; x02; x03] mod 16 <> 0
   \/ [x01; x02; x03] = ([] : bytes)) /\
  exists msg,
    decrypt_image xor_cipher [x01; x02; x03] [x01] (repeat x00 16)
                  (literal "secret") counting_source
    = (Raise (CryptoError ("Decryption failed: " ++ msg)%string),
       counting_source).
Proof.
  split; [discriminate|]. split; [discriminate|].
  split; [right; left; discriminate|].
  apply (@decrypt_image_rejects xor_cipher [x01; x02; x03] [x01]
           (repeat x00 16) (literal "secret") counting_source);
    [discriminate|discriminate|right; left; discriminate].
Defined.

(** X4: on a password that is not empty [encrypt_image] has two outcomes,
    whatever the block transformation.  When the password can be encoded
    it returns, and it draws exactly 32 bytes from the entropy source: the
    first 16 are the salt, the next 16 the IV.  When the password cannot
    be encoded (it holds a surrogate) it raises [CryptoError], having
    drawn the 16 bytes of the salt and no IV. *)
Theorem encrypt_image_draws (aes : AES.block_cipher) (image_data : bytes)
        (password : unicode) (s : os_state) :
  password <> [] ->
  match encode password with
  | Return _ =>
      exists salt iv ciphertext s',
        encrypt_image aes image_data password s
        = (Return (salt, iv, ciphertext), s') /\
        salt = map (pool s) (seq (cursor s) 16) /\
        iv = map (pool s) (seq (cursor s + 16) 16) /\
        len salt = 16 /\ len iv = 16 /\
        pool s' = pool s /\ cursor s' = cursor s + 32
  | Raise e =>
      encrypt_image aes image_data password s
      = (Raise (CryptoError
                  ("Encryption failed: Key derivation failed: "
                     ++ str e)%string),
         {| pool := pool s; cursor := cursor s + 16 |})
  end.
Proof.
  intros Hp.
  destruct (encode password) as [e|encoded] eqn:Hencode;
    [apply encrypt_image_unencodable; assumption|].
  destruct (@encrypt_image_returns aes image_data password encoded s Hp
              Hencode)
    as (key & padded & _ & _ & _ & _ & Henc).
  eexists _, _, _, _. split; [exact Henc|].
  unfold urandom. cbn [fst snd pool cursor].
  rewrite !length_map, !length_seq.
  repeat split. lia.
Qed.

Lemma encrypt_image_draws_witness :
  literal "secret" <> [] /\
  (exists salt iv ciphertext s',
     encrypt_image xor_cipher [x01; x02] (literal "secret") counting_source
     = (Return (salt, iv, ciphertext), s') /\
     salt = map (pool counting_source) (seq (cursor counting_source) 16) /\
     iv = map (pool counting_source) (seq (cursor counting_source + 16) 16) /\
     len salt = 16 /\ len iv = 16 /\
     pool s' = pool counting_source /\
     cursor s' = cursor counting_source + 32) /\
  encrypt_image xor_cipher [x01; x02] [0xDC00; 0xDFFF]%N counting_source
  = (Raise (CryptoError
              "Encryption failed: Key derivation failed: 'utf-8' codec can't encode characters in position 0-1: surrogates not allowed"),
     {| pool := pool counting_source; cursor := 16 |}).
Proof.
  split; [discriminate|]. split.
  - exact (@encrypt_image_draws xor_cipher [x01; x02] (literal "secret")
             counting_source ltac:(discriminate)).
  - exact (@encrypt_image_draws xor_cipher [x01; x02] [0xDC00; 0xDFFF]%N
             counting_source ltac:(discriminate)).
Defined.

End CipherProperties.

Module VisualizationFacts.
Import NumPy visualization.

Lemma sqrt_positive (n : nat) : 0 < n -> 0 < Nat.sqrt n.
Proof.
  intros H. pose proof (Nat.sqrt_specif n) as [_ Hhi].
  destruct (Nat.sqrt n); [simpl in Hhi; lia|lia].
Qed.

(** The sides of the rectangle the code fits into [n] bytes. *)
Lemma sqrt_rectangle (n : nat) :
  0 < n ->
  let w := Nat.sqrt n in
  let h := n / w in
  0 < w /\ w * h <= n /\ n < w * h + w /\ w <= h /\ h <= w + 2.
Proof.
  intros Hn w h.
  assert (Hw : 0 < w) by (apply sqrt_positive; exact Hn).
  pose proof (Nat.sqrt_specif n) as [Hlo Hhi]. fold w in Hlo, Hhi.
  pose proof (Nat.div_mod_eq n w) as Hdm. fold h in Hdm.
  pose proof (Nat.mod_upper_bound n w ltac:(lia)) as Hm.
  split; [exact Hw|]. split; [lia|]. split; [lia|]. split.
  - unfold h. apply Nat.div_le_lower_bound; lia.
  - unfold h. apply Nat.Div0.div_le_upper_bound. nia.
Qed.

(** The body when the size is computed from the data. *)
Lemma body_computed (encrypted_data : bytes) (original_size : option (nat * nat)) :
  encrypted_data <> [] ->
  match original_size with
  | Some size => len encrypted_data < fst size * snd size
  | None => True
  end ->
  let w := Nat.sqrt (len encrypted_data) in
  let h := len encrypted_data / w in
  visualization_body encrypted_data original_size
  = inr {| PIL.mode := "L"; PIL.width := w; PIL.height := h;
           PIL.pixels := map Bytes.to_Z (firstn (w * h) encrypted_data) |}.
Proof.
  intros Hne Hsize w h.
  assert (Hn : 0 < len encrypted_data)
    by (destruct encrypted_data; [congruence|simpl; lia]).
  destruct (@sqrt_rectangle (len encrypted_data) Hn) as (Hw & Hle & _).
  fold w in Hw, Hle. fold h in Hle.
  assert (Htarget :
            (let width := int_sqrt (len (items (frombuffer encrypted_data))) in
             match floordiv (len (items (frombuffer encrypted_data))) width with
             | inl e => inl e
             | inr height => inr (width, height)
             end) = inr (w, h)).
  { cbn [frombuffer items]. rewrite length_map. cbv zeta.
    unfold int_sqrt, floordiv. fold w.
    replace (w =? 0) with false by (symmetry; apply Nat.eqb_neq; lia).
    reflexivity. }
  unfold visualization_body.
  assert (Hts :
            match original_size with
            | Some original_size =>
                let total_pixels := len (items (frombuffer encrypted_data)) in
                if total_pixels <? fst original_size * snd original_size then
                  let width := int_sqrt total_pixels in
                  match floordiv total_pixels width with
                  | inl e => inl e
                  | inr height => inr (width, height)
                  end
                else inr original_size
            | None =>
                let width := int_sqrt (len (items (frombuffer encrypted_data))) in
                match floordiv (len (items (frombuffer encrypted_data))) width with
                | inl e => inl e
                | inr height => inr (width, height)
                end
            end = inr (w, h)).
  { destruct original_size as [size|]; [|exact Htarget].
    cbv zeta. cbn [frombuffer items]. rewrite length_map.
    replace (len encrypted_data <? fst size * snd size) with true
      by (symmetry; apply Nat.ltb_lt; exact Hsize).
    cbv zeta in Htarget. cbn [frombuffer items] in Htarget.
    rewrite length_map in Htarget. exact Htarget. }
  cbv zeta. cbv zeta in Hts. rewrite Hts. cbn [fst snd].
  unfold reshape. cbn [items frombuffer].
  rewrite length_firstn, length_map.
  replace (Nat.min (w * h) (len encrypted_data) =? h * w) with true
    by (symmetry; apply Nat.eqb_eq; lia).
  cbn [items]. unfold PIL.fromarray. rewrite firstn_map. reflexivity.
Qed.

(** The body when the original size is kept. *)
Lemma body_original (encrypted_data : bytes) (W H : nat) :
  W * H <= len encrypted_data ->
  visualization_body encrypted_data (Some (W, H))
  = inr {| PIL.mode := "L"; PIL.width := W; PIL.height := H;
           PIL.pixels := map Bytes.to_Z (firstn (W * H) encrypted_data) |}.
Proof.
  intros Hle. unfold visualization_body. cbv zeta.
  cbn [frombuffer items fst snd]. rewrite length_map.
  replace (len encrypted_data <? W * H) with false
    by (symmetry; apply Nat.ltb_ge; exact Hle).
  cbn [fst snd]. unfold reshape. cbn [items].
  rewrite length_firstn, length_map.
  replace (Nat.min (W * H) (len encrypted_data) =? H * W) with true
    by (symmetry; apply Nat.eqb_eq; lia).
  cbn [items]. unfold PIL.fromarray. rewrite firstn_map. reflexivity.
Qed.

End VisualizationFacts.

Module VisualizationTheorems.
Import NumPy visualization VisualizationFacts.

(** X5: without an original size, [create_visualization_image] on data
    that is not empty returns a grayscale image whose width is the integer
    square root of the number of bytes and whose height is the number of
    bytes divided by the width; its pixels are the first width * height
    bytes, so fewer than width bytes are left out, and the image is at
    most two rows taller than wide. *)
Theorem visualization_computed_size (encrypted_data : bytes) :
  encrypted_data <> [] ->
  let n := len encrypted_data in
  let w := Nat.sqrt n in
  let h := n / w in
  create_visualization_image encrypted_data None
  = Return {| PIL.mode := "L"; PIL.width := w; PIL.height := h;
              PIL.pixels := map Bytes.to_Z (firstn (w * h) encrypted_data) |} /\
  len (map Bytes.to_Z (firstn (w * h) encrypted_data)) = w * h /\
  0 < w /\ w * h <= n /\ n < w * h + w /\ w <= h /\ h <= w + 2.
Proof.
  intros Hne n w h.
  assert (Hn : 0 < n)
    by (unfold n; destruct encrypted_data; [congruence|simpl; lia]).
  destruct (@sqrt_rectangle n Hn) as (Hw & Hle & Hlt & Hwh & Hhw).
  fold w in Hw, Hle, Hlt, Hwh, Hhw. fold h in Hle, Hlt, Hwh, Hhw.
  split.
  - unfold create_visualization_image.
    rewrite (@body_computed encrypted_data None Hne I). reflexivity.
  - rewrite length_map, length_firstn. fold n. repeat split; lia.
Qed.

Lemma visualization_computed_size_witness :
  repeat x07 10 <> [] /\
  create_visualization_image (repeat x07 10) None
  = Return {| PIL.mode := "L"; PIL.width := 3; PIL.height := 3;
              PIL.pixels := repeat 7%Z 9 |}.
Proof.
  split; [discriminate|].
  destruct (@visualization_computed_size (repeat x07 10)) as (H & _);
    [discriminate|].
  exact H.
Defined.

(** X6: with an original size [(W, H)], [create_visualization_image]
    keeps that size when the data has at least W * H bytes and shows the
    first W * H of them; when the data has fewer bytes it falls back to
    the size computed from the data, as if no size had been given. *)
Theorem visualization_original_size (encrypted_data : bytes) (W H : nat) :
  (0 < W * H -> W * H <= len encrypted_data ->
   create_visualization_image encrypted_data (Some (W, H))
   = Return {| PIL.mode := "L"; PIL.width := W; PIL.height := H;
               PIL.pixels := map Bytes.to_Z (firstn (W * H) encrypted_data) |}) /\
  (len encrypted_data < W * H ->
   create_visualization_image encrypted_data (Some (W, H))
   = create_visualization_image encrypted_data None).
Proof.
  split.
  - intros _ Hle. unfold create_visualization_image.
    rewrite body_original by exact Hle. reflexivity.
  - intros Hlt. unfold create_visualization_image.
    destruct encrypted_data as [|b data].
    + unfold visualization_body. cbv zeta. cbn [frombuffer items map length fst snd].
      replace (0 <? W * H) with true by (symmetry; apply Nat.ltb_lt; exact Hlt).
      reflexivity.
    + rewrite (@body_computed (b :: data) (Some (W, H)))
        by (discriminate || exact Hlt).
      rewrite (@body_computed (b :: data) None) by (discriminate || exact I).
      reflexivity.
Qed.

Lemma visualization_original_size_witness :
  create_visualization_image (repeat x07 10) (Some (2, 4))
  = Return {| PIL.mode := "L"; PIL.width := 2; PIL.height := 4;
              PIL.pixels := repeat 7%Z 8 |} /\
  create_visualization_image (repeat x07 10) (Some (4, 4))
  = create_visualization_image (repeat x07 10) None.
Proof.
  destruct (@visualization_original_size (repeat x07 10) 2 4) as (H1 & _).
  destruct (@visualization_original_size (repeat x07 10) 4 4) as (_ & H2).
  split; [apply H1; simpl; lia|apply H2; simpl; lia].
Defined.

(** X7: without an original size, [create_visualization_image] fails
    exactly on the empty data: the width is then 0 and the division by it
    raises, which the function reports as a [CryptoError]. *)
Theorem visualization_fails_on_empty (encrypted_data : bytes) :
  (encrypted_data = [] <->
   raises (create_visualization_image encrypted_data None) = true) /\
  (encrypted_data = [] <->
   exists msg,
     create_visualization_image encrypted_data None
     = Raise (CryptoError
                ("Failed to create visualization image: " ++ msg)%string)).
Proof.
  destruct encrypted_data as [|b data].
  - split; split; intros; try reflexivity.
    eexists. reflexivity.
  - unfold create_visualization_image.
    rewrite (@body_computed (b :: data) None) by (discriminate || exact I).
    split; split; intros H; try discriminate.
    destruct H as (msg & H). discriminate H.
Qed.

End VisualizationTheorems.

Module HistogramFacts.
Import NumPy Counting.

Lemma max_item_bytes (data : bytes) :
  (fold_right Z.max (-1) (map Bytes.to_Z data) <= 255)%Z.
Proof.
  induction data as [|b data IH]; simpl; [lia|].
  pose proof (BytesFacts.to_Z_range b). lia.
Qed.

(** On bytes the histogram has exactly 256 bins. *)
Lemma bincount_bytes (data : bytes) :
  bincount (frombuffer data) 256
  = map (fun v => occurrences (Z.of_nat v) (map Bytes.to_Z data)) (seq 0 256).
Proof.
  unfold bincount. cbn [frombuffer items].
  pose proof (max_item_bytes data) as Hmax.
  replace (Nat.max 256 (Z.to_nat (fold_right Z.max (-1)%Z (map Bytes.to_Z data) + 1)))
    with 256 by lia.
  reflexivity.
Qed.

Lemma bincount_length (data : bytes) : len (bincount (frombuffer data) 256) = 256.
Proof. rewrite bincount_bytes, length_map, length_seq. reflexivity. Qed.

(** Over a range of values, exactly one bin matches a value of the range. *)
Lemma indicator_sum (z : Z) (a n : nat) :
  list_sum (map (fun v => if (Z.of_nat v =? z)%Z then 1 else 0) (seq a n))
  = if ((Z.of_nat a <=? z) && (z <? Z.of_nat (a + n)))%Z then 1 else 0.
Proof.
  revert a. induction n as [|n IH]; intros a.
  - simpl. destruct (Z.of_nat a <=? z)%Z eqn:E1; [|reflexivity].
    replace (z <? Z.of_nat (a + 0))%Z with false; [reflexivity|].
    symmetry. apply Z.ltb_ge. apply Z.leb_le in E1. lia.
  - cbn [seq map list_sum fold_right]. rewrite IH.
    destruct (Z.of_nat a =? z)%Z eqn:E.
    + apply Z.eqb_eq in E.
      replace (Z.of_nat (S a) <=? z)%Z with false
        by (symmetry; apply Z.leb_gt; lia).
      replace (Z.of_nat a <=? z)%Z with true
        by (symmetry; apply Z.leb_le; lia).
      replace (z <? Z.of_nat (a + S n))%Z with true
        by (symmetry; apply Z.ltb_lt; lia).
      reflexivity.
    + apply Z.eqb_neq in E.
      replace (Z.of_nat (S a) <=? z)%Z with (Z.of_nat a <=? z)%Z.
      2:{ destruct (Z.of_nat a <=? z)%Z eqn:E1.
          - apply Z.leb_le in E1. symmetry. apply Z.leb_le. lia.
          - apply Z.leb_gt in E1. symmetry. apply Z.leb_gt. lia. }
      replace (S a + n) with (a + S n) by lia. reflexivity.
Qed.

Lemma list_sum_map_add {A} (f g : A -> nat) (l : list A) :
  list_sum (map (fun x => f x + g x) l)
  = list_sum (map f l) + list_sum (map g l).
Proof.
  induction l as [|x l IH]; [reflexivity|].
  cbn [map list_sum fold_right]. fold (list_sum (map (fun x => f x + g x) l)).
  fold (list_sum (map f l)). fold (list_sum (map g l)). lia.
Qed.

(** The counts of a histogram add up to the number of bytes. *)
Lemma bincount_sum (data : bytes) :
  list_sum (bincount (frombuffer data) 256) = len data.
Proof.
  rewrite bincount_bytes.
  induction data as [|b data IH]; [reflexivity|].
  cbn [map length].
  transitivity
    (list_sum (map (fun v =>
                      (if (Z.of_nat v =? Bytes.to_Z b)%Z then 1 else 0)
                      + occurrences (Z.of_nat v) (map Bytes.to_Z data))
                   (seq 0 256))).
  - f_equal. apply map_ext. intros v. unfold occurrences. cbn [filter].
    destruct (Z.of_nat v =? Bytes.to_Z b)%Z; reflexivity.
  - rewrite list_sum_map_add, IH, indicator_sum.
    pose proof (BytesFacts.to_Z_range b) as Hb.
    replace ((Z.of_nat 0 <=? Bytes.to_Z b) && (Bytes.to_Z b <? Z.of_nat (0 + 256)))%Z
      with true; [reflexivity|].
    symmetry. apply andb_true_iff. split; [apply Z.leb_le|apply Z.ltb_lt]; lia.
Qed.

Lemma occurrences_count_occ (b : byte) (data : bytes) :
  occurrences (Bytes.to_Z b) (map Bytes.to_Z data)
  = count_occ Byte.byte_eq_dec data b.
Proof.
  unfold occurrences. induction data as [|c data IH]; [reflexivity|].
  cbn [map filter count_occ].
  destruct (Byte.byte_eq_dec c b) as [->|Hne].
  - rewrite Z.eqb_refl. cbn [length]. rewrite IH. reflexivity.
  - replace (Bytes.to_Z b =? Bytes.to_Z c)%Z with false; [exact IH|].
    symmetry. apply Z.eqb_neq. intros E. apply Hne.
    rewrite <- (BytesFacts.of_to_Z c), <- (BytesFacts.of_to_Z b), E.
    reflexivity.
Qed.

(** The bin of a byte value holds the number of its occurrences. *)
Lemma bincount_nth (data : bytes) (b : byte) :
  nth (Byte.to_nat b) (bincount (frombuffer data) 256) 0
  = count_occ Byte.byte_eq_dec data b.
Proof.
  rewrite bincount_bytes.
  assert (Hb : Byte.to_nat b < 256).
  { rewrite Byte.to_nat_via_N. pose proof (Byte.to_N_bounded b). lia. }
  set (f := fun v => occurrences (Z.of_nat v) (map Bytes.to_Z data)).
  rewrite (nth_indep _ 0 (f 0))
    by (rewrite length_map, length_seq; exact Hb).
  rewrite (map_nth f), seq_nth by exact Hb. cbn [Nat.add]. unfold f.
  replace (Z.of_nat (Byte.to_nat b)) with (Bytes.to_Z b).
  - apply occurrences_count_occ.
  - unfold Bytes.to_Z. rewrite Byte.to_nat_via_N. lia.
Qed.

Lemma occurrences_permutation (z : Z) (l l' : list Z) :
  Permutation l l' -> occurrences z l = occurrences z l'.
Proof.
  unfold occurrences. induction 1 as [|x l l' _ IH|x y l|l l' l'' _ IH1 _ IH2].
  - reflexivity.
  - cbn [filter]. destruct (z =? x)%Z; cbn [length]; congruence.
  - cbn [filter]. destruct (z =? x)%Z, (z =? y)%Z; reflexivity.
  - congruence.
Qed.

End HistogramFacts.

Module HistogramTheorems.
Import NumPy Counting Matplotlib histogram analysis HistogramFacts.

(** X8: [generate_histogram_figure] never fails: for any two buffers, the
    empty one included, it returns a figure of two bar charts, the
    original first, each with one bar per byte value 0..255; the height
    of the bar of a value is the number of its occurrences in the buffer,
    and the heights add up to the length of the buffer. *)
Theorem histogram_figure (image_data encrypted_data : bytes) :
  exists ax1 ax2,
    generate_histogram_figure image_data encrypted_data
    = Return {| figsize := (10, 4); axes := [ax1; ax2] |} /\
    bar_x ax1 = seq 0 256 /\ bar_x ax2 = seq 0 256 /\
    len (bar_height ax1) = 256 /\ len (bar_height ax2) = 256 /\
    list_sum (bar_height ax1) = len image_data /\
    list_sum (bar_height ax2) = len encrypted_data /\
    (forall b : byte,
        nth (Byte.to_nat b) (bar_height ax1) 0
        = count_occ Byte.byte_eq_dec image_data b) /\
    (forall b : byte,
        nth (Byte.to_nat b) (bar_height ax2) 0
        = count_occ Byte.byte_eq_dec encrypted_data b).
Proof.
  unfold generate_histogram_figure, subplot, bar.
  rewrite !bincount_length, length_seq. cbn [Nat.eqb bind try_except].
  eexists _, _. split; [reflexivity|]. cbn [bar_x bar_height].
  repeat split; try apply bincount_length; try apply bincount_sum;
    intros b; apply bincount_nth.
Qed.

(** X9: the entropy depends on the histogram only: two buffers that are
    permutations of each other have the same entropy. *)
Theorem entropy_permutation (fn : elementary) (data data' : bytes) :
  Permutation data data' ->
  calculate_entropy fn data = calculate_entropy fn data'.
Proof.
  intros Hp. unfold calculate_entropy.
  rewrite !bincount_bytes, (Permutation_length Hp).
  replace (map (fun v => occurrences (Z.of_nat v) (map Bytes.to_Z data))
               (seq 0 256))
    with (map (fun v => occurrences (Z.of_nat v) (map Bytes.to_Z data'))
              (seq 0 256)); [reflexivity|].
  apply map_ext. intros v. symmetry. apply occurrences_permutation.
  apply Permutation_map. exact Hp.
Qed.

Lemma entropy_permutation_witness :
  Permutation [x01; x02; x02] [x02; x01; x02] /\
  calculate_entropy Instances.integer_parts [x01; x02; x02]
  = calculate_entropy Instances.integer_parts [x02; x01; x02].
Proof.
  assert (H : Permutation [x01; x02; x02] [x02; x01; x02])
    by apply perm_swap.
  split; [exact H|].
  apply (@entropy_permutation Instances.integer_parts _ _ H).
Defined.

End HistogramTheorems.

Module CorrelationFacts.
Import NumPy analysis.

Lemma length_removelast {A} (l : list A) : len (removelast l) = len l - 1.
Proof.
  rewrite removelast_firstn_len, length_firstn. lia.
Qed.

(** The rows of an array whose items fill its shape all have the width. *)
Lemma rows_uniform (h w : nat) (xs : list float) :
  len xs = h * w -> Forall (fun row => len row = w) (rows h w xs).
Proof.
  intros Hlen. unfold rows. apply Forall_forall. intros row Hin.
  apply in_map_iff in Hin. destruct Hin as (i & <- & Hi).
  apply in_seq in Hi. rewrite length_firstn, length_skipn, Hlen.
  assert (w <= h * w - i * w) by nia. lia.
Qed.

Lemma concat_uniform {A} (w : nat) (rs : list (list A)) :
  Forall (fun row => len row = w) rs -> len (concat rs) = len rs * w.
Proof.
  induction 1 as [|row rs Hrow _ IH]; [reflexivity|].
  cbn [concat length]. rewrite length_app, IH, Hrow. lia.
Qed.

Lemma Forall_map_removelast {A} (w : nat) (rs : list (list A)) :
  Forall (fun row => len row = w) rs ->
  Forall (fun row => len row = w - 1) (map (@removelast A) rs).
Proof.
  intros H. apply Forall_map. eapply Forall_impl; [|exact H].
  intros row Hrow. cbv beta. rewrite length_removelast, Hrow. reflexivity.
Qed.

Lemma Forall_map_tl {A} (w : nat) (rs : list (list A)) :
  Forall (fun row => len row = w) rs ->
  Forall (fun row => len row = w - 1) (map (@tl A) rs).
Proof.
  intros H. apply Forall_map. eapply Forall_impl; [|exact H].
  intros row Hrow. cbv beta. rewrite length_tl, Hrow. reflexivity.
Qed.

(** The two views of each direction have as many items. *)
Lemma horizontal_views {A} (w : nat) (rs : list (list A)) :
  Forall (fun row => len row = w) rs ->
  len (concat (map (@removelast A) rs)) = len (concat (map (@tl A) rs)).
Proof.
  intros H.
  rewrite (concat_uniform (Forall_map_removelast H)).
  rewrite (concat_uniform (Forall_map_tl H)).
  rewrite !length_map. reflexivity.
Qed.

Lemma vertical_views {A} (w : nat) (rs : list (list A)) :
  Forall (fun row => len row = w) rs ->
  len (concat (removelast rs)) = len (concat (tl rs)).
Proof.
  intros H.
  rewrite (concat_uniform (AnalysisFacts.Forall_removelast H)).
  rewrite (concat_uniform (AnalysisFacts.Forall_tl H)).
  rewrite length_removelast, length_tl. reflexivity.
Qed.

Lemma diagonal_views {A} (w : nat) (rs : list (list A)) :
  Forall (fun row => len row = w) rs ->
  len (concat (map (@removelast A) (removelast rs)))
  = len (concat (map (@tl A) (tl rs))).
Proof.
  intros H.
  rewrite (concat_uniform
             (Forall_map_removelast (AnalysisFacts.Forall_removelast H))).
  rewrite (concat_uniform (Forall_map_tl (AnalysisFacts.Forall_tl H))).
  rewrite !length_map, length_removelast, length_tl. reflexivity.
Qed.

(** [np.corrcoef] returns on samples of one length. *)
Lemma corrcoef_returns (fn : elementary) (x y : list float) :
  len x = len y -> exists v, corrcoef fn x y = Return v.
Proof.
  intros H. unfold corrcoef, cov. rewrite H, Nat.eqb_refl. cbn [negb bind].
  eexists. reflexivity.
Qed.

(** On a two-dimensional array whose items fill its shape the three
    coefficients are computed. *)
Lemma correlation_returns (fn : elementary) (image : ndarray) (h w : nat) :
  shape image = [h; w] -> wf image ->
  exists c, calculate_correlation fn image = Return c.
Proof.
  intros Hshape Hwf. unfold calculate_correlation. rewrite Hshape.
  cbn [bind try_except].
  assert (Hlen : len (map of_Z (items image)) = h * w).
  { rewrite length_map. unfold wf, size in Hwf. rewrite Hshape in Hwf.
    cbn [fold_right] in Hwf. lia. }
  pose proof (rows_uniform h w _ Hlen) as Hrows.
  set (image_rows := rows h w (map of_Z (items image))) in *.
  unfold calculate_direction_correlation.
  destruct (corrcoef_returns fn _ _ (horizontal_views Hrows)) as (hor & ->).
  destruct (corrcoef_returns fn _ _ (vertical_views Hrows)) as (ver & ->).
  destruct (corrcoef_returns fn _ _ (diagonal_views Hrows)) as (dia & ->).
  cbn [bind try_except]. eexists. reflexivity.
Qed.

Lemma column_wf (data : bytes) : wf (reshape_column (frombuffer data)).
Proof.
  unfold wf, reshape_column, frombuffer, size. cbn [items shape fold_right].
  rewrite length_map. lia.
Qed.

Lemma column_shape (data : bytes) :
  shape (reshape_column (frombuffer data)) = [len data; 1].
Proof.
  unfold reshape_column, frombuffer, size. cbn [shape fold_right].
  rewrite Nat.mul_1_r. reflexivity.
Qed.

End CorrelationFacts.

Module CorrelationTheorems.
Import NumPy analysis CorrelationFacts.

(** X10: [calculate_correlation] needs a two-dimensional array.  On every
    array of shape [(h, w)] whose items fill the shape it returns the
    three coefficients (each possibly NaN); on an array of fewer than two
    dimensions, such as the one [np.frombuffer] gives, and on one of more
    than three, it raises an [AnalysisError]. *)
Theorem correlation_dimensions (fn : elementary) (image : ndarray) :
  (forall h w : nat,
      shape image = [h; w] -> wf image ->
      exists c, calculate_correlation fn image = Return c) /\
  (len (shape image) < 2 \/ 3 < len (shape image) ->
   exists msg,
     calculate_correlation fn image
     = Raise (AnalysisError
                ("Correlation calculation failed: " ++ msg)%string)).
Proof.
  split.
  - intros h w. apply correlation_returns.
  - intros Hdim. unfold calculate_correlation.
    destruct (shape image) as [|h [|w [|c [|d rest]]]]; cbn [length] in Hdim;
      try lia; cbn [bind try_except]; eexists; reflexivity.
Qed.

Lemma correlation_dimensions_witness :
  (exists c,
      calculate_correlation Instances.integer_parts
        {| shape := [2; 3]; items := [1; 2; 3; 4; 5; 7]%Z |} = Return c) /\
  (exists msg,
      calculate_correlation Instances.integer_parts
        (frombuffer [x01; x02; x03])
      = Raise (AnalysisError
                 ("Correlation calculation failed: " ++ msg)%string)).
Proof.
  split.
  - destruct (@correlation_dimensions Instances.integer_parts
                {| shape := [2; 3]; items := [1; 2; 3; 4; 5; 7]%Z |})
      as (H & _).
    apply (H 2 3); reflexivity.
  - destruct (@correlation_dimensions Instances.integer_parts
                (frombuffer [x01; x02; x03])) as (_ & H).
    apply H. left. cbn. lia.
Defined.

End CorrelationTheorems.

Module RateFacts.
Import NumPy analysis ChangeRateFacts RoundingFacts Float32Facts.

Lemma map_combine_swap {A B} (f g : A * A -> B) (xs ys : list A) :
  (forall x y, f (x, y) = g (y, x)) ->
  map f (combine xs ys) = map g (combine ys xs).
Proof.
  intros H. revert ys. induction xs as [|x xs IH]; intros [|y ys];
    cbn [combine map]; try reflexivity.
  rewrite H, IH. reflexivity.
Qed.

Lemma diff_array_sym (a b : ndarray) : diff_array a b = diff_array b a.
Proof.
  unfold diff_array. apply map_combine_swap. intros x y. cbn [fst snd].
  rewrite Z.eqb_sym. reflexivity.
Qed.

(** The absolute value of a [float32] difference does not depend on the
    order of the operands, whatever they are. *)
Lemma fabs_round_opp (p q : Q) :
  (q == - p)%Q -> fabs (round binary32 p) = fabs (round binary32 q).
Proof.
  intros E. rewrite (round_comp binary32 E), round_opp.
  destruct (round binary32 p) as [|s|r]; try reflexivity.
  cbn [fneg fabs]. unfold fin. cbn [fabs]. apply fin_eq.
  rewrite Qred_correct. symmetry. apply Qabs_opp.
Qed.

Lemma fabs_sub32_sym (u v : float) : fabs (sub32 u v) = fabs (sub32 v u).
Proof.
  unfold sub32, fsub.
  destruct u as [|s|p], v as [|t|q]; try reflexivity.
  - destruct s, t; reflexivity.
  - cbn [fneg]. unfold fin. cbn [fadd]. rewrite !as_float32_fin.
    apply fabs_round_opp. rewrite !Qred_correct. ring.
Qed.

Lemma abs_diff_sym (a b : ndarray) : abs_diff a b = abs_diff b a.
Proof.
  unfold abs_diff. apply map_combine_swap. intros x y. cbn [fst snd].
  apply fabs_sub32_sym.
Qed.

Lemma count_diff_zero (xs ys : list Z) :
  len xs = len ys -> (ChangeRates.count_diff xs ys = 0 <-> xs = ys).
Proof.
  unfold ChangeRates.count_diff. revert ys.
  induction xs as [|x xs IH]; intros [|y ys] Hlen; try discriminate.
  - split; reflexivity.
  - cbn [combine filter fst snd]. injection Hlen as Hlen.
    destruct (x =? y)%Z eqn:E; cbn [negb].
    + apply Z.eqb_eq in E. subst y. rewrite (IH ys Hlen).
      split; [intros ->; reflexivity|intros [= ->]; reflexivity].
    + apply Z.eqb_neq in E. cbn [length].
      split; [discriminate|intros [= ? _]; contradiction].
Qed.

(** The product by [100.0] of a sum that is at least 1. *)
Lemma mul32_100_at_least (x : float) :
  at_least 1 x -> at_least 1 (mul32 (Fin 100) x).
Proof.
  intros [->|(q & -> & Hq)]; [left; reflexivity|].
  unfold mul32. cbn [fmul]. rewrite as_float32_fin.
  apply round32_at_least_1. lra.
Qed.

Lemma pow2_63_representable : representable binary32 (pow2 63).
Proof.
  exists 1%Z, 63%Z. split; [split; reflexivity|]. split; [discriminate|].
  change (inject_Z 1) with 1%Q. ring.
Qed.

(** The size of an array, as a [float32]: finite, between 1 and [2^63]. *)
Lemma npcr_divisor_bounded (n : nat) :
  n <> 0 -> (Z.of_nat n <= maxsize)%Z ->
  exists v, as_float32 (of_nat n) = Fin v /\ (1 <= v <= pow2 63)%Q.
Proof.
  intros Hn Hmax. unfold maxsize in Hmax.
  unfold of_nat, of_Z. cbn [as_float32].
  set (q := inject_Z (Z.of_nat n)).
  assert (H1 : (pow2 0 <= q)%Q).
  { change (pow2 0) with (inject_Z 1). unfold q. rewrite <- Zle_Qle. lia. }
  assert (H2 : (q <= pow2 63)%Q).
  { rewrite <- pow2_Z by discriminate. unfold q. rewrite <- Zle_Qle. lia. }
  assert (Hq : (0 < q)%Q) by (change (pow2 0) with 1%Q in H1; lra).
  pose proof (nearest_le binary32_precision Hq H2 pow2_63_representable)
    as Hle.
  assert (He : (emin binary32 <= 0)%Z) by (cbn; lia).
  pose proof (nearest_ge_pow2 binary32 binary32_precision H1 He) as Hge.
  exists (Qred (nearest binary32 q)). split.
  - apply round_finite; [exact Hq|].
    apply Qle_lt_trans with (pow2 63); [exact Hle|].
    apply pow2_lt. reflexivity.
  - rewrite Qred_correct. change (pow2 0) with 1%Q in Hge. split; assumption.
Qed.

(** A quotient of a value that is at least 1 by such a size is not zero. *)
Lemma div32_nonzero (x : float) (v : Q) :
  at_least 1 x -> (1 <= v <= pow2 63)%Q -> div32 x (Fin v) <> Fin 0.
Proof.
  intros [->|(q & -> & Hq)] [Hv1 Hv2]; unfold div32; cbn [fdiv].
  - discriminate.
  - rewrite Qzero_nonzero by lra. rewrite as_float32_fin.
    assert (Hlow : (pow2 (-63) <= q / v)%Q).
    { apply Qle_shift_div_l; [lra|].
      assert (E : (pow2 (-63) * pow2 63 == 1)%Q)
        by (rewrite <- pow2_add; reflexivity).
      pose proof (pow2_pos (-63)). nra. }
    assert (He : (emin binary32 <= -63)%Z) by (cbn; lia).
    destruct (round_at_least binary32 binary32_precision He Hlow)
      as [->|(r & -> & Hr)]; [discriminate|].
    intros [= ->]. pose proof (pow2_pos (-63)). lra.
Qed.

End RateFacts.

Module RateFacts2.
Import NumPy analysis ChangeRateFacts RoundingFacts Float32Facts RateSums
       RatePercent RateFacts CorrelationFacts.

Lemma bytes_range (data : bytes) : Forall uint8 (map Bytes.to_Z data).
Proof.
  apply Forall_map. apply Forall_forall. intros b _.
  pose proof (BytesFacts.to_Z_range b). unfold uint8. lia.
Qed.

Lemma to_Z_injective (xs ys : bytes) :
  map Bytes.to_Z xs = map Bytes.to_Z ys -> xs = ys.
Proof.
  revert ys. induction xs as [|x xs IH]; intros [|y ys] H;
    try discriminate; [reflexivity|].
  cbn [map] in H. injection H as Hxy Hrest.
  rewrite (IH ys Hrest).
  rewrite <- (BytesFacts.of_to_Z x), <- (BytesFacts.of_to_Z y), Hxy.
  reflexivity.
Qed.

Lemma column_size (data : bytes) :
  size (reshape_column (frombuffer data)) = len data.
Proof.
  unfold size. rewrite column_shape. cbn [fold_right]. lia.
Qed.

Lemma column_items (data : bytes) :
  items (reshape_column (frombuffer data)) = map Bytes.to_Z data.
Proof. reflexivity. Qed.

(** What [calculate_npcr_uaci] computes on the column arrays of two
    buffers of one length. *)
Lemma rates_of_buffers (original encrypted : bytes) :
  len original = len encrypted ->
  let a := reshape_column (frombuffer original) in
  let b := reshape_column (frombuffer encrypted) in
  calculate_npcr_uaci a b
  = Return
      {| npcr := div32 (mul32 (Fin 100) (sum32 (diff_array a b)))
                       (as_float32 (of_nat (len original)));
         uaci := div32 (mul32 (Fin 100) (sum32 (abs_diff a b)))
                       (as_float32
                          (mul64 (Fin 255)
                                 (as_float64 (of_nat (len original))))) |}.
Proof.
  intros Hlen a b. unfold a, b. rewrite npcr_uaci_returns.
  - rewrite column_size. reflexivity.
  - rewrite !column_shape, Hlen. reflexivity.
Qed.

(** The two sums on buffers of one length: the number of positions that
    differ, and the sum of the differences, which is at most 255 times
    the length. *)
Lemma sums_of_buffers (original encrypted : bytes) :
  let a := reshape_column (frombuffer original) in
  let b := reshape_column (frombuffer encrypted) in
  let count :=
    Z.of_nat (ChangeRates.count_diff (map Bytes.to_Z original)
                                     (map Bytes.to_Z encrypted)) in
  let sum :=
    ChangeRates.sum_abs_diff (map Bytes.to_Z original)
                             (map Bytes.to_Z encrypted) in
  Counting.counts (sum32 (diff_array a b)) count /\
  Counting.counts (sum32 (abs_diff a b)) sum /\
  (0 <= count <= Z.of_nat (len original))%Z /\
  (0 <= sum <= 255 * Z.of_nat (len original))%Z.
Proof.
  intros a b count sum. split; [apply sum32_diff_array|].
  split; [apply sum32_abs_diff; apply bytes_range|]. split.
  - pose proof (count_diff_le (map Bytes.to_Z original)
                              (map Bytes.to_Z encrypted)) as H.
    rewrite length_map in H. unfold count. lia.
  - pose proof (@sum_abs_diff_range _ _ (bytes_range original)
                                    (bytes_range encrypted)) as H.
    rewrite length_map in H. exact H.
Qed.

End RateFacts2.

Module RateTheorems.
Import NumPy analysis ChangeRateFacts RoundingFacts Float32Facts RateSums
       RatePercent RateFacts RateFacts2 CorrelationFacts.

(** X11: NPCR and UACI are symmetric: [calculate_npcr_uaci] gives the same
    outcome, rates or error, when its two arrays are exchanged. *)
Theorem npcr_uaci_symmetric (a b : ndarray) :
  calculate_npcr_uaci a b = calculate_npcr_uaci b a.
Proof.
  unfold calculate_npcr_uaci.
  destruct (list_eq_dec Nat.eq_dec (shape a) (shape b)) as [E|E].
  - rewrite (shape_eqb_true E), (shape_eqb_true (eq_sym E)).
    cbn [negb]. rewrite (diff_array_sym a b), (abs_diff_sym a b).
    unfold size. rewrite E. reflexivity.
  - rewrite (shape_eqb_false E).
    rewrite (@shape_eqb_false (shape b) (shape a)) by congruence.
    reflexivity.
Qed.

(** X12: on two byte buffers of one length, of 1 to 65793 bytes (so that
    the sum of the differences is below [2^24]), both rates are finite;
    NPCR lies between 0 and 100, and UACI between 0 and [100 + 2^-17]:
    the product [100.0 * sum] is rounded to [float32] before the
    division, and the quotient can exceed 100.  It does on 2633 bytes
    [0x00] against 2633 bytes [0xff], where UACI is [100 + 2^-17]. *)
Theorem rates_bounds (original encrypted : bytes) :
  len original = len encrypted -> original <> [] ->
  (255 * Z.of_nat (len original) <= 2 ^ 24)%Z ->
  (exists p u : Q,
     calculate_npcr_uaci (reshape_column (frombuffer original))
                         (reshape_column (frombuffer encrypted))
     = Return {| npcr := Fin p; uaci := Fin u |} /\
     (0 <= p <= 100)%Q /\ (0 <= u <= 100 + pow2 (-17))%Q) /\
  calculate_npcr_uaci (reshape_column (frombuffer (repeat x00 2633)))
                      (reshape_column (frombuffer (repeat xff 2633)))
  = Return {| npcr := Fin 100; uaci := Fin (13107201 # 131072) |} /\
  (13107201 # 131072 == 100 + pow2 (-17))%Q.
Proof.
  intros Hlen Hne Hsmall.
  split; [|split; [vm_compute; reflexivity|reflexivity]].
  assert (Hn : (1 <= Z.of_nat (len original))%Z)
    by (destruct original; [congruence|cbn [length]; lia]).
  rewrite (rates_of_buffers _ _ Hlen). cbv zeta.
  destruct (sums_of_buffers original encrypted)
    as ((_ & Hd & _) & (_ & Ha & _) & Hcount & Hsum).
  rewrite Hd, Ha by lia.
  rewrite npcr_divisor, uaci_divisor by lia.
  destruct (@percentage
              (Z.of_nat (ChangeRates.count_diff (map Bytes.to_Z original)
                                                (map Bytes.to_Z encrypted)))
              (Z.of_nat (len original)))
    as (p & Hp & Hp0 & _ & _ & Hp100); [lia|lia|].
  destruct (@percentage
              (ChangeRates.sum_abs_diff (map Bytes.to_Z original)
                                        (map Bytes.to_Z encrypted))
              (255 * Z.of_nat (len original)))
    as (u & Hu & Hu0 & _ & Hu100 & _); [lia|lia|].
  exists p, u. unfold of_nat. rewrite Hp, Hu.
  split; [reflexivity|]. split; split; try assumption.
  - apply Hp100; lia.
  - apply Hu100. lia.
Qed.

Lemma rates_bounds_witness :
  len [x00; x10; xff] = len [xff; x10; x00] /\ [x00; x10; xff] <> [] /\
  (255 * Z.of_nat (len [x00; x10; xff]) <= 2 ^ 24)%Z /\
  exists p u : Q,
    calculate_npcr_uaci (reshape_column (frombuffer [x00; x10; xff]))
                        (reshape_column (frombuffer [xff; x10; x00]))
    = Return {| npcr := Fin p; uaci := Fin u |} /\
    (0 <= p <= 100)%Q /\ (0 <= u <= 100 + pow2 (-17))%Q.
Proof.
  split; [reflexivity|]. split; [discriminate|]. split; [cbn; lia|].
  apply (@rates_bounds [x00; x10; xff] [xff; x10; x00]);
    [reflexivity|discriminate|cbn; lia].
Defined.

(** X13: on two byte buffers of one length that are not empty (and no
    longer than [sys.maxsize], as every buffer is), NPCR is 0 exactly when
    the two buffers are the same: a sum of zeros is exact, and a count
    that is not zero gives a rate that is not zero, whatever is rounded. *)
Theorem npcr_zero_iff_same (original encrypted : bytes) :
  len original = len encrypted -> original <> [] ->
  (Z.of_nat (len original) <= maxsize)%Z ->
  exists m,
    calculate_npcr_uaci (reshape_column (frombuffer original))
                        (reshape_column (frombuffer encrypted))
    = Return m /\
    (npcr m = Fin 0 <-> original = encrypted).
Proof.
  intros Hlen Hne Hmax.
  assert (Hn : len original <> 0)
    by (destruct original; [congruence|discriminate]).
  rewrite (rates_of_buffers _ _ Hlen). cbv zeta.
  eexists. split; [reflexivity|]. cbn [npcr].
  destruct (sums_of_buffers original encrypted)
    as ((_ & Hd & Hd1) & _ & Hcount & _).
  split.
  - intros Hzero.
    destruct (Nat.eq_dec (ChangeRates.count_diff (map Bytes.to_Z original)
                                                 (map Bytes.to_Z encrypted))
                         0) as [E|E].
    + apply to_Z_injective.
      apply count_diff_zero; [rewrite !length_map; exact Hlen|exact E].
    + exfalso.
      destruct (npcr_divisor_bounded Hn Hmax) as (v & Hv & Hrange).
      rewrite Hv in Hzero. revert Hzero. apply div32_nonzero; [|exact Hrange].
      apply mul32_100_at_least, Hd1. lia.
  - intros <-.
    rewrite (proj2 (@count_diff_zero (map Bytes.to_Z original)
                                     (map Bytes.to_Z original) eq_refl)
                   eq_refl) in Hd.
    rewrite Hd by discriminate.
    change (of_Z (Z.of_nat 0)) with (Fin 0). rewrite mul32_100_zero.
    apply div32_zero, npcr_divisor_at_least, Hn.
Qed.

Lemma npcr_zero_iff_same_witness :
  len [x00; x10] = len [x00; x11] /\ [x00; x10] <> [] /\
  (Z.of_nat (len [x00; x10]) <= maxsize)%Z /\
  exists m,
    calculate_npcr_uaci (reshape_column (frombuffer [x00; x10]))
                        (reshape_column (frombuffer [x00; x11]))
    = Return m /\
    (npcr m = Fin 0 <-> [x00; x10] = [x00; x11]).
Proof.
  split; [reflexivity|]. split; [discriminate|]. split; [discriminate|].
  apply (@npcr_zero_iff_same [x00; x10] [x00; x11]);
    [reflexivity|discriminate|discriminate].
Defined.

End RateTheorems.

Module EntropyFacts.
Import NumPy Counting analysis ChangeRateFacts HistogramFacts.

Lemma occurrences_repeat (z : Z) (b : byte) (n : nat) :
  occurrences z (map Bytes.to_Z (repeat b n))
  = if (z =? Bytes.to_Z b)%Z then n else 0.
Proof.
  unfold occurrences. induction n as [|n IH].
  - destruct (z =? Bytes.to_Z b)%Z; reflexivity.
  - cbn [repeat map filter]. destruct (z =? Bytes.to_Z b)%Z; cbn [length];
      rewrite IH; reflexivity.
Qed.

Lemma fdiv_self (n : nat) : n <> 0 -> fdiv (of_nat n) (of_nat n) = Fin 1.
Proof.
  intros Hn. unfold of_nat, of_Z. cbn [fdiv].
  rewrite Qzero_false by (apply Qnat_nonzero; exact Hn).
  change (Fin 1) with (fin 1). apply fin_eq.
  field. apply Qnat_nonzero. exact Hn.
Qed.

Lemma fdiv_zero (n : nat) : n <> 0 -> fdiv (of_nat 0) (of_nat n) = Fin 0.
Proof.
  intros Hn. unfold of_nat, of_Z. cbn [fdiv].
  rewrite Qzero_false by (apply Qnat_nonzero; exact Hn).
  reflexivity.
Qed.

(** Filtering a list of two values, one kept and one dropped. *)
Lemma filter_two_values {A B} (keep : B -> bool) (c : A -> bool) (X Y : B)
      (l : list A) :
  keep X = true -> keep Y = false ->
  filter keep (map (fun v => if c v then X else Y) l)
  = repeat X (list_sum (map (fun v => if c v then 1 else 0) l)).
Proof.
  intros HX HY. induction l as [|v l IH]; [reflexivity|].
  cbn [map filter list_sum fold_right].
  destruct (c v); [rewrite HX|rewrite HY]; rewrite IH; reflexivity.
Qed.

(** The probabilities kept for a buffer of one repeated byte: the single
    probability 1. *)
Lemma constant_probabilities (b : byte) (n : nat) :
  n <> 0 ->
  filter (fun p => fgt p (Fin 0))
         (map (fun f => fdiv (of_nat f) (of_nat (len (repeat b n))))
              (bincount (frombuffer (repeat b n)) 256))
  = [Fin 1].
Proof.
  intros Hn. rewrite bincount_bytes, repeat_length, map_map.
  erewrite map_ext.
  2:{ intros v. rewrite occurrences_repeat.
      instantiate (1 := fun v => if (Z.of_nat v =? Bytes.to_Z b)%Z
                                 then Fin 1 else Fin 0).
      cbv beta. destruct (Z.of_nat v =? Bytes.to_Z b)%Z;
        [apply fdiv_self|apply fdiv_zero]; exact Hn. }
  rewrite (@filter_two_values nat float (fun p => fgt p (Fin 0))
             (fun v => (Z.of_nat v =? Bytes.to_Z b)%Z) (Fin 1) (Fin 0))
    by reflexivity.
  rewrite indicator_sum.
  pose proof (BytesFacts.to_Z_range b) as Hb.
  replace ((Z.of_nat 0 <=? Bytes.to_Z b) && (Bytes.to_Z b <? Z.of_nat (0 + 256)))%Z
    with true; [reflexivity|].
  symmetry. apply andb_true_iff. split; [apply Z.leb_le|apply Z.ltb_lt]; lia.
Qed.

End EntropyFacts.

Module EntropyTheorems.
Import NumPy analysis ChangeRateFacts EntropyFacts.

(** X14: the entropy of a buffer that repeats one byte is 0, as soon as
    the logarithm of 1 is 0: the only probability kept is 1. *)
Theorem entropy_of_constant (fn : elementary) (b : byte) (n : nat) :
  n <> 0 -> (real_log2 fn 1 == 0)%Q ->
  calculate_entropy fn (repeat b n) = Return (Fin 0).
Proof.
  intros Hn Hlog. unfold calculate_entropy. cbv zeta.
  rewrite (constant_probabilities b Hn).
  cbn [map try_except]. f_equal.
  assert (Hl : log2 fn (Fin 1) = Fin 0).
  { unfold log2. cbn [Qzero Qneg Qnum Z.eqb Z.ltb Z.compare].
    change (Fin 0) with (fin 0). apply fin_eq. exact Hlog. }
  rewrite Hl. reflexivity.
Qed.

Lemma entropy_of_constant_witness :
  7 <> 0 /\ (real_log2 Instances.integer_parts 1 == 0)%Q /\
  calculate_entropy Instances.integer_parts (repeat xab 7) = Return (Fin 0).
Proof.
  split; [discriminate|]. split; [reflexivity|].
  apply (@entropy_of_constant Instances.integer_parts xab 7);
    [discriminate|reflexivity].
Defined.

End EntropyTheorems.

Module StrengthFacts.
Import NumPy analysis ChangeRateFacts CorrelationFacts RateFacts2 FloatFacts
       AnalysisFacts.

Lemma entropy_returns (fn : elementary) (data : bytes) :
  exists entropy, calculate_entropy fn data = Return entropy.
Proof. unfold calculate_entropy. eexists. reflexivity. Qed.

Lemma column_correlation_returns (fn : elementary) (data : bytes) :
  exists c,
    calculate_correlation fn (reshape_column (frombuffer data)) = Return c.
Proof.
  apply (@correlation_returns fn _ (len data) 1);
    [apply column_shape|apply column_wf].
Qed.

Lemma analyze_mismatch (fn : elementary) (original_data encrypted_data : bytes) :
  len original_data <> len encrypted_data ->
  analyze_encryption_strength fn original_data encrypted_data
  = Raise (AnalysisError
             "Encryption strength analysis failed: NPCR/UACI calculation failed: Images must have the same dimensions").
Proof.
  intros Hlen. unfold analyze_encryption_strength.
  destruct (entropy_returns fn encrypted_data) as (entropy & ->).
  destruct (column_correlation_returns fn encrypted_data) as (c & ->).
  cbn [bind]. unfold calculate_npcr_uaci.
  rewrite shape_eqb_false by (rewrite !column_shape; congruence).
  reflexivity.
Qed.

Lemma analyze_match (fn : elementary) (original_data encrypted_data : bytes) :
  len original_data = len encrypted_data ->
  exists entropy c m,
    calculate_npcr_uaci (reshape_column (frombuffer original_data))
                        (reshape_column (frombuffer encrypted_data))
    = Return m /\
    analyze_encryption_strength fn original_data encrypted_data
    = Return {| r_entropy := entropy;
                r_correlations := c;
                r_npcr := npcr m;
                r_uaci := uaci m;
                r_verdict :=
                  verdict (strength_score entropy (avg_correlation c) (npcr m))
             |} /\
    horizontal c = NaN.
Proof.
  intros Hlen. unfold analyze_encryption_strength.
  destruct (entropy_returns fn encrypted_data) as (entropy & ->).
  destruct (column_correlation_returns fn encrypted_data) as (c & Hc).
  destruct (column_correlation fn _ (column_shape encrypted_data) Hc)
    as [Hh _].
  rewrite Hc. cbn [bind].
  assert (Hm : exists m,
             calculate_npcr_uaci (reshape_column (frombuffer original_data))
                                 (reshape_column (frombuffer encrypted_data))
             = Return m).
  { unfold calculate_npcr_uaci.
    rewrite shape_eqb_true by (rewrite !column_shape, Hlen; reflexivity).
    cbn [negb try_except]. eexists. reflexivity. }
  destruct Hm as (m & Hm). rewrite Hm. cbn [bind try_except].
  exists entropy, c, m. auto.
Qed.

End StrengthFacts.

Module StrengthTheorems.
Import NumPy analysis ChangeRateFacts CorrelationFacts RateSums RateFacts2
       FloatFacts AnalysisFacts StrengthFacts.

(** The rates of a buffer that is not empty against itself. *)
Lemma same_buffer_rates (b : byte) (data : bytes) :
  calculate_npcr_uaci (reshape_column (frombuffer (b :: data)))
                      (reshape_column (frombuffer (b :: data)))
  = Return {| npcr := Fin 0; uaci := Fin 0 |}.
Proof.
  apply npcr_uaci_same.
  - rewrite column_size. discriminate.
  - rewrite column_items. apply bytes_range.
Qed.

(** X15: [analyze_encryption_strength] returns exactly when the two
    buffers have the same length, the empty ones included; on buffers of
    different lengths it raises the [AnalysisError] of the dimension
    check of [calculate_npcr_uaci], wrapped twice. *)
Theorem analyze_needs_equal_lengths (fn : elementary)
        (original_data encrypted_data : bytes) :
  (len original_data = len encrypted_data <->
   exists r,
     analyze_encryption_strength fn original_data encrypted_data = Return r) /\
  (len original_data <> len encrypted_data <->
   analyze_encryption_strength fn original_data encrypted_data
   = Raise (AnalysisError
              "Encryption strength analysis failed: NPCR/UACI calculation failed: Images must have the same dimensions")).
Proof.
  destruct (Nat.eq_dec (len original_data) (len encrypted_data)) as [E|E].
  - destruct (analyze_match fn _ _ E) as (entropy & c & m & _ & Hr & _).
    rewrite Hr. split; split; intros; try assumption; try discriminate.
    + eexists. reflexivity.
    + contradiction.
  - rewrite (analyze_mismatch fn _ _ E).
    split; split; intros H; try assumption; try reflexivity.
    + contradiction.
    + destruct H as (r & H). discriminate H.
Qed.

(** X16: comparing a buffer with itself always gives the verdict Weak:
    the analysis returns, the correlation check adds nothing, and the
    NPCR is 0 (or NaN on the empty buffer), so the score is at most 2;
    when the buffer is not empty NPCR and UACI are both 0. *)
Theorem analyze_same_buffer (fn : elementary) (data : bytes) :
  exists r,
    analyze_encryption_strength fn data data = Return r /\
    r_verdict r = "Weak"%string /\
    (data <> [] -> r_npcr r = Fin 0 /\ r_uaci r = Fin 0).
Proof.
  destruct (analyze_match fn data data eq_refl)
    as (entropy & c & m & Hm & Hr & Hh).
  rewrite Hr. eexists. split; [reflexivity|].
  cbn [r_verdict r_npcr r_uaci].
  rewrite (avg_correlation_nan _ Hh).
  assert (Hnpcr : npcr m = NaN \/ npcr m = Fin 0 /\ uaci m = Fin 0).
  { destruct data as [|b data].
    - left. vm_compute in Hm. injection Hm as <-. reflexivity.
    - right. rewrite same_buffer_rates in Hm.
      injection Hm as <-. split; reflexivity. }
  split.
  - unfold strength_score. rewrite !flt_nan_l.
    assert (Hn : fgt (npcr m) (Fin 99) = false /\ fgt (npcr m) (Fin 90) = false).
    { destruct Hnpcr as [->|[-> _]]; split; reflexivity. }
    destruct Hn as [-> ->].
    destruct (fgt entropy (Fin 7.9)), (fgt entropy (Fin 7.5)); reflexivity.
  - intros Hne. destruct Hnpcr as [Hnan|H]; [|exact H].
    destruct data as [|b data]; [congruence|].
    rewrite same_buffer_rates in Hm. injection Hm as <-.
    discriminate Hnan.
Qed.

End StrengthTheorems.

(* ================================================================== *)
(** * Properties of main.py *)
(* ================================================================== *)

Module ApplicationTheorems.
Import crypto_utils visualization analysis histogram main Instances
       CipherFacts VisualizationFacts StrengthFacts.

(** What the encryption of an image gives, with the facts the flows of
    the application need. *)
Lemma encrypted_parts (aes : AES.block_cipher) (image_data : bytes)
      (password : unicode) (encoded : bytes) (s : os_state) :
  AES.block_cipher_correct aes -> password <> [] ->
  encode password = Return encoded ->
  exists salt iv ciphertext s',
    encrypt_image aes image_data password s
    = (Return (salt, iv, ciphertext), s') /\
    len salt = 16 /\ len iv = 16 /\
    len ciphertext = 16 * (len image_data / 16 + 1) /\
    forall s'',
      decrypt_image aes ciphertext salt iv password s''
      = (Return image_data, s'').
Proof.
  intros Haes Hp Hencode.
  destruct (@encrypt_image_returns aes image_data password encoded s Hp
              Hencode)
    as (key & padded & Hkey & Hklen & Hpad & Hplen & Henc).
  set (salt := fst (urandom 16 s)) in *.
  set (iv := fst (urandom 16 (snd (urandom 16 s)))) in *.
  assert (Hs : len salt = 16) by apply urandom_length.
  assert (Hi : len iv = 16) by apply urandom_length.
  eexists salt, iv, _, _. split; [exact Henc|].
  split; [exact Hs|]. split; [exact Hi|]. split.
  - apply (@cbc_encrypt_length aes Haes); assumption.
  - intros s''. eapply decrypt_image_returns; eauto.
    destruct salt; [discriminate|congruence].
Qed.

(** X17: the Encrypt button, on a password that is not empty and an
    original size of positive area.  When the password can be encoded the
    flow succeeds: the file it writes has 48 + 16 * (len(image) / 16)
    bytes, between 33 and 48 more than the image; the Decrypt flow on that
    file with the same password gives the image bytes back; the
    visualization image shows a prefix of the ciphertext, in the original
    size when the ciphertext has that many bytes.  When the password
    cannot be encoded (it holds a surrogate) the flow fails: it raises the
    [CryptoError] of [encrypt_image], and nothing is written. *)
Theorem encrypt_button (aes : AES.block_cipher) (image_data : bytes)
        (W H : nat) (password : unicode) (s : os_state) :
  AES.block_cipher_correct aes -> password <> [] -> 0 < W * H ->
  match encode password with
  | Return _ =>
      exists combined_data visual_img s',
        process_image_encrypt aes image_data (W, H) password s
        = (Return (combined_data, visual_img), s') /\
        len combined_data = 48 + 16 * (len image_data / 16) /\
        len image_data + 32 < len combined_data <= len image_data + 48 /\
        (forall s'',
            process_image_decrypt aes combined_data password s''
            = (Return image_data, s'')) /\
        PIL.mode visual_img = "L"%string /\
        len (PIL.pixels visual_img)
        = PIL.width visual_img * PIL.height visual_img /\
        PIL.pixels visual_img
        = map Bytes.to_Z
              (firstn (PIL.width visual_img * PIL.height visual_img)
                      (skipn 32 combined_data)) /\
        (W * H <= len combined_data - 32 ->
         PIL.width visual_img = W /\ PIL.height visual_img = H)
  | Raise e =>
      process_image_encrypt aes image_data (W, H) password s
      = (Raise (CryptoError
                  ("Encryption failed: Key derivation failed: "
                     ++ str e)%string),
         snd (urandom 16 s))
  end.
Proof.
  intros Haes Hp Harea.
  destruct (encode password) as [e|encoded] eqn:Hencode.
  { unfold process_image_encrypt, io_bind.
    rewrite (@encrypt_image_unencodable aes image_data password e s Hp
               Hencode).
    reflexivity. }
  destruct (@encrypted_parts aes image_data password encoded s Haes Hp
              Hencode)
    as (salt & iv & c & s' & Henc & Hs & Hi & Hc & Hdec).
  destruct (@ContainerTheorems.combine_slices salt iv c Hs Hi)
    as (Hlen & Hsalt & Hiv & Hdata).
  assert (Hcomb : len (combine_encrypted_data salt iv c) = 32 + len c)
    by (unfold combine_encrypted_data; rewrite !length_app; lia).
  assert (Hcne : c <> []) by (intros ->; simpl in Hc; lia).
  assert (Hvis : exists visual_img,
             create_visualization_image c (Some (W, H)) = Return visual_img /\
             PIL.mode visual_img = "L"%string /\
             PIL.pixels visual_img
             = map Bytes.to_Z
                   (firstn (PIL.width visual_img * PIL.height visual_img) c) /\
             PIL.width visual_img * PIL.height visual_img <= len c /\
             (W * H <= len c ->
              PIL.width visual_img = W /\ PIL.height visual_img = H)).
  { unfold create_visualization_image.
    destruct (Nat.le_gt_cases (W * H) (len c)) as [Hle|Hgt].
    - rewrite body_original by exact Hle.
      eexists. split; [reflexivity|]. cbn [PIL.mode PIL.pixels PIL.width PIL.height].
      repeat split. exact Hle.
    - rewrite (@body_computed c (Some (W, H)) Hcne Hgt).
      eexists. split; [reflexivity|]. cbn [PIL.mode PIL.pixels PIL.width PIL.height].
      split; [reflexivity|]. split; [reflexivity|]. split; [|lia].
      assert (Hn : 0 < len c) by (destruct c; [congruence|simpl; lia]).
      destruct (@sqrt_rectangle (len c) Hn) as (_ & Hle' & _). exact Hle'. }
  destruct Hvis as (visual & Hv & Hmode & Hpix & Hfit & Hsize).
  exists (combine_encrypted_data salt iv c), visual, s'.
  split.
  { unfold process_image_encrypt, io_bind. rewrite Henc. unfold lift.
    rewrite Hv. reflexivity. }
  rewrite Hcomb, Hc, Hdata.
  pose proof (Nat.div_mod_eq (len image_data) 16) as Hdm.
  pose proof (Nat.mod_upper_bound (len image_data) 16 ltac:(lia)) as Hmod.
  split; [lia|]. split; [lia|]. split.
  { intros s''. unfold process_image_decrypt, io_bind, lift.
    rewrite ContainerTheorems.split_long by exact Hlen.
    rewrite Hsalt, Hiv, Hdata. apply Hdec. }
  split; [exact Hmode|]. split.
  { rewrite Hpix, length_map, length_firstn. lia. }
  split; [exact Hpix|].
  intros Hle. apply Hsize. lia.
Qed.

Lemma encrypt_button_witness :
  AES.block_cipher_correct xor_cipher /\ literal "secret" <> [] /\
  0 < 2 * 3 /\
  exists combined_data visual_img s',
    process_image_encrypt xor_cipher [x89; x50; x4e; x47] (2, 3)
                          (literal "secret") counting_source
    = (Return (combined_data, visual_img), s') /\
    len combined_data = 48 + 16 * (len [x89; x50; x4e; x47] / 16) /\
    len [x89; x50; x4e; x47] + 32 < len combined_data
    <= len [x89; x50; x4e; x47] + 48 /\
    (forall s'',
        process_image_decrypt xor_cipher combined_data (literal "secret") s''
        = (Return [x89; x50; x4e; x47], s'')) /\
    PIL.mode visual_img = "L"%string /\
    len (PIL.pixels visual_img) = PIL.width visual_img * PIL.height visual_img /\
    PIL.pixels visual_img
    = map Bytes.to_Z
          (firstn (PIL.width visual_img * PIL.height visual_img)
                  (skipn 32 combined_data)) /\
    (2 * 3 <= len combined_data - 32 ->
     PIL.width visual_img = 2 /\ PIL.height visual_img = 3).
Proof.
  split; [exact CipherTheorems.xor_cipher_correct|].
  split; [discriminate|]. split; [simpl; lia|].
  exact (@encrypt_button xor_cipher [x89; x50; x4e; x47] 2 3
           (literal "secret") counting_source
           CipherTheorems.xor_cipher_correct ltac:(discriminate)
           ltac:(simpl; lia)).
Defined.

(** X18: the Decrypt flow refuses every file shorter than 48 bytes: with
    a password that is not empty it raises a [CryptoError], from the
    container check below 32 bytes and from the decryption of a ciphertext
    of fewer than 16 bytes otherwise (or from the key derivation, when
    the password cannot be encoded), and the entropy source is left
    untouched. *)
Theorem decrypt_refuses_short_files (aes : AES.block_cipher)
        (encrypted_data : bytes) (password : unicode) (s : os_state) :
  password <> [] -> len encrypted_data < 48 ->
  exists msg,
    process_image_decrypt aes encrypted_data password s
    = (Raise (CryptoError msg), s).
Proof.
  intros Hp Hshort. unfold process_image_decrypt, io_bind, lift.
  destruct (Nat.lt_ge_cases (len encrypted_data) 32) as [Hlt|Hge].
  - unfold split_encrypted_data.
    replace (len encrypted_data <? 32) with true
      by (symmetry; apply Nat.ltb_lt; exact Hlt).
    eexists. reflexivity.
  - rewrite ContainerTheorems.split_long by exact Hge.
    destruct (@CipherProperties.bad_ciphertext_rejected aes
                (skipn 32 encrypted_data) (firstn 16 encrypted_data)
                (firstn 16 (skipn 16 encrypted_data)) password s Hp)
      as (msg & Hmsg).
    + intros E. apply (f_equal (@length byte)) in E.
      rewrite length_firstn in E. cbn [length] in E. lia.
    + rewrite length_firstn, length_skipn. lia.
    + destruct (skipn 32 encrypted_data) as [|b rest] eqn:E;
        [right; reflexivity|].
      left. rewrite <- E, length_skipn.
      rewrite Nat.mod_small by lia.
      apply (f_equal (@length byte)) in E. rewrite length_skipn in E.
      cbn [length] in E. lia.
    + exists ("Decryption failed: " ++ msg)%string. exact Hmsg.
Qed.

Lemma decrypt_refuses_short_files_witness :
  literal "secret" <> [] /\ len (repeat x00 40) < 48 /\
  exists msg,
    process_image_decrypt xor_cipher (repeat x00 40) (literal "secret")
                          counting_source
    = (Raise (CryptoError msg), counting_source).
Proof.
  split; [discriminate|]. split; [simpl; lia|].
  apply decrypt_refuses_short_files; [discriminate|simpl; lia].
Defined.

(** X19: the Check Encryption Strength button cannot succeed on an image
    and the file the Encrypt button made of it: the ciphertext is always
    longer than the image, so the analysis raises the [AnalysisError] of
    the dimension check, whatever the image and the password.  (The file
    is made as soon as the password can be encoded; otherwise
    [encrypt_image] raises and there is no file to analyse.) *)
Theorem analysis_of_own_ciphertext_fails (aes : AES.block_cipher)
        (fn : NumPy.elementary) (image_data : bytes) (password : unicode)
        (s : os_state) :
  AES.block_cipher_correct aes -> password <> [] ->
  match encode password with
  | Return _ =>
      exists salt iv ciphertext s',
        encrypt_image aes image_data password s
        = (Return (salt, iv, ciphertext), s') /\
        len image_data < len ciphertext /\
        analyze_encryption fn image_data
                           (combine_encrypted_data salt iv ciphertext)
        = Raise (AnalysisError
                   "Encryption strength analysis failed: NPCR/UACI calculation failed: Images must have the same dimensions")
  | Raise _ =>
      raises (fst (encrypt_image aes image_data password s)) = true
  end.
Proof.
  intros Haes Hp.
  destruct (encode password) as [e|encoded] eqn:Hencode;
    [rewrite (@encrypt_image_unencodable aes image_data password e s Hp
                Hencode); reflexivity|].
  destruct (@encrypted_parts aes image_data password encoded s Haes Hp
              Hencode)
    as (salt & iv & c & s' & Henc & Hs & Hi & Hc & _).
  destruct (@ContainerTheorems.combine_slices salt iv c Hs Hi)
    as (Hlen & Hsalt & Hiv & Hdata).
  pose proof (Nat.div_mod_eq (len image_data) 16) as Hdm.
  pose proof (Nat.mod_upper_bound (len image_data) 16 ltac:(lia)) as Hmod.
  assert (Hlonger : len image_data < len c) by lia.
  exists salt, iv, c, s'. split; [exact Henc|]. split; [exact Hlonger|].
  unfold analyze_encryption.
  rewrite ContainerTheorems.split_long by exact Hlen.
  cbn [bind]. rewrite Hdata.
  rewrite analyze_mismatch by lia. reflexivity.
Qed.

Lemma analysis_of_own_ciphertext_fails_witness :
  AES.block_cipher_correct xor_cipher /\ literal "secret" <> [] /\
  exists salt iv ciphertext s',
    encrypt_image xor_cipher [x89; x50; x4e; x47] (literal "secret")
                  counting_source
    = (Return (salt, iv, ciphertext), s') /\
    len [x89; x50; x4e; x47] < len ciphertext /\
    analyze_encryption integer_parts [x89; x50; x4e; x47]
                       (combine_encrypted_data salt iv ciphertext)
    = Raise (AnalysisError
               "Encryption strength analysis failed: NPCR/UACI calculation failed: Images must have the same dimensions").
Proof.
  split; [exact CipherTheorems.xor_cipher_correct|].
  split; [discriminate|].
  exact (@analysis_of_own_ciphertext_fails xor_cipher integer_parts
           [x89; x50; x4e; x47] (literal "secret") counting_source
           CipherTheorems.xor_cipher_correct ltac:(discriminate)).
Defined.

End ApplicationTheorems.

Module VerdictFacts.
Import NumPy analysis FloatFacts.

(** A value above a threshold is above every lower threshold. *)
Lemma fgt_lower (x : float) (lo hi : Q) :
  (lo <= hi)%Q -> fgt x (Fin hi) = true -> fgt x (Fin lo) = true.
Proof.
  intros Hle. unfold fgt, flt.
  destruct x as [|s|q]; cbn [fcompare]; try discriminate.
  - destruct s; auto.
  - destruct (hi ?= q)%Q eqn:E; try discriminate. intros _.
    apply Qlt_alt in E.
    assert (Hlt : (lo < q)%Q) by (eapply Qle_lt_trans; eassumption).
    replace (lo ?= q)%Q with Lt by (symmetry; apply Qlt_alt; exact Hlt).
    reflexivity.
Qed.

(** The score without correlation points, by cases on the two checks
    that remain. *)
Lemma moderate_iff (entropy npcr : float) :
  verdict (strength_score entropy NaN npcr) = "Moderate"%string <->
  fgt entropy (Fin 7.5) = true /\ fgt npcr (Fin 90) = true /\
  (fgt entropy (Fin 7.9) = true \/ fgt npcr (Fin 99) = true).
Proof.
  pose proof (@fgt_lower entropy 7.5 7.9 ltac:(discriminate)) as He.
  pose proof (@fgt_lower npcr 90 99 ltac:(discriminate)) as Hn.
  unfold strength_score. rewrite !flt_nan_l.
  destruct (fgt entropy (Fin 7.9)) eqn:E1, (fgt entropy (Fin 7.5)) eqn:E2,
    (fgt npcr (Fin 99)) eqn:N1, (fgt npcr (Fin 90)) eqn:N2;
    try (specialize (He eq_refl); discriminate He);
    try (specialize (Hn eq_refl); discriminate Hn);
    cbn; split; intros H; try discriminate; try tauto;
    try (destruct H as (H1 & H2 & [H3|H3]); discriminate).
Qed.

End VerdictFacts.

Module VerdictTheorems.
Import NumPy analysis FloatFacts AnalysisFacts VerdictFacts.

(** X20: the verdict of [analyze_encryption_strength] depends on the
    entropy and on NPCR alone: it is Moderate exactly when the entropy is
    above 7.5 and NPCR above 90, one of them being above its upper
    threshold (7.9, or 99), and Weak otherwise. *)
Theorem verdict_of_analysis (fn : elementary)
        (original_data encrypted_data : bytes) (r : results) :
  analyze_encryption_strength fn original_data encrypted_data = Return r ->
  (r_verdict r = "Moderate"%string <->
   fgt (r_entropy r) (Fin 7.5) = true /\ fgt (r_npcr r) (Fin 90) = true /\
   (fgt (r_entropy r) (Fin 7.9) = true \/ fgt (r_npcr r) (Fin 99) = true)) /\
  (r_verdict r <> "Moderate"%string <-> r_verdict r = "Weak"%string).
Proof.
  intros Hr.
  destruct (analyze_inversion _ _ _ Hr) as (entropy & c & m & _ & Hc & _ & ->).
  assert (Hshape : shape (reshape_column (frombuffer encrypted_data))
                   = [len encrypted_data; 1]).
  { unfold reshape_column, frombuffer, size. cbn [shape fold_right].
    rewrite Nat.mul_1_r. reflexivity. }
  destruct (column_correlation _ _ Hshape Hc) as [Hh _].
  cbn [r_verdict r_entropy r_npcr].
  rewrite (avg_correlation_nan _ Hh).
  split; [apply moderate_iff|].
  pose proof (strength_score_nan entropy (npcr m)) as Hle.
  destruct (verdict_low Hle) as [[Hv|Hv] _]; rewrite Hv;
    split; intros H; congruence || discriminate.
Qed.

Lemma verdict_of_analysis_witness :
  exists r,
    analyze_encryption_strength Instances.integer_parts
      [x01; x02; x04; x03] [x11; x02; x04; x03] = Return r /\
    (r_verdict r = "Moderate"%string <->
     fgt (r_entropy r) (Fin 7.5) = true /\ fgt (r_npcr r) (Fin 90) = true /\
     (fgt (r_entropy r) (Fin 7.9) = true \/ fgt (r_npcr r) (Fin 99) = true)) /\
    (r_verdict r <> "Moderate"%string <-> r_verdict r = "Weak"%string).
Proof.
  eexists. split; [vm_compute; reflexivity|].
  apply (@verdict_of_analysis Instances.integer_parts
           [x01; x02; x04; x03] [x11; x02; x04; x03]).
  vm_compute. reflexivity.
Defined.

End VerdictTheorems.

Module FormatTheorems.
Import crypto_utils.

(** X21: the container has no length fields, so it gives back its parts
    only when the salt and the IV have their fixed length: splitting the
    combination of a salt, an IV and a ciphertext returns these three
    exactly when the salt and the IV have 16 bytes each. *)
Theorem container_parts_iff (salt iv encrypted_data : bytes) :
  split_encrypted_data (combine_encrypted_data salt iv encrypted_data)
  = Return (salt, iv, encrypted_data)
  <-> len salt = 16 /\ len iv = 16.
Proof.
  split.
  - intros H.
    set (combined_data := combine_encrypted_data salt iv encrypted_data) in *.
    destruct (Nat.lt_ge_cases (len combined_data) 32) as [Hlt|Hge].
    + unfold split_encrypted_data in H.
      replace (len combined_data <? 32) with true in H
        by (symmetry; apply Nat.ltb_lt; exact Hlt).
      discriminate H.
    + rewrite ContainerTheorems.split_long in H by exact Hge.
      assert (Hs : len (firstn 16 combined_data) = len salt) by congruence.
      assert (Hi : len (firstn 16 (skipn 16 combined_data)) = len iv)
        by congruence.
      rewrite length_firstn in Hs. rewrite length_firstn, length_skipn in Hi.
      lia.
  - intros [Hs Hi].
    destruct (@ContainerTheorems.combine_slices salt iv encrypted_data Hs Hi)
      as (Hlen & Hsalt & Hiv & Hdata).
    rewrite ContainerTheorems.split_long by exact Hlen.
    rewrite Hsalt, Hiv, Hdata. reflexivity.
Qed.

End FormatTheorems.

Module FlatImageFacts.
Import NumPy analysis ChangeRateFacts CorrelationFacts AnalysisFacts.

Lemma fsum_repeat_from (v a : Z) (n : nat) :
  fold_left fadd (repeat (of_Z v) n) (of_Z a) = of_Z (a + Z.of_nat n * v).
Proof.
  revert a. induction n as [|n IH]; intros a.
  - simpl. f_equal. lia.
  - cbn [repeat fold_left]. rewrite fadd_of_Z, IH. f_equal. lia.
Qed.

Lemma fsum_repeat (v : Z) (n : nat) :
  fsum (repeat (of_Z v) n) = of_Z (Z.of_nat n * v).
Proof.
  unfold fsum. change (Fin 0) with (of_Z 0). rewrite fsum_repeat_from.
  reflexivity.
Qed.

(** The mean of a sample that repeats one value is that value. *)
Lemma mean_repeat (v : Z) (n : nat) :
  n <> 0 -> mean (repeat (of_Z v) n) = of_Z v.
Proof.
  intros Hn. unfold mean. rewrite fsum_repeat, repeat_length.
  unfold of_nat, of_Z. cbn [fdiv].
  rewrite Qzero_false by (apply Qnat_nonzero; exact Hn).
  transitivity (fin (inject_Z v)); [|apply fin_inject_Z].
  apply fin_eq. rewrite inject_Z_mult. field. apply Qnat_nonzero. exact Hn.
Qed.

Lemma combine_repeat {A} (x : A) (n : nat) :
  combine (repeat x n) (repeat x n) = repeat (x, x) n.
Proof. induction n as [|n IH]; [reflexivity|]. simpl. rewrite IH. reflexivity. Qed.

(** The deviations from the mean are all zero, and so is their product. *)
Lemma dot_of_deviations (v : Z) (n : nat) :
  n <> 0 ->
  let x := repeat (of_Z v) n in
  let xc := map (fun u => fsub u (mean x)) x in
  dot xc xc = Fin 0.
Proof.
  intros Hn x xc. unfold xc, x. rewrite (mean_repeat v Hn), map_repeat.
  rewrite fsub_of_Z, Z.sub_diag. unfold dot.
  rewrite combine_repeat, map_repeat. cbn [fst snd].
  change (fmul (of_Z 0) (of_Z 0)) with (of_Z 0).
  rewrite fsum_repeat, Z.mul_0_r. reflexivity.
Qed.

Lemma zero_times (s : float) : fmul (Fin 0) s = NaN \/ fmul (Fin 0) s = Fin 0.
Proof.
  destruct s as [|neg|q]; [left; reflexivity|left; reflexivity|right].
  cbn [fmul]. change (Fin 0) with (fin 0). apply fin_eq. ring.
Qed.

(** The correlation of a constant sample with itself is undefined. *)
Lemma corrcoef_constant (fn : elementary) (v : Z) (n : nat) :
  (real_sqrt fn 0 == 0)%Q ->
  corrcoef fn (repeat (of_Z v) n) (repeat (of_Z v) n) = Return NaN.
Proof.
  intros Hsqrt. destruct (Nat.eq_dec n 0) as [->|Hn]; [reflexivity|].
  unfold corrcoef, cov. rewrite Nat.eqb_refl. cbn [negb bind].
  pose proof (dot_of_deviations v Hn) as Hdot. cbv zeta in Hdot.
  rewrite Hdot.
  set (scale := fdiv (Fin 1) _).
  destruct (zero_times scale) as [-> | ->]; [reflexivity|].
  assert (Hs : sqrt fn (Fin 0) = Fin 0).
  { unfold sqrt. cbn [Qneg Qnum Z.ltb Z.compare].
    change (Fin 0) with (fin 0). apply fin_eq. exact Hsqrt. }
  rewrite Hs. reflexivity.
Qed.

Lemma in_firstn {A} (n : nat) (l : list A) (x : A) :
  In x (firstn n l) -> In x l.
Proof.
  intros H. rewrite <- (firstn_skipn n l). apply in_or_app. left. exact H.
Qed.

Lemma in_skipn {A} (n : nat) (l : list A) (x : A) :
  In x (skipn n l) -> In x l.
Proof.
  intros H. rewrite <- (firstn_skipn n l). apply in_or_app. right. exact H.
Qed.

Lemma rows_constant (c : float) (h w : nat) (xs : list float) :
  Forall (eq c) xs -> Forall (Forall (eq c)) (rows h w xs).
Proof.
  intros H. unfold rows. apply Forall_forall. intros row Hin.
  apply in_map_iff in Hin. destruct Hin as (i & <- & _).
  apply Forall_forall. intros x Hx.
  rewrite Forall_forall in H. apply H.
  apply in_firstn in Hx. apply in_skipn in Hx. exact Hx.
Qed.

Lemma Forall_Forall_removelast {A} (P : A -> Prop) (rs : list (list A)) :
  Forall (Forall P) rs -> Forall (Forall P) (map (@removelast A) rs).
Proof.
  intros H. apply Forall_map. eapply Forall_impl; [|exact H].
  intros row. apply Forall_removelast.
Qed.

Lemma Forall_Forall_tl {A} (P : A -> Prop) (rs : list (list A)) :
  Forall (Forall P) rs -> Forall (Forall P) (map (@tl A) rs).
Proof.
  intros H. apply Forall_map. eapply Forall_impl; [|exact H].
  intros row. apply Forall_tl.
Qed.

(** Two constant samples of one length are correlated as one sample with
    itself. *)
Lemma corrcoef_views (fn : elementary) (v : Z) (x y : list (list float)) :
  (real_sqrt fn 0 == 0)%Q ->
  Forall (Forall (eq (of_Z v))) x -> Forall (Forall (eq (of_Z v))) y ->
  len (concat x) = len (concat y) ->
  calculate_direction_correlation fn x y = Return NaN.
Proof.
  intros Hsqrt Hx Hy Hlen. unfold calculate_direction_correlation.
  apply Forall_concat in Hx, Hy.
  rewrite (Forall_eq_repeat Hx), (Forall_eq_repeat Hy), Hlen.
  apply corrcoef_constant. exact Hsqrt.
Qed.

End FlatImageFacts.

Module FlatImageTheorems.
Import NumPy analysis ChangeRateFacts CorrelationFacts AnalysisFacts
       FlatImageFacts.

(** X22: an image of a single value has no defined correlation: on an
    array of shape [(h, w)] whose items are all the same value,
    [calculate_correlation] returns NaN in the three directions (the
    variance is zero and the coefficient is [0/0]), as soon as the square
    root of 0 is 0. *)
Theorem correlation_of_flat_image (fn : elementary) (h w : nat) (v : Z) :
  (real_sqrt fn 0 == 0)%Q ->
  calculate_correlation fn {| shape := [h; w]; items := repeat v (h * w) |}
  = Return {| horizontal := NaN; vertical := NaN; diagonal := NaN |}.
Proof.
  intros Hsqrt. unfold calculate_correlation. cbn [shape items bind try_except].
  rewrite map_repeat.
  assert (Hlen : len (repeat (of_Z v) (h * w)) = h * w) by apply repeat_length.
  pose proof (rows_uniform h w _ Hlen) as Hrows.
  assert (Hconst : Forall (Forall (eq (of_Z v)))
                          (rows h w (repeat (of_Z v) (h * w)))).
  { apply rows_constant. apply Forall_forall. intros x Hx.
    apply repeat_spec in Hx. congruence. }
  set (image_rows := rows h w (repeat (of_Z v) (h * w))) in *.
  rewrite (@corrcoef_views fn v (map (@removelast _) image_rows)
             (map (@tl _) image_rows) Hsqrt
             (Forall_Forall_removelast Hconst) (Forall_Forall_tl Hconst)
             (horizontal_views Hrows)).
  rewrite (@corrcoef_views fn v (removelast image_rows) (tl image_rows) Hsqrt
             (Forall_removelast Hconst) (Forall_tl Hconst)
             (vertical_views Hrows)).
  rewrite (@corrcoef_views fn v (map (@removelast _) (removelast image_rows))
             (map (@tl _) (tl image_rows)) Hsqrt
             (Forall_Forall_removelast (Forall_removelast Hconst))
             (Forall_Forall_tl (Forall_tl Hconst))
             (diagonal_views Hrows)).
  reflexivity.
Qed.

Lemma correlation_of_flat_image_witness :
  (real_sqrt Instances.integer_parts 0 == 0)%Q /\
  calculate_correlation Instances.integer_parts
    {| shape := [3; 4]; items := repeat 200%Z (3 * 4) |}
  = Return {| horizontal := NaN; vertical := NaN; diagonal := NaN |}.
Proof.
  split; [reflexivity|].
  apply (@correlation_of_flat_image Instances.integer_parts 3 4 200%Z).
  reflexivity.
Defined.

End FlatImageTheorems.
